(** * Confidential chunked transfer engine: a shallow embedding

    Source files embedded here:
    - [server/contract.sol]                       (module [Registry])
    - [frontend/src/services/cryptoService.ts]    (module [ChunkCipher])
    - [frontend/src/utils/ipfsGateway.ts]         (module [Gateway])
    - [frontend/src/services/chunkedDownload.ts]  (module [Download])
    - [frontend/src/services/chunkedUpload.ts]    (modules [Upload], [Proxy]
                                                   and [Auth])
    - [server/chunkedService.js], [verifyHmac]    (module [Auth])
    Module [RoundTrip] runs the download of [Download] on what the upload of
    [Upload] has published.

    Conventions.  A JavaScript string is a Rocq [string] whose characters are
    code units below 256.  A [Uint8Array] / [ArrayBuffer] is a [list byte].
    Solidity [uint256] and [address] values are [N]; the contract only
    compares them, so no wrap-around arithmetic is involved.  Promise
    rejections and [throw] are the [inl]/error constructors of the result
    types; primitives of the platform (Web Crypto, fetch, IndexedDB, the
    wallet) are parameters of the definitions. *)

From Stdlib Require Import ZArith NArith List String Ascii Bool Lia.
From Stdlib Require Import DecimalString DecimalNat.
From Stdlib Require Import QArith Qabs Lqa.
From Stdlib.Strings Require Import Byte.
From stdpp Require Import gmap strings list sorting.

Local Open Scope string_scope.
Local Open Scope list_scope.

(** ** Shared JavaScript helpers *)

(** [Number.prototype.toString()] on a non-negative integer: its decimal
    numeral, ["0"] for zero. *)
Definition toString (n : nat) : string :=
  NilEmpty.string_of_uint (Nat.to_uint n).

(** [new TextEncoder().encode(s)] for a string of code units below 128 (the
    only strings encoded in this development are decimal numerals). *)
Definition TextEncoder_encode (s : string) : list byte :=
  list_byte_of_string s.

(** [s.startsWith(p)] *)
Definition startsWith (p s : string) : bool := String.prefix p s.

(** [s.includes(sub)] *)
Fixpoint includes (sub s : string) : bool :=
  String.prefix sub s ||
  match s with
  | EmptyString => false
  | String _ s' => includes sub s'
  end.

(** [s.slice(n)] *)
Fixpoint slice_from (n : nat) (s : string) : string :=
  match n, s with
  | O, _ => s
  | S _, EmptyString => EmptyString
  | S m, String _ s' => slice_from m s'
  end.

Definition is_digit (c : ascii) : bool :=
  let n := nat_of_ascii c in (48 <=? n)%nat && (n <=? 57)%nat.
Definition is_upper (c : ascii) : bool :=
  let n := nat_of_ascii c in (65 <=? n)%nat && (n <=? 90)%nat.
Definition is_lower (c : ascii) : bool :=
  let n := nat_of_ascii c in (97 <=? n)%nat && (n <=? 122)%nat.

(** the character class [[a-zA-Z0-9]] *)
Definition is_alnum (c : ascii) : bool := is_lower c || is_upper c || is_digit c.

Fixpoint string_forallb (f : ascii -> bool) (s : string) : bool :=
  match s with
  | EmptyString => true
  | String c s' => f c && string_forallb f s'
  end.

(** [/^[a-zA-Z0-9]+$/.test(s)] *)
Definition alnum_plus (s : string) : bool :=
  match s with
  | EmptyString => false
  | String _ _ => string_forallb is_alnum s
  end.

(** [/^[bBQm][a-zA-Z0-9]+$/.test(s)], the CID pattern that appears in both
    [chunkedDownload.ts] (validateCID) and [ipfsGateway.ts] (sanitizeCID). *)
Definition cid_pattern (s : string) : bool :=
  match s with
  | EmptyString => false
  | String c rest =>
      (Ascii.eqb c "b" || Ascii.eqb c "B" || Ascii.eqb c "Q" || Ascii.eqb c "m")%char
      && alnum_plus rest
  end.

(** [String.prototype.toLowerCase] on code units below 128. *)
Definition lower_char (c : ascii) : ascii :=
  if is_upper c then ascii_of_nat (nat_of_ascii c + 32) else c.

Fixpoint toLowerCase (s : string) : string :=
  match s with
  | EmptyString => EmptyString
  | String c s' => String (lower_char c) (toLowerCase s')
  end.

#[global] Instance byte_eq_decision : EqDecision byte := byte_eq_dec.

(** [toString] is injective: distinct indices have distinct numerals. *)
Lemma toString_inj (i j : nat) : toString i = toString j -> i = j.
Proof.
  unfold toString. intros E.
  assert (U : Nat.to_uint i = Nat.to_uint j).
  { apply (f_equal NilEmpty.uint_of_string) in E.
    rewrite !NilEmpty.usu in E. congruence. }
  apply (f_equal Nat.of_uint) in U.
  now rewrite !Unsigned.of_to in U.
Qed.

Lemma TextEncoder_encode_inj (s t : string) :
  TextEncoder_encode s = TextEncoder_encode t -> s = t.
Proof.
  unfold TextEncoder_encode. intros E.
  apply (f_equal string_of_list_byte) in E.
  now rewrite !string_of_list_byte_of_string in E.
Qed.

(** ** The access ledger: [contract TimeBoundFileRegistry] *)

Module Registry.

Definition address := N.
Definition uint256 := N.
Definition bytes := string.
Definition bytes32 := string.

(** [struct FileRecord] *)
Record FileRecord := mkFileRecord {
  file_cid : string;
  file_encryptedKey : bytes;
  file_timestamp : uint256;
  file_revoked : bool;
  file_exists : bool
}.

(** [struct AccessRecord] *)
Record AccessRecord := mkAccessRecord {
  acc_encryptedKeyForGrantee : bytes;
  acc_start : uint256;
  acc_end : uint256;
  acc_revoked : bool;
  acc_exists : bool
}.

(** Contract storage.  A Solidity [mapping] is total: a key that was never
    written reads as the zero-initialised record. *)
Record Storage := mkStorage {
  uploads : gmap (address * bytes32) FileRecord;
  access : gmap (bytes32 * address) AccessRecord
}.

Definition zeroFileRecord : FileRecord := mkFileRecord "" "" 0%N false false.
Definition zeroAccessRecord : AccessRecord := mkAccessRecord "" 0%N 0%N false false.

Definition uploads_at (st : Storage) (owner : address) (h : bytes32) : FileRecord :=
  default zeroFileRecord (uploads st !! (owner, h)).

Definition access_at (st : Storage) (fk : bytes32) (grantee : address) : AccessRecord :=
  default zeroAccessRecord (access st !! (fk, grantee)).

Definition emptyStorage : Storage := mkStorage ∅ ∅.

Inductive Event :=
| FileUploaded (owner : address) (cid : string) (cidHash : bytes32) (ts : uint256)
| FileUpdated (owner : address) (cid : string) (cidHash : bytes32) (ts : uint256)
| FileRevoked (owner : address) (cid : string) (cidHash : bytes32) (ts : uint256)
| AccessGranted (owner grantee : address) (cid : string) (cidHash : bytes32)
    (start end_ ts : uint256)
| AccessRevoked (owner grantee : address) (cid : string) (cidHash : bytes32)
    (ts : uint256).

(** Outcome of a state-changing call: a failed [require] reverts with its
    reason string and leaves storage as it was. *)
Inductive outcome :=
| Reverted (reason : string)
| Committed (st : Storage) (ev : Event).

(** Big-endian bytes of a number, as [abi.encodePacked] lays out an address. *)
Fixpoint be_bytes (len : nat) (x : N) : string :=
  match len with
  | O => ""
  | S l => be_bytes l (x / 256) +:+ String (ascii_of_N (x mod 256)) ""
  end.

Section Contract.

(** [keccak256], a primitive of the EVM. *)
Variable keccak256 : string -> bytes32.

Definition _cidHash (cid : string) : bytes32 := keccak256 cid.

Definition _fileKey (owner : address) (cidHash : bytes32) : bytes32 :=
  keccak256 (be_bytes 20 owner +:+ cidHash).

Definition uploadFile (st : Storage) (sender : address) (now : uint256)
    (cid : string) (encryptedKey : bytes) : outcome :=
  if negb (0 <? String.length cid)%nat then Reverted "CID_REQUIRED"
  else if negb (0 <? String.length encryptedKey)%nat then Reverted "ENCRYPTED_KEY_REQUIRED"
  else
    let cidHash := _cidHash cid in
    let rec := uploads_at st sender cidHash in
    if file_exists rec then Reverted "ALREADY_EXISTS"
    else
      Committed
        (mkStorage
           (<[(sender, cidHash) := mkFileRecord cid encryptedKey now false true]> (uploads st))
           (access st))
        (FileUploaded sender cid cidHash now).

Definition updateEncryptedKey (st : Storage) (sender : address) (now : uint256)
    (cid : string) (newEncryptedKey : bytes) : outcome :=
  if negb (0 <? String.length cid)%nat then Reverted "CID_REQUIRED"
  else if negb (0 <? String.length newEncryptedKey)%nat then Reverted "NEW_KEY_REQUIRED"
  else
    let cidHash := _cidHash cid in
    let rec := uploads_at st sender cidHash in
    if negb (file_exists rec) then Reverted "NOT_FOUND"
    else if file_revoked rec then Reverted "REVOKED"
    else
      Committed
        (mkStorage
           (<[(sender, cidHash) :=
                mkFileRecord (file_cid rec) newEncryptedKey now (file_revoked rec)
                  (file_exists rec)]> (uploads st))
           (access st))
        (FileUpdated sender cid cidHash now).

Definition revokeFile (st : Storage) (sender : address) (now : uint256)
    (cid : string) : outcome :=
  let cidHash := _cidHash cid in
  let rec := uploads_at st sender cidHash in
  if negb (file_exists rec) then Reverted "NOT_FOUND"
  else if file_revoked rec then Reverted "ALREADY_REVOKED"
  else
    Committed
      (mkStorage
         (<[(sender, cidHash) :=
              mkFileRecord (file_cid rec) (file_encryptedKey rec) now true
                (file_exists rec)]> (uploads st))
         (access st))
      (FileRevoked sender cid cidHash now).

Definition grantAccess (st : Storage) (sender : address) (now : uint256)
    (grantee : address) (cid : string) (encryptedKeyForGrantee : bytes)
    (start end_ : uint256) : outcome :=
  if (grantee =? 0)%N then Reverted "INVALID_GRANTEE"
  else if negb (0 <? String.length cid)%nat then Reverted "CID_REQUIRED"
  else if negb (0 <? String.length encryptedKeyForGrantee)%nat
       then Reverted "ENCRYPTED_KEY_REQUIRED"
  else if negb (start <? end_)%N then Reverted "END_MUST_BE_GT_START"
  else
    let cidHash := _cidHash cid in
    let rec := uploads_at st sender cidHash in
    if negb (file_exists rec) then Reverted "OWNER_FILE_NOT_FOUND"
    else if file_revoked rec then Reverted "OWNER_FILE_REVOKED"
    else
      let fk := _fileKey sender cidHash in
      Committed
        (mkStorage (uploads st)
           (<[(fk, grantee) :=
                mkAccessRecord encryptedKeyForGrantee start end_ false true]> (access st)))
        (AccessGranted sender grantee cid cidHash start end_ now).

Definition revokeAccess (st : Storage) (sender : address) (now : uint256)
    (grantee : address) (cid : string) : outcome :=
  if (grantee =? 0)%N then Reverted "INVALID_GRANTEE"
  else
    let cidHash := _cidHash cid in
    let fk := _fileKey sender cidHash in
    let arec := access_at st fk grantee in
    if negb (acc_exists arec) then Reverted "ACCESS_NOT_FOUND"
    else if acc_revoked arec then Reverted "ACCESS_ALREADY_REVOKED"
    else
      Committed
        (mkStorage (uploads st)
           (<[(fk, grantee) :=
                mkAccessRecord (acc_encryptedKeyForGrantee arec) (acc_start arec)
                  (acc_end arec) true (acc_exists arec)]> (access st)))
        (AccessRevoked sender grantee cid cidHash now).

Definition getAccess (st : Storage) (owner : address) (cid : string)
    (grantee : address) : AccessRecord :=
  access_at st (_fileKey owner (_cidHash cid)) grantee.

Definition getFile (st : Storage) (owner : address) (cid : string) : FileRecord :=
  uploads_at st owner (_cidHash cid).

(** [isAccessActive]; [now] is [block.timestamp]. *)
Definition isAccessActive (st : Storage) (now : uint256) (owner : address)
    (cid : string) (grantee : address) : bool :=
  let cidHash := _cidHash cid in
  let rec := uploads_at st owner cidHash in
  if negb (file_exists rec) || file_revoked rec then false
  else
    let fk := _fileKey owner cidHash in
    let arec := access_at st fk grantee in
    if negb (acc_exists arec) || acc_revoked arec then false
    else (acc_start arec <=? now)%N && (now <? acc_end arec)%N.

End Contract.

(** A ledger history used by the concrete lemmas below: owner [1] registers
    ["QmFile"], grants it to [2] on the window [100, 200), then revokes the
    grant.  The hash is instantiated by the identity, which is injective. *)
Definition after (o : outcome) : Storage :=
  match o with
  | Committed st _ => st
  | Reverted _ => emptyStorage
  end.

Definition demo_registered : Storage :=
  after (uploadFile id emptyStorage 1%N 10%N "QmFile" "ownerkey").
Definition demo_granted : Storage :=
  after (grantAccess id demo_registered 1%N 20%N 2%N "QmFile" "granteekey" 100%N 200%N).
Definition demo_revoked : Storage :=
  after (revokeAccess id demo_granted 1%N 30%N 2%N "QmFile").

(** *** Properties of the ledger *)

(** C3. With an existing, unrevoked file record and an existing grant,
    [isAccessActive] is true exactly on [start <= now < end] while the grant
    is not revoked, and false at every timestamp once the grant is revoked. *)
Theorem isAccessActive_window
    (keccak256 : string -> bytes32) (st : Storage) (now : uint256)
    (owner : address) (cid : string) (grantee : address) :
  let rec := getFile keccak256 st owner cid in
  let arec := getAccess keccak256 st owner cid grantee in
  file_exists rec = true -> file_revoked rec = false -> acc_exists arec = true ->
  (acc_revoked arec = false ->
     (isAccessActive keccak256 st now owner cid grantee = true
      <-> (acc_start arec <= now /\ now < acc_end arec)%N))
  /\ (acc_revoked arec = true ->
        isAccessActive keccak256 st now owner cid grantee = false).
Proof.
  intros rec arec Hex Hrev Haex.
  unfold isAccessActive.
  fold (getFile keccak256 st owner cid). fold rec.
  rewrite Hex, Hrev. cbn [negb orb].
  change (access_at st (_fileKey keccak256 owner (_cidHash keccak256 cid)) grantee)
    with arec.
  rewrite Haex. cbn [negb orb].
  split; intros Hr; rewrite Hr; [|reflexivity].
  rewrite andb_true_iff, N.leb_le, N.ltb_lt. tauto.
Qed.

Lemma isAccessActive_window_witness :
  (isAccessActive id demo_granted 100%N 1%N "QmFile" 2%N = true
   <-> (100 <= 100 /\ 100 < 200)%N).
Proof.
  apply (isAccessActive_window id demo_granted 100%N 1%N "QmFile" 2%N);
    vm_compute; reflexivity.
Defined.

(** C9 as stated does not hold: the file record exists and is not revoked and
    [end > start], yet a call with an empty encrypted key reverts, the access
    record is not overwritten and the revoked grant stays inactive. *)
Lemma grantAccess_empty_key_reverts :
  file_exists (getFile id demo_revoked 1%N "QmFile") = true
  /\ file_revoked (getFile id demo_revoked 1%N "QmFile") = false
  /\ (300 < 400)%N
  /\ grantAccess id demo_revoked 1%N 40%N 2%N "QmFile" "" 300%N 400%N
     = Reverted "ENCRYPTED_KEY_REQUIRED"
  /\ acc_revoked (getAccess id demo_revoked 1%N "QmFile" 2%N) = true
  /\ isAccessActive id demo_revoked 350%N 1%N "QmFile" 2%N = false.
Proof. vm_compute. repeat split; reflexivity. Qed.

Lemma length_pos_true (s : string) : s <> "" -> (0 <? String.length s)%nat = true.
Proof. destruct s; [congruence|reflexivity]. Qed.

(** C9, amended.  With an existing, unrevoked file record, a call of
    [grantAccess] with a non-zero grantee, a non-empty cid, a non-empty
    encrypted key and [end > start] commits, overwrites the access record of
    (owner, cid, grantee) with the new key and window and [revoked = false],
    whatever the record held before, and afterwards [isAccessActive] is true
    exactly on the new window: a revoked grant becomes active again. *)
Theorem grantAccess_regrant
    (keccak256 : string -> bytes32) (st : Storage) (sender : address)
    (now : uint256) (grantee : address) (cid : string) (key : bytes)
    (start end_ : uint256) :
  file_exists (getFile keccak256 st sender cid) = true ->
  file_revoked (getFile keccak256 st sender cid) = false ->
  grantee <> 0%N -> cid <> "" -> key <> "" -> (start < end_)%N ->
  exists st' ev,
    grantAccess keccak256 st sender now grantee cid key start end_ = Committed st' ev
    /\ getAccess keccak256 st' sender cid grantee
       = mkAccessRecord key start end_ false true
    /\ forall t, isAccessActive keccak256 st' t sender cid grantee = true
                 <-> (start <= t /\ t < end_)%N.
Proof.
  intros Hex Hrev Hg Hc Hk Hw.
  unfold grantAccess.
  apply N.eqb_neq in Hg. rewrite Hg.
  rewrite (length_pos_true cid Hc), (length_pos_true key Hk).
  apply N.ltb_lt in Hw. rewrite Hw.
  unfold getFile in Hex, Hrev. rewrite Hex, Hrev. cbn [negb].
  eexists _, _. split; [reflexivity|].
  assert (Hget :
    getAccess keccak256
      (mkStorage (uploads st)
         (<[(_fileKey keccak256 sender (_cidHash keccak256 cid), grantee) :=
              mkAccessRecord key start end_ false true]> (access st)))
      sender cid grantee
    = mkAccessRecord key start end_ false true).
  { unfold getAccess, access_at. cbn [access].
    now rewrite lookup_insert_eq. }
  split; [exact Hget|].
  intros t. unfold isAccessActive.
  unfold uploads_at in *. cbn [uploads].
  rewrite Hex, Hrev. cbn [negb orb].
  unfold getAccess in Hget. rewrite Hget. cbn.
  rewrite andb_true_iff, N.leb_le, N.ltb_lt. tauto.
Qed.

Lemma grantAccess_regrant_witness :
  exists st' ev,
    grantAccess id demo_revoked 1%N 40%N 2%N "QmFile" "newkey" 300%N 400%N
    = Committed st' ev
    /\ getAccess id st' 1%N "QmFile" 2%N = mkAccessRecord "newkey" 300%N 400%N false true
    /\ forall t, isAccessActive id st' t 1%N "QmFile" 2%N = true
                 <-> (300 <= t /\ t < 400)%N.
Proof.
  apply (grantAccess_regrant id demo_revoked 1%N 40%N 2%N "QmFile" "newkey" 300%N 400%N);
    first [ vm_compute; reflexivity | discriminate ].
Defined.

(** *** Histories of transactions *)

(** The state-changing entry points, as a transaction names one. *)
Inductive call :=
| UploadFile (cid : string) (encryptedKey : bytes)
| UpdateEncryptedKey (cid : string) (newEncryptedKey : bytes)
| RevokeFile (cid : string)
| GrantAccess (grantee : address) (cid : string) (encryptedKeyForGrantee : bytes)
    (start end_ : uint256)
| RevokeAccess (grantee : address) (cid : string).

(** A transaction: [msg.sender], [block.timestamp] and the call. *)
Record tx := mkTx { tx_sender : address; tx_time : uint256; tx_call : call }.

Section History.

Variable keccak256 : string -> bytes32.

Definition execute (st : Storage) (t : tx) : outcome :=
  match tx_call t with
  | UploadFile cid key => uploadFile keccak256 st (tx_sender t) (tx_time t) cid key
  | UpdateEncryptedKey cid key =>
      updateEncryptedKey keccak256 st (tx_sender t) (tx_time t) cid key
  | RevokeFile cid => revokeFile keccak256 st (tx_sender t) (tx_time t) cid
  | GrantAccess grantee cid key start end_ =>
      grantAccess keccak256 st (tx_sender t) (tx_time t) grantee cid key start end_
  | RevokeAccess grantee cid =>
      revokeAccess keccak256 st (tx_sender t) (tx_time t) grantee cid
  end.

(** Storage after a transaction; a reverted one leaves it as it was. *)
Definition apply_tx (st : Storage) (t : tx) : Storage :=
  match execute st t with
  | Committed st' _ => st'
  | Reverted _ => st
  end.

Definition run_txs (st : Storage) (txs : list tx) : Storage :=
  fold_left apply_tx txs st.

(** What one transaction can do to a file slot: nothing, unless it is sent
    by the slot's owner; an existing record keeps [exists] and its cid; a
    revoked record is not written at all. *)
Lemma apply_tx_file (st : Storage) (t : tx) (owner : address) (h : bytes32) :
  let r := uploads_at st owner h in
  let r' := uploads_at (apply_tx st t) owner h in
  (tx_sender t <> owner -> r' = r)
  /\ (file_exists r = true ->
      file_exists r' = true /\ file_cid r' = file_cid r
      /\ (file_revoked r = true -> r' = r)).
Proof.
  cbn zeta. unfold apply_tx, execute.
  destruct t as [sender now c]; cbn [tx_sender tx_time tx_call].
  destruct c as [cid key|cid key|cid|g cid key s e|g cid];
    unfold uploadFile, updateEncryptedKey, revokeFile, grantAccess, revokeAccess;
    repeat match goal with
           | |- context [if ?b then _ else _] => destruct b eqn:?
           end;
    try (split; [reflexivity|auto]);
    unfold uploads_at in *; cbn [uploads];
    (destruct (decide ((sender, _cidHash keccak256 cid) = (owner, h))) as [[= -> <-]|Hne];
     [ split; [congruence|];
       rewrite lookup_insert_eq; cbn [default];
       intros Hex; repeat split; cbn;
       rewrite ?negb_true_iff, ?negb_false_iff in *; try congruence
     | rewrite lookup_insert_ne by exact Hne; auto ]).
Qed.

(** What one transaction can do to a grant slot: nothing, unless the slot
    is the sender's file key. *)
Lemma apply_tx_access (st : Storage) (t : tx) (fk : bytes32) (grantee : address) :
  (forall h, _fileKey keccak256 (tx_sender t) h <> fk) ->
  access_at (apply_tx st t) fk grantee = access_at st fk grantee.
Proof.
  intros Hfk. unfold apply_tx, execute.
  destruct t as [sender now c]; cbn [tx_sender tx_time tx_call] in *.
  destruct c as [cid key|cid key|cid|g cid key s e|g cid];
    unfold uploadFile, updateEncryptedKey, revokeFile, grantAccess, revokeAccess;
    repeat match goal with
           | |- context [if ?b then _ else _] => destruct b eqn:?
           end;
    try reflexivity;
    unfold access_at; cbn [access];
    (rewrite lookup_insert_ne; [reflexivity|intros [= E _]; exact (Hfk _ E)]).
Qed.

Lemma run_txs_file (st : Storage) (txs : list tx) (owner : address) (h : bytes32) :
  let r := uploads_at st owner h in
  let r' := uploads_at (run_txs st txs) owner h in
  (Forall (fun t => tx_sender t <> owner) txs -> r' = r)
  /\ (file_exists r = true ->
      file_exists r' = true /\ file_cid r' = file_cid r
      /\ (file_revoked r = true -> r' = r)).
Proof.
  cbn zeta. revert st. induction txs as [|t txs IH]; intros st; [cbn; auto|].
  cbn [run_txs fold_left]. fold (run_txs (apply_tx st t) txs).
  destruct (IH (apply_tx st t)) as [IH1 IH2].
  destruct (apply_tx_file st t owner h) as [H1 H2]. split.
  - intros Hall. inversion Hall as [|? ? Ht Hall']; subst.
    rewrite IH1 by exact Hall'. auto.
  - intros Hex. destruct (H2 Hex) as (Hex' & Hcid & Hrev).
    destruct (IH2 Hex') as (Hex'' & Hcid' & Hrev').
    split; [exact Hex''|]. split; [congruence|].
    intros Hr. specialize (Hrev Hr). rewrite Hrev in Hrev'. exact (Hrev' Hr).
Qed.

Lemma run_txs_access (st : Storage) (txs : list tx) (fk : bytes32) (grantee : address) :
  Forall (fun t => forall h, _fileKey keccak256 (tx_sender t) h <> fk) txs ->
  access_at (run_txs st txs) fk grantee = access_at st fk grantee.
Proof.
  revert st. induction txs as [|t txs IH]; intros st Hall; [reflexivity|].
  inversion Hall as [|? ? Ht Hall']; subst.
  cbn [run_txs fold_left]. fold (run_txs (apply_tx st t) txs).
  rewrite IH by exact Hall'. now apply apply_tx_access.
Qed.

(** X1. Revoking a file is final.  Once a file record is revoked, no
    sequence of transactions, by whatever senders, writes it again: it
    reads the same for ever, and no grant on it is active at any time. *)
Theorem revoked_file_is_frozen
    (st : Storage) (txs : list tx) (owner : address) (cid : string) :
  file_exists (getFile keccak256 st owner cid) = true ->
  file_revoked (getFile keccak256 st owner cid) = true ->
  getFile keccak256 (run_txs st txs) owner cid = getFile keccak256 st owner cid
  /\ forall now grantee,
       isAccessActive keccak256 (run_txs st txs) now owner cid grantee = false.
Proof.
  unfold getFile. intros Hex Hrev.
  destruct (run_txs_file st txs owner (_cidHash keccak256 cid)) as [_ H].
  destruct (H Hex) as (_ & _ & Hsame). specialize (Hsame Hrev).
  split; [exact Hsame|].
  intros now grantee. unfold isAccessActive. rewrite Hsame, Hex, Hrev. reflexivity.
Qed.

(** X2. Only the owner writes a file record: transactions sent by other
    accounts leave every record of [owner] as it was. *)
Theorem only_owner_writes_file
    (st : Storage) (txs : list tx) (owner : address) (cid : string) :
  Forall (fun t => tx_sender t <> owner) txs ->
  getFile keccak256 (run_txs st txs) owner cid = getFile keccak256 st owner cid.
Proof.
  intros Hall. unfold getFile.
  destruct (run_txs_file st txs owner (_cidHash keccak256 cid)) as [H _].
  exact (H Hall).
Qed.

(** X3. Only the owner grants and revokes access to a file: transactions
    whose senders' file keys all differ from the file key of (owner, cid)
    leave the grant of every grantee, and whether it is active, as they
    were.  (For a collision-free [keccak256] these are the transactions not
    sent by [owner], see [fileKey_collision_free].) *)
Theorem only_owner_writes_grants
    (st : Storage) (txs : list tx) (owner : address) (cid : string)
    (grantee : address) :
  Forall (fun t => forall h, _fileKey keccak256 (tx_sender t) h
                             <> _fileKey keccak256 owner (_cidHash keccak256 cid)) txs ->
  getAccess keccak256 (run_txs st txs) owner cid grantee
  = getAccess keccak256 st owner cid grantee
  /\ forall now, isAccessActive keccak256 (run_txs st txs) now owner cid grantee
                 = isAccessActive keccak256 st now owner cid grantee.
Proof.
  intros Hall.
  assert (Hacc : getAccess keccak256 (run_txs st txs) owner cid grantee
                 = getAccess keccak256 st owner cid grantee).
  { unfold getAccess. now apply run_txs_access. }
  split; [exact Hacc|]. intros now.
  assert (Hfile : uploads_at (run_txs st txs) owner (_cidHash keccak256 cid)
                  = uploads_at st owner (_cidHash keccak256 cid)).
  { destruct (run_txs_file st txs owner (_cidHash keccak256 cid)) as [H _].
    apply H. eapply Forall_impl; [exact Hall|].
    intros t Ht E. apply (Ht (_cidHash keccak256 cid)). now rewrite E. }
  unfold isAccessActive. unfold getAccess in Hacc. now rewrite Hfile, Hacc.
Qed.

(** X4. A registration is never undone: a file record that exists still
    exists, with the same cid, after any transactions, and registering that
    cid again from the same account reverts. *)
Theorem registration_is_permanent
    (st : Storage) (txs : list tx) (owner : address) (cid : string)
    (now : uint256) (key : bytes) :
  file_exists (getFile keccak256 st owner cid) = true ->
  cid <> "" -> key <> "" ->
  let st' := run_txs st txs in
  file_exists (getFile keccak256 st' owner cid) = true
  /\ file_cid (getFile keccak256 st' owner cid)
     = file_cid (getFile keccak256 st owner cid)
  /\ uploadFile keccak256 st' owner now cid key = Reverted "ALREADY_EXISTS".
Proof.
  intros Hex Hc Hk st'. subst st'. unfold getFile in *.
  destruct (run_txs_file st txs owner (_cidHash keccak256 cid)) as [_ H].
  destruct (H Hex) as (Hex' & Hcid & _).
  split; [exact Hex'|]. split; [exact Hcid|].
  unfold uploadFile. rewrite (length_pos_true cid Hc), (length_pos_true key Hk).
  cbn [negb]. now rewrite Hex'.
Qed.

(** Every record a transaction writes is well formed. *)
Definition wf_file (h : bytes32) (r : FileRecord) : Prop :=
  if file_exists r
  then file_cid r <> "" /\ file_encryptedKey r <> "" /\ _cidHash keccak256 (file_cid r) = h
  else r = zeroFileRecord.

Definition wf_access (grantee : address) (a : AccessRecord) : Prop :=
  if acc_exists a
  then acc_encryptedKeyForGrantee a <> "" /\ (acc_start a < acc_end a)%N
       /\ grantee <> 0%N
  else a = zeroAccessRecord.

Definition wf_storage (st : Storage) : Prop :=
  (forall owner h, wf_file h (uploads_at st owner h))
  /\ (forall fk grantee, wf_access grantee (access_at st fk grantee)).

Lemma length_pos_inv (s : string) : (0 <? String.length s)%nat = true -> s <> "".
Proof. destruct s; [discriminate|congruence]. Qed.

Lemma apply_tx_wf (st : Storage) (t : tx) : wf_storage st -> wf_storage (apply_tx st t).
Proof.
  intros [Hf Ha]. unfold apply_tx, execute.
  destruct t as [sender now c]; cbn [tx_sender tx_time tx_call].
  destruct c as [cid key|cid key|cid|g cid key s e|g cid];
    unfold uploadFile, updateEncryptedKey, revokeFile, grantAccess, revokeAccess;
    repeat match goal with
           | |- context [if ?b then _ else _] => destruct b eqn:?
           end;
    try (split; assumption);
    rewrite ?negb_true_iff, ?negb_false_iff in *;
    split; intros x y; unfold uploads_at, access_at; cbn [uploads access];
    try apply Hf; try apply Ha.
  - destruct (decide ((sender, _cidHash keccak256 cid) = (x, y))) as [[= <- <-]|Hne];
      [|rewrite lookup_insert_ne by exact Hne; apply Hf].
    rewrite lookup_insert_eq. cbn. auto using length_pos_inv.
  - destruct (decide ((sender, _cidHash keccak256 cid) = (x, y))) as [[= <- <-]|Hne];
      [|rewrite lookup_insert_ne by exact Hne; apply Hf].
    rewrite lookup_insert_eq. specialize (Hf sender (_cidHash keccak256 cid)).
    unfold wf_file, uploads_at in *. cbn.
    destruct (file_exists (default zeroFileRecord _)); [|discriminate].
    destruct Hf as (? & ? & ?). auto using length_pos_inv.
  - destruct (decide ((sender, _cidHash keccak256 cid) = (x, y))) as [[= <- <-]|Hne];
      [|rewrite lookup_insert_ne by exact Hne; apply Hf].
    rewrite lookup_insert_eq. specialize (Hf sender (_cidHash keccak256 cid)).
    unfold wf_file, uploads_at in *. cbn.
    destruct (file_exists (default zeroFileRecord _)); [|discriminate].
    exact Hf.
  - destruct (decide ((_fileKey keccak256 sender (_cidHash keccak256 cid), g) = (x, y)))
      as [[= <- <-]|Hne];
      [|rewrite lookup_insert_ne by exact Hne; apply Ha].
    rewrite lookup_insert_eq. cbn.
    repeat split; [auto using length_pos_inv|now apply N.ltb_lt|now apply N.eqb_neq].
  - destruct (decide ((_fileKey keccak256 sender (_cidHash keccak256 cid), g) = (x, y)))
      as [[= <- <-]|Hne];
      [|rewrite lookup_insert_ne by exact Hne; apply Ha].
    rewrite lookup_insert_eq.
    specialize (Ha (_fileKey keccak256 sender (_cidHash keccak256 cid)) g).
    unfold wf_access, access_at in *. cbn.
    destruct (acc_exists (default zeroAccessRecord _)); [|discriminate].
    exact Ha.
Qed.

(** X5. In every state the contract can reach from its deployment, a file
    record that exists has a non-empty cid and a non-empty key and sits in
    the slot of its cid's hash; a grant that exists has a non-empty key, a
    window with [start < end] and a non-zero grantee; every other slot
    reads as the zero record. *)
Theorem reachable_records_well_formed (txs : list tx) :
  wf_storage (run_txs emptyStorage txs).
Proof.
  assert (H : forall st, wf_storage st -> wf_storage (run_txs st txs)).
  { induction txs as [|t txs IH]; intros st Hst; [exact Hst|].
    apply IH, apply_tx_wf, Hst. }
  apply H. split; intros; unfold wf_file, wf_access, uploads_at, access_at; cbn;
    rewrite lookup_empty; reflexivity.
Qed.

End History.

Lemma length_append (a b : string) :
  String.length (a +:+ b) = (String.length a + String.length b)%nat.
Proof.
  induction a as [|c a IH]; [reflexivity|].
  change (String c a +:+ b) with (String c (a +:+ b)). cbn [String.length].
  now rewrite IH.
Qed.

(** The packed encoding of an address determines it. *)
Lemma be_bytes_length (len : nat) (x : N) : String.length (be_bytes len x) = len.
Proof.
  revert x. induction len as [|l IH]; intros x; [reflexivity|].
  cbn [be_bytes]. rewrite length_append, IH. cbn. lia.
Qed.

Lemma append_inj_length (a b c d : string) :
  String.length a = String.length b -> a +:+ c = b +:+ d -> a = b /\ c = d.
Proof.
  revert b. induction a as [|x a IH]; intros [|y b] Hl E; cbn in *; try discriminate.
  - auto.
  - injection E as -> E. destruct (IH b) as [-> ->]; auto.
Qed.

Lemma be_bytes_inj (len : nat) (x y : N) :
  (x < 256 ^ N.of_nat len)%N -> (y < 256 ^ N.of_nat len)%N ->
  be_bytes len x = be_bytes len y -> x = y.
Proof.
  revert x y. induction len as [|l IH]; intros x y Hx Hy E.
  - cbn in Hx, Hy. lia.
  - cbn [be_bytes] in E.
    apply append_inj_length in E as [E1 E2];
      [|now rewrite !be_bytes_length].
    rewrite Nat2N.inj_succ, N.pow_succ_r' in Hx, Hy.
    apply IH in E1;
      [|apply N.Div0.div_lt_upper_bound; lia|apply N.Div0.div_lt_upper_bound; lia].
    injection E2 as E2.
    apply (f_equal N_of_ascii) in E2.
    rewrite !N_ascii_embedding in E2 by (apply N.mod_lt; lia).
    rewrite (N.div_mod x 256), (N.div_mod y 256) by lia. congruence.
Qed.

(** For a hash without collisions, the file keys of two accounts differ. *)
Lemma fileKey_collision_free (keccak256 : string -> bytes32)
    (sender owner : address) (h h' : bytes32) :
  (forall a b, keccak256 a = keccak256 b -> a = b) ->
  (sender < 2 ^ 160)%N -> (owner < 2 ^ 160)%N -> sender <> owner ->
  _fileKey keccak256 sender h <> _fileKey keccak256 owner h'.
Proof.
  intros Hinj Hs Ho Hne E. apply Hinj in E.
  apply append_inj_length in E as [E _]; [|now rewrite !be_bytes_length].
  apply be_bytes_inj in E; [congruence| |];
    change (256 ^ N.of_nat 20)%N with (2 ^ 160)%N; assumption.
Qed.

(** Histories used below.  In the first the file of owner [1] is revoked;
    then the owner tries to register it again, to replace its key and to
    grant it, and account [3] tries to revoke it.  In the second, accounts
    [2] and [3] send transactions that name the cid of owner [1]. *)
Definition demo_file_revoked : Storage :=
  after (revokeFile id demo_granted 1%N 30%N "QmFile").

Definition demo_txs_owner : list tx :=
  [ mkTx 1%N 40%N (UploadFile "QmFile" "key2");
    mkTx 1%N 41%N (UpdateEncryptedKey "QmFile" "key3");
    mkTx 1%N 42%N (GrantAccess 2%N "QmFile" "granteekey2" 0%N 1000%N);
    mkTx 3%N 43%N (RevokeFile "QmFile") ].

Definition demo_txs_others : list tx :=
  [ mkTx 3%N 40%N (UploadFile "QmFile" "key3");
    mkTx 3%N 41%N (GrantAccess 2%N "QmFile" "othergrant" 0%N 1000%N);
    mkTx 3%N 42%N (RevokeAccess 2%N "QmFile");
    mkTx 2%N 43%N (RevokeAccess 2%N "QmFile");
    mkTx 3%N 44%N (RevokeFile "QmFile");
    mkTx 2%N 45%N (UpdateEncryptedKey "QmFile" "key2") ].

Lemma revoked_file_is_frozen_witness :
  getFile id (run_txs id demo_file_revoked demo_txs_owner) 1%N "QmFile"
  = getFile id demo_file_revoked 1%N "QmFile"
  /\ forall now grantee,
       isAccessActive id (run_txs id demo_file_revoked demo_txs_owner) now 1%N "QmFile"
         grantee = false.
Proof.
  apply (revoked_file_is_frozen id demo_file_revoked demo_txs_owner 1%N "QmFile");
    vm_compute; reflexivity.
Defined.

Lemma only_owner_writes_file_witness :
  getFile id (run_txs id demo_granted demo_txs_others) 1%N "QmFile"
  = getFile id demo_granted 1%N "QmFile".
Proof.
  apply (only_owner_writes_file id demo_granted demo_txs_others 1%N "QmFile").
  repeat constructor; cbn; discriminate.
Defined.

Lemma only_owner_writes_grants_witness :
  getAccess id (run_txs id demo_granted demo_txs_others) 1%N "QmFile" 2%N
  = getAccess id demo_granted 1%N "QmFile" 2%N
  /\ forall now,
       isAccessActive id (run_txs id demo_granted demo_txs_others) now 1%N "QmFile" 2%N
       = isAccessActive id demo_granted now 1%N "QmFile" 2%N.
Proof.
  apply (only_owner_writes_grants id demo_granted demo_txs_others 1%N "QmFile" 2%N).
  repeat constructor; cbn [tx_sender]; intros h;
    (apply fileKey_collision_free; [auto|reflexivity|reflexivity|discriminate]).
Defined.

Lemma registration_is_permanent_witness :
  let st' := run_txs id demo_granted demo_txs_owner in
  file_exists (getFile id st' 1%N "QmFile") = true
  /\ file_cid (getFile id st' 1%N "QmFile") = file_cid (getFile id demo_granted 1%N "QmFile")
  /\ uploadFile id st' 1%N 50%N "QmFile" "key4" = Reverted "ALREADY_EXISTS".
Proof.
  apply (registration_is_permanent id demo_granted demo_txs_owner 1%N "QmFile" 50%N "key4");
    first [ vm_compute; reflexivity | discriminate ].
Defined.

(** In the second history the grant that owner [1] made is untouched: the
    transactions of [3] wrote the slots of its own file. *)
Example others_cannot_touch_grant :
  getAccess id (run_txs id demo_granted demo_txs_others) 1%N "QmFile" 2%N
  = mkAccessRecord "granteekey" 100%N 200%N false true
  /\ getAccess id (run_txs id demo_granted demo_txs_others) 3%N "QmFile" 2%N
     = mkAccessRecord "othergrant" 0%N 1000%N true true.
Proof. vm_compute. split; reflexivity. Qed.

End Registry.

(** ** ChunkCipher: [cryptoService.ts] *)

Module ChunkCipher.

(** The two ways [decryptChunk] fails: its own length guard, and the
    rejection of [crypto.subtle.decrypt] (a DOMException named
    OperationError, raised when the tag does not verify). *)
Inductive cipher_error :=
| MalformedChunk (msg : string)
| OperationError.

Inductive result (A : Type) :=
| Ok (a : A)
| Err (e : cipher_error).
Arguments Ok {A} a.
Arguments Err {A} e.

(** Bit [b] of one byte, flipped. *)
Definition flip_bit_in_byte (b : nat) (x : byte) : byte :=
  default x (Byte.of_N (N.lxor (Byte.to_N x) (N.shiftl 1 (N.of_nat (b mod 8))))).

(** Bit [n] of a buffer, flipped: bit [n mod 8] of byte [n / 8]. *)
Definition flip_bit (n : nat) (buf : list byte) : list byte :=
  alter (flip_bit_in_byte (n mod 8)) (n / 8) buf.

Record EncryptedChunk := mkEncryptedChunk {
  packed : list byte;
  iv : list byte
}.

Section AesGcm.

(** The Web Crypto primitives, for the algorithm [{ name: "AES-GCM", iv,
    additionalData }] with the default 128-bit tag:
    [subtle_encrypt key iv aad data] is [crypto.subtle.encrypt] and
    [subtle_decrypt key iv aad ciphertext] is [crypto.subtle.decrypt], [None]
    when the promise rejects. *)
Variable CryptoKey : Type.
Variable subtle_encrypt : CryptoKey -> list byte -> list byte -> list byte -> list byte.
Variable subtle_decrypt :
  CryptoKey -> list byte -> list byte -> list byte -> option (list byte).

(** [new TextEncoder().encode(chunkIndex.toString())] *)
Definition additionalData (chunkIndex : nat) : list byte :=
  TextEncoder_encode (toString chunkIndex).

(** [encryptChunk].  [random12] is the value of
    [crypto.getRandomValues(new Uint8Array(12))]; the packed buffer has the
    iv at offset 0 and the ciphertext at offset 12. *)
Definition encryptChunk (random12 : list byte) (key : CryptoKey)
    (data : list byte) (chunkIndex : nat) : EncryptedChunk :=
  let iv := random12 in
  let aad := additionalData chunkIndex in
  let ciphertext := subtle_encrypt key iv aad data in
  mkEncryptedChunk (iv ++ ciphertext) iv.

(** [decryptChunk] *)
Definition decryptChunk (key : CryptoKey) (packedData : list byte)
    (chunkIndex : nat) : result (list byte) :=
  let packed := packedData in
  if (length packed <? 13)%nat then Err (MalformedChunk "Packed data too small")
  else
    let iv := take 12 packed in
    let ciphertext := drop 12 packed in
    let aad := additionalData chunkIndex in
    match subtle_decrypt key iv aad ciphertext with
    | Some plaintext => Ok plaintext
    | None => Err OperationError
    end.

End AesGcm.

(** *** A reference cipher

    A transparent stand-in for AES-GCM with the interface of the two
    primitives.  It keeps nothing secret; it exists to show that the
    assumptions made on the primitives below can be met together.  The
    ciphertext is a framed copy of (key, iv, aad, data) written twice. *)

(** self-delimiting frame of a byte string *)
Definition frame (l : list byte) : list byte :=
  flat_map (fun b => [x01; b]) l ++ [x00].

Definition ref_body (key iv aad data : list byte) : list byte :=
  frame key ++ frame iv ++ frame aad ++ data.

Definition ref_encrypt (key iv aad data : list byte) : list byte :=
  ref_body key iv aad data ++ ref_body key iv aad data.

Definition ref_decrypt (key iv aad ciphertext : list byte) : option (list byte) :=
  let header := frame key ++ frame iv ++ frame aad in
  let data := drop (length header) (take (Nat.div2 (length ciphertext)) ciphertext) in
  if decide (ciphertext = ref_encrypt key iv aad data) then Some data else None.

(** A second stand-in with the ciphertext length of AES-GCM: the data
    followed by a 16-byte tag (here constant). *)
Definition tag16 : list byte := repeat x00 16.

Definition plain_encrypt (key iv aad data : list byte) : list byte := data ++ tag16.

Definition plain_decrypt (key iv aad ciphertext : list byte) : option (list byte) :=
  let n := (length ciphertext - 16)%nat in
  if decide (ciphertext = take n ciphertext ++ tag16) then Some (take n ciphertext)
  else None.

(** *** Lemmas on the helpers *)

Lemma flip_bit_in_byte_neq (b : nat) (x : byte) : flip_bit_in_byte b x <> x.
Proof.
  unfold flip_bit_in_byte.
  assert (H : (b mod 8 < 8)%nat) by (apply Nat.mod_upper_bound; lia).
  destruct (b mod 8)%nat as [|[|[|[|[|[|[|[|m]]]]]]]]; [..|lia];
    destruct x; vm_compute; discriminate.
Qed.

Lemma flip_bit_length (n : nat) (buf : list byte) :
  length (flip_bit n buf) = length buf.
Proof. unfold flip_bit. apply length_alter. Qed.

Lemma flip_bit_neq (n : nat) (buf : list byte) :
  (n / 8 < length buf)%nat -> flip_bit n buf <> buf.
Proof.
  unfold flip_bit. intros Hlt E.
  destruct (lookup_lt_is_Some_2 buf (n / 8)%nat Hlt) as [x Hx].
  assert (H := list_lookup_alter_eq (flip_bit_in_byte (n mod 8)) buf (n / 8)%nat).
  rewrite E, Hx in H. cbn in H. injection H as H.
  symmetry in H. exact (flip_bit_in_byte_neq _ _ H).
Qed.

(** A flip below bit [8 * length l] lands in the first part of [l ++ k],
    any other one in the second part. *)
Lemma flip_bit_app (n : nat) (l k : list byte) :
  flip_bit n (l ++ k) =
  if (n / 8 <? length l)%nat then flip_bit n l ++ k
  else l ++ flip_bit (n - 8 * length l) k.
Proof.
  unfold flip_bit.
  destruct (Nat.ltb_spec (n / 8) (length l)) as [Hlt|Hge].
  - now rewrite alter_app_l.
  - rewrite alter_app_r_alt by lia.
    assert (Hn : (8 * length l <= n)%nat).
    { pose proof (Nat.div_mod_eq n 8). lia. }
    replace n with ((n - 8 * length l) + length l * 8)%nat at 1 2 by lia.
    rewrite Nat.div_add by lia.
    rewrite Nat.Div0.mod_add.
    replace ((n - 8 * length l) / 8 + length l - length l)%nat
      with ((n - 8 * length l) / 8)%nat by lia.
    reflexivity.
Qed.

Lemma frame_prefix_free (l l' r r' : list byte) :
  frame l ++ r = frame l' ++ r' -> l = l' /\ r = r'.
Proof.
  unfold frame. revert l'.
  induction l as [|a l IH]; intros [|a' l'] E; cbn in E.
  - injection E as E. auto.
  - discriminate.
  - discriminate.
  - injection E as Ea E. subst a'.
    destruct (IH l' E) as [-> ->]. auto.
Qed.

Lemma ref_body_inj (k iv aad p k' iv' aad' p' : list byte) :
  ref_body k iv aad p = ref_body k' iv' aad' p' ->
  k = k' /\ iv = iv' /\ aad = aad' /\ p = p'.
Proof.
  unfold ref_body. intros E.
  apply frame_prefix_free in E as [-> E].
  apply frame_prefix_free in E as [-> E].
  apply frame_prefix_free in E as [-> E].
  auto.
Qed.

Lemma double_inj (s s' : list byte) : s ++ s = s' ++ s' -> s = s'.
Proof.
  intros E. apply app_inj_1 in E; [tauto|].
  apply (f_equal length) in E. rewrite !length_app in E. lia.
Qed.

Lemma ref_encrypt_inj (k iv aad p k' iv' aad' p' : list byte) :
  ref_encrypt k iv aad p = ref_encrypt k' iv' aad' p' ->
  k = k' /\ iv = iv' /\ aad = aad' /\ p = p'.
Proof. intros E. apply double_inj in E. now apply ref_body_inj. Qed.

Lemma ref_decrypt_sound (k iv aad c p : list byte) :
  ref_decrypt k iv aad c = Some p -> c = ref_encrypt k iv aad p.
Proof.
  unfold ref_decrypt. case_decide as E; [|discriminate].
  intros [= <-]. exact E.
Qed.

Lemma take_half_double (s : list byte) :
  take (Nat.div2 (length (s ++ s))) (s ++ s) = s.
Proof.
  rewrite length_app.
  replace (length s + length s)%nat with (2 * length s)%nat by lia.
  now rewrite Nat.div2_double, take_app_length.
Qed.

Lemma ref_correct (k iv aad p : list byte) :
  ref_decrypt k iv aad (ref_encrypt k iv aad p) = Some p.
Proof.
  unfold ref_decrypt.
  assert (D : drop (length (frame k ++ frame iv ++ frame aad))
                (take (Nat.div2 (length (ref_encrypt k iv aad p)))
                   (ref_encrypt k iv aad p)) = p).
  { unfold ref_encrypt. rewrite take_half_double.
    unfold ref_body.
    replace (frame k ++ frame iv ++ frame aad ++ p)
      with ((frame k ++ frame iv ++ frame aad) ++ p)
      by now rewrite <- !app_assoc.
    apply drop_app_length. }
  rewrite D. case_decide; [reflexivity|congruence].
Qed.

Lemma ref_nonempty (k iv aad p : list byte) : ref_encrypt k iv aad p <> [].
Proof.
  unfold ref_encrypt, ref_body, frame. intros E.
  apply (f_equal length) in E. rewrite !length_app in E. cbn in E. lia.
Qed.

Lemma ref_rejects_iv (k iv iv' aad p : list byte) :
  iv' <> iv -> ref_decrypt k iv' aad (ref_encrypt k iv aad p) = None.
Proof.
  intros Hne. destruct (ref_decrypt _ _ _ _) as [q|] eqn:E; [|reflexivity].
  apply ref_decrypt_sound, ref_encrypt_inj in E.
  destruct E as (_ & E1 & E2 & _). congruence.
Qed.

Lemma ref_rejects_aad (k iv aad aad' p : list byte) :
  aad' <> aad -> ref_decrypt k iv aad' (ref_encrypt k iv aad p) = None.
Proof.
  intros Hne. destruct (ref_decrypt _ _ _ _) as [q|] eqn:E; [|reflexivity].
  apply ref_decrypt_sound, ref_encrypt_inj in E.
  destruct E as (_ & E1 & E2 & _). congruence.
Qed.

Lemma ref_rejects_flip (k iv aad p : list byte) (n : nat) :
  (n / 8 < length (ref_encrypt k iv aad p))%nat ->
  ref_decrypt k iv aad (flip_bit n (ref_encrypt k iv aad p)) = None.
Proof.
  intros Hn. destruct (ref_decrypt _ _ _ _) as [q|] eqn:E; [|reflexivity].
  exfalso. apply ref_decrypt_sound in E.
  unfold ref_encrypt in *.
  set (s := ref_body k iv aad p) in *. set (s' := ref_body k iv aad q) in *.
  assert (Hlen : length s = length s').
  { apply (f_equal length) in E.
    rewrite flip_bit_length, !length_app in E. lia. }
  rewrite flip_bit_app in E.
  destruct (Nat.ltb_spec (n / 8) (length s)) as [Hlt|Hge].
  - apply app_inj_1 in E as [E1 E2]; [|now rewrite flip_bit_length].
    subst s'. rewrite <- E2 in E1. exact (flip_bit_neq n s Hlt E1).
  - apply app_inj_1 in E as [E1 E2]; [|exact Hlen].
    rewrite <- E1 in E2.
    refine (flip_bit_neq (n - 8 * length s) s _ E2).
    rewrite length_app in Hn.
    pose proof (Nat.div_mod_eq n 8).
    pose proof (Nat.div_mod_eq (n - 8 * length s) 8).
    pose proof (Nat.mod_upper_bound n 8).
    pose proof (Nat.mod_upper_bound (n - 8 * length s) 8).
    lia.
Qed.

Lemma plain_correct (k iv aad p : list byte) :
  plain_decrypt k iv aad (plain_encrypt k iv aad p) = Some p.
Proof.
  unfold plain_decrypt, plain_encrypt.
  rewrite length_app. replace (length p + length tag16 - 16)%nat with (length p)
    by (cbn; lia).
  rewrite take_app_length. case_decide; [reflexivity|congruence].
Qed.

Lemma plain_length (k iv aad p : list byte) :
  length (plain_encrypt k iv aad p) = (length p + 16)%nat.
Proof. unfold plain_encrypt. now rewrite length_app. Qed.

(** *** Properties of [encryptChunk] and [decryptChunk] *)

Section Properties.

Context {CryptoKey : Type}.
Variable subtle_encrypt : CryptoKey -> list byte -> list byte -> list byte -> list byte.
Variable subtle_decrypt :
  CryptoKey -> list byte -> list byte -> list byte -> option (list byte).

(** Assumptions on AES-GCM.  Decryption inverts encryption under the same
    key, iv and additional data, and the ciphertext is the data followed by
    the 16-byte tag. *)
Hypothesis gcm_correct : forall key iv aad data,
  subtle_decrypt key iv aad (subtle_encrypt key iv aad data) = Some data.
Hypothesis gcm_tag_length : forall key iv aad data,
  length (subtle_encrypt key iv aad data) = (length data + 16)%nat.

(** Authenticity of AES-GCM, in the idealised form used by symbolic models
    of cryptography: a ciphertext is rejected under another iv, under other
    additional data, and after a single bit flip. *)
Hypothesis gcm_nonempty : forall key iv aad data,
  subtle_encrypt key iv aad data <> [].
Hypothesis gcm_rejects_iv : forall key iv iv' aad data,
  iv' <> iv -> subtle_decrypt key iv' aad (subtle_encrypt key iv aad data) = None.
Hypothesis gcm_rejects_aad : forall key iv aad aad' data,
  aad' <> aad -> subtle_decrypt key iv aad' (subtle_encrypt key iv aad data) = None.
Hypothesis gcm_rejects_flip : forall key iv aad data n,
  (n / 8 < length (subtle_encrypt key iv aad data))%nat ->
  subtle_decrypt key iv aad (flip_bit n (subtle_encrypt key iv aad data)) = None.

Lemma additionalData_inj (i j : nat) : additionalData i = additionalData j -> i = j.
Proof. intros E. now apply toString_inj, TextEncoder_encode_inj. Qed.

Lemma unpack_iv (iv ct : list byte) : length iv = 12%nat -> take 12 (iv ++ ct) = iv.
Proof. intros <-. apply take_app_length. Qed.

Lemma unpack_ciphertext (iv ct : list byte) :
  length iv = 12%nat -> drop 12 (iv ++ ct) = ct.
Proof. intros <-. apply drop_app_length. Qed.

(** C2. Decrypting the packed output of [encryptChunk] with the same key and
    the same index returns the plaintext, for every key, every plaintext (of
    any size, so in particular up to the chunk size) and every index. *)
Theorem encrypt_decrypt_roundtrip
    (key : CryptoKey) (random12 data : list byte) (chunkIndex : nat) :
  length random12 = 12%nat ->
  decryptChunk CryptoKey subtle_decrypt key
    (packed (encryptChunk CryptoKey subtle_encrypt random12 key data chunkIndex))
    chunkIndex
  = Ok data.
Proof.
  intros Hiv. unfold decryptChunk, encryptChunk. cbn [packed].
  rewrite length_app, gcm_tag_length, Hiv.
  destruct (Nat.ltb_spec (12 + (length data + 16)) 13) as [Hlt|_]; [lia|].
  rewrite (unpack_iv _ _ Hiv), (unpack_ciphertext _ _ Hiv).
  now rewrite gcm_correct.
Qed.


(** The length guard of [decryptChunk] is at 13 bytes: from there on the
    outcome is the verdict of the cipher, never "Packed data too small". *)
Lemma decryptChunk_guard_threshold
    (key : CryptoKey) (packedData : list byte) (chunkIndex : nat) (msg : string) :
  (13 <= length packedData)%nat ->
  decryptChunk CryptoKey subtle_decrypt key packedData chunkIndex
  <> Err (MalformedChunk msg).
Proof.
  intros H. unfold decryptChunk.
  destruct (Nat.ltb_spec (length packedData) 13) as [Hlt|_]; [lia|].
  destruct (subtle_decrypt _ _ _ _); discriminate.
Qed.

(** C7, amended.  A packed input shorter than 13 bytes (the 12-byte nonce
    plus one byte) fails with "Packed data too small"; the outcome does not
    depend on the decryption primitive, which is not consulted. *)
Theorem decryptChunk_too_small
    (key : CryptoKey) (packedData : list byte) (chunkIndex : nat) :
  (length packedData < 13)%nat ->
  decryptChunk CryptoKey subtle_decrypt key packedData chunkIndex
  = Err (MalformedChunk "Packed data too small").
Proof.
  intros H. unfold decryptChunk.
  destruct (Nat.ltb_spec (length packedData) 13) as [_|Hge]; [reflexivity|lia].
Qed.

End Properties.

Lemma encrypt_decrypt_roundtrip_witness :
  decryptChunk (list byte) plain_decrypt [x2a]
    (packed (encryptChunk (list byte) plain_encrypt (repeat x07 12) [x2a]
               [x68; x69] 3))
    3
  = Ok [x68; x69].
Proof.
  apply (encrypt_decrypt_roundtrip plain_encrypt plain_decrypt plain_correct
           plain_length [x2a] (repeat x07 12) [x68; x69] 3).
  reflexivity.
Defined.


(** C7 as stated does not hold: a 13-byte input is shorter than nonce plus
    tag (28 bytes), yet it passes the guard and is handed to the cipher, so
    the failure is the cipher's rejection, not "Packed data too small". *)
Lemma decryptChunk_13_bytes_reach_cipher :
  (length (repeat x00 13) < 12 + 16)%nat
  /\ decryptChunk (list byte) plain_decrypt [x2a] (repeat x00 13) 0
     = Err OperationError.
Proof. split; [cbn; lia | vm_compute; reflexivity]. Qed.

Lemma decryptChunk_too_small_witness :
  decryptChunk (list byte) plain_decrypt [x2a] (repeat x00 12) 0
  = Err (MalformedChunk "Packed data too small").
Proof.
  apply (decryptChunk_too_small plain_decrypt [x2a] (repeat x00 12) 0).
  cbn. lia.
Defined.

(** *** Keys and their base64 form *)

(** An AES-GCM [CryptoKey]: its raw bytes and whether it may be exported. *)
Record AesKey := mkAesKey { key_raw : list byte; key_extractable : bool }.

Inductive key_error :=
| InvalidArrayBuffer          (* "Invalid ArrayBuffer: must be non-empty" *)
| InvalidBase64Input          (* "Invalid base64 input: must be a non-empty string" *)
| Base64DecodeFailed          (* "Invalid base64 string: failed to decode" *)
| NotExtractable              (* "Key is not extractable. Use generateExtractableAESKey() if export is needed." *)
| DataError.                  (* crypto.subtle.importKey rejects the length of the key *)

(** [crypto.subtle.generateKey] with [extractable] false and true; [random]
    is the key material it draws. *)
Definition generateAESKey (random : list byte) : AesKey := mkAesKey random false.
Definition generateExtractableAESKey (random : list byte) : AesKey := mkAesKey random true.

(** The key lengths of AES, in bytes. *)
Definition aes_key_length (n : nat) : bool :=
  (n =? 16)%nat || (n =? 24)%nat || (n =? 32)%nat.

(** [String.fromCharCode.apply(null, bytes)]: the binary string of the bytes *)
Definition fromCharCode (bytes : list byte) : string := string_of_list_byte bytes.

(** [const chunkSize = 0x8000] *)
Definition chunkSize : nat := (2 ^ 15)%nat.

(** The loop [for (let i = 0; i < bytes.length; i += chunkSize)] on the
    bytes from [i] on; [fuel] bounds the number of iterations. *)
Fixpoint binary_from (fuel : nat) (bytes : list byte) : string :=
  match fuel with
  | O => ""
  | S fuel' =>
      match bytes with
      | [] => ""
      | _ => fromCharCode (take chunkSize bytes) +:+ binary_from fuel' (drop chunkSize bytes)
      end
  end.

Section Base64.

(** [btoa] on a binary string and [atob], [None] when it throws. *)
Variable btoa : string -> string.
Variable atob : string -> option string.

(** [arrayBufferToBase64] *)
Definition arrayBufferToBase64 (buffer : list byte) : key_error + string :=
  match buffer with
  | [] => inl InvalidArrayBuffer
  | _ => inr (btoa (binary_from (length buffer) buffer))
  end.

(** [base64ToArrayBuffer] *)
Definition base64ToArrayBuffer (base64 : string) : key_error + list byte :=
  if String.eqb base64 "" then inl InvalidBase64Input
  else
    match atob base64 with
    | Some binary => inr (list_byte_of_string binary)
    | None => inl Base64DecodeFailed
    end.

(** [exportKeyToBase64]: [crypto.subtle.exportKey] rejects a key that is not
    extractable with an InvalidAccessError. *)
Definition exportKeyToBase64 (key : AesKey) : key_error + string :=
  if key_extractable key then arrayBufferToBase64 (key_raw key) else inl NotExtractable.

(** [importKeyFromBase64]: the key is imported as not extractable. *)
Definition importKeyFromBase64 (base64 : string) : key_error + AesKey :=
  if String.eqb base64 "" then inl InvalidBase64Input
  else
    match base64ToArrayBuffer base64 with
    | inl e => inl e
    | inr raw =>
        if aes_key_length (length raw) then inr (mkAesKey raw false) else inl DataError
    end.

Lemma fromCharCode_app (a b : list byte) :
  fromCharCode (a ++ b) = fromCharCode a +:+ fromCharCode b.
Proof.
  unfold fromCharCode. induction a as [|x a IH]; [reflexivity|].
  cbn [app string_of_list_byte List.map].
  change (String (ascii_of_byte x) (string_of_list_byte (a ++ b))
          = String (ascii_of_byte x) (string_of_list_byte a +:+ string_of_list_byte b)).
  now rewrite IH.
Qed.

(** Cutting the buffer in pieces of [chunkSize] bytes loses nothing. *)
Lemma binary_from_whole (fuel : nat) :
  forall bytes, (length bytes <= fuel)%nat -> binary_from fuel bytes = fromCharCode bytes.
Proof.
  assert (Hpos : (0 < chunkSize)%nat).
  { unfold chunkSize. apply Nat.neq_0_lt_0, Nat.pow_nonzero. discriminate. }
  induction fuel as [|fuel IH]; intros bytes Hlen.
  - destruct bytes; [reflexivity|cbn in Hlen; lia].
  - cbn [binary_from]. destruct bytes as [|b bytes]; [reflexivity|].
    rewrite IH.
    + rewrite <- fromCharCode_app. now rewrite take_drop.
    + rewrite length_drop. cbn [length] in *.
      generalize dependent chunkSize. intros. lia.
Qed.

(** The standard properties of the two builtins. *)
Hypothesis atob_btoa : forall binary, atob (btoa binary) = Some binary.
Hypothesis btoa_nonempty : forall binary, binary <> "" -> btoa binary <> "".

(** The helpers are inverse on a buffer that is not empty. *)
Lemma base64_of_buffer (buffer : list byte) :
  buffer <> [] ->
  arrayBufferToBase64 buffer = inr (btoa (fromCharCode buffer))
  /\ base64ToArrayBuffer (btoa (fromCharCode buffer)) = inr buffer.
Proof.
  intros Hne. split.
  - unfold arrayBufferToBase64. destruct buffer as [|b l] eqn:E; [congruence|].
    rewrite <- E. now rewrite binary_from_whole.
  - unfold base64ToArrayBuffer.
    assert (Hb : fromCharCode buffer <> "").
    { destruct buffer; [congruence|discriminate]. }
    apply btoa_nonempty, String.eqb_neq in Hb. rewrite Hb, atob_btoa.
    unfold fromCharCode. now rewrite list_byte_of_string_of_list_byte.
Qed.

(** X6. The base64 helpers are inverse to each other on every buffer that
    is not empty ([atob] being the inverse of [btoa]); the empty buffer and
    the empty string are refused. *)
Theorem base64_roundtrip (buffer : list byte) :
  buffer <> [] ->
  exists base64,
    arrayBufferToBase64 buffer = inr base64
    /\ base64ToArrayBuffer base64 = inr buffer
    /\ arrayBufferToBase64 [] = inl InvalidArrayBuffer
    /\ base64ToArrayBuffer "" = inl InvalidBase64Input.
Proof.
  intros Hne. destruct (base64_of_buffer buffer Hne) as [H1 H2].
  exists (btoa (fromCharCode buffer)). auto.
Qed.

(** X7. An exported key comes back with the same bytes, and only once.
    The base64 export of a key made by [generateExtractableAESKey] is
    imported by [importKeyFromBase64] as a key with the same raw bytes that
    is not extractable: exporting the imported key fails, as does exporting
    a key made by [generateAESKey]. *)
Theorem exported_key_imports_once (random : list byte) :
  length random = 32%nat ->
  exists base64 imported,
    exportKeyToBase64 (generateExtractableAESKey random) = inr base64
    /\ importKeyFromBase64 base64 = inr imported
    /\ key_raw imported = random
    /\ exportKeyToBase64 imported = inl NotExtractable
    /\ exportKeyToBase64 (generateAESKey random) = inl NotExtractable.
Proof.
  intros Hlen.
  assert (Hne : random <> []) by (intros ->; discriminate).
  destruct (base64_of_buffer random Hne) as [H1 H2].
  exists (btoa (fromCharCode random)), (mkAesKey random false).
  split; [exact H1|]. split; [|auto].
  unfold importKeyFromBase64. rewrite H2.
  assert (Hb : fromCharCode random <> "").
  { destruct random; [congruence|discriminate]. }
  apply btoa_nonempty, String.eqb_neq in Hb. rewrite Hb.
  now rewrite Hlen.
Qed.

End Base64.

Lemma base64_roundtrip_witness :
  exists base64,
    arrayBufferToBase64 id [x68; x69] = inr base64
    /\ base64ToArrayBuffer Some base64 = inr [x68; x69]
    /\ arrayBufferToBase64 id [] = inl InvalidArrayBuffer
    /\ base64ToArrayBuffer Some "" = inl InvalidBase64Input.
Proof.
  apply (base64_roundtrip id Some); [reflexivity|auto|discriminate].
Defined.

Lemma exported_key_imports_once_witness :
  exists base64 imported,
    exportKeyToBase64 id (generateExtractableAESKey (repeat x2a 32)) = inr base64
    /\ importKeyFromBase64 Some base64 = inr imported
    /\ key_raw imported = repeat x2a 32
    /\ exportKeyToBase64 id imported = inl NotExtractable
    /\ exportKeyToBase64 id (generateAESKey (repeat x2a 32)) = inl NotExtractable.
Proof.
  apply (exported_key_imports_once id Some); [reflexivity|auto|reflexivity].
Defined.

End ChunkCipher.

(** ** GatewayFetcher: [ipfsGateway.ts] *)

Module Gateway.

(** What [classifyError] reads of a thrown value: [error.name],
    [error.message] and the [status] that the fetcher attaches to the error
    it builds for a non-ok response. *)
Record js_error := mkError {
  err_name : string;
  err_message : string;
  err_status : option nat
}.

Record classification := mkClass {
  cls_type : string;
  cls_message : string;
  cls_retryable : bool
}.

(** [error?.message || String(error)]: for an [Error] with an empty message
    [String(error)] is its name. *)
Definition message_or_string (error : js_error) : string :=
  if decide (err_message error = "") then err_name error else err_message error.

Definition status_truthy (error : js_error) : bool :=
  match err_status error with
  | Some n => negb (n =? 0)%nat
  | None => false
  end.

(** [classifyError] *)
Definition classifyError (error : js_error) : classification :=
  let msg := toLowerCase (message_or_string error) in
  let name := err_name error in
  if includes "ssl" msg || includes "tls" msg || includes "certificate" msg
     || includes "err_ssl" msg || includes "SSL" name || includes "TLS" name
  then mkClass "TLS_ERROR"
         "TLS/SSL handshake failed. This may be due to gateway certificate issues, corporate proxy, or browser TLS version."
         true
  else if includes "network" msg || includes "failed to fetch" msg
          || includes "err_network" msg || String.eqb name "TypeError"
  then mkClass "NETWORK_ERROR"
         "Network request failed. Check your internet connection." true
  else if includes "timeout" msg || includes "aborted" msg
          || String.eqb name "AbortError"
  then mkClass "TIMEOUT"
         "Request timed out. The gateway may be slow or unreachable." true
  else if includes "cors" msg || includes "cross-origin" msg
          || String.eqb name "TypeError"
  then mkClass "CORS_ERROR"
         "CORS policy blocked the request. The gateway may not allow cross-origin requests."
         false
  else if status_truthy error || includes "status" msg
  then mkClass "HTTP_ERROR"
         ("HTTP error: " +:+
            (if status_truthy error
             then toString (default 0%nat (err_status error))
             else "unknown status"))
         (match err_status error with
          | Some n => (500 <=? n)%nat || (n =? 429)%nat
          | None => false
          end)
  else mkClass "UNKNOWN_ERROR" (message_or_string error) true.

(** White space in the sense of [\s] and [trim], among code units below 256. *)
Definition is_space (c : ascii) : bool :=
  let n := nat_of_ascii c in
  ((9 <=? n) && (n <=? 13) || (n =? 32) || (n =? 160))%nat.

Fixpoint string_filter (f : ascii -> bool) (s : string) : string :=
  match s with
  | EmptyString => EmptyString
  | String c s' => if f c then String c (string_filter f s') else string_filter f s'
  end.

(** [sanitizeCID]: [inl] is the message of the error it throws. *)
Definition sanitizeCID (cid : string) : string + string :=
  if decide (cid = "") then inl "Invalid CID: must be a non-empty string"
  else
    (* cid.trim().replace(/\s+/g, '') *)
    let sanitized := string_filter (fun c => negb (is_space c)) cid in
    let sanitized :=
      if startsWith "q" sanitized && (1 <? String.length sanitized)%nat
         && alnum_plus (slice_from 1 sanitized)
      then
        let withoutQ := slice_from 1 sanitized in
        if cid_pattern withoutQ then withoutQ else sanitized
      else sanitized in
    let sanitized :=
      if startsWith "0x" sanitized then slice_from 2 sanitized else sanitized in
    if negb (cid_pattern sanitized)
    then inl ("Invalid CID format: " +:+ cid +:+ " (sanitized: " +:+ sanitized
              +:+ "). CID must start with Qm, b, or B.")
    else inr sanitized.

Fixpoint drop_while (f : ascii -> bool) (s : string) : string :=
  match s with
  | EmptyString => EmptyString
  | String c s' => if f c then drop_while f s' else s
  end.

Fixpoint string_rev (s : string) : string :=
  match s with
  | EmptyString => EmptyString
  | String c s' => string_rev s' +:+ String c EmptyString
  end.

(** strip the characters satisfying [f] from both ends *)
Definition strip (f : ascii -> bool) (s : string) : string :=
  string_rev (drop_while f (string_rev (drop_while f s))).

(** [s.split('/')] *)
Fixpoint split_slash (s : string) : list string :=
  match s with
  | EmptyString => [EmptyString]
  | String c s' =>
      if Ascii.eqb c "/" then EmptyString :: split_slash s'
      else
        match split_slash s' with
        | [] => [String c EmptyString]
        | w :: ws => String c w :: ws
        end
  end.

Fixpoint join (sep : string) (l : list string) : string :=
  match l with
  | [] => ""
  | [x] => x
  | x :: rest => x +:+ sep +:+ join sep rest
  end.

(** [url.replace(/([^:])\/{2,}/g, '$1/')]: a run of two or more slashes that
    follows a character other than [:] collapses to one slash.  [skipping]
    is on while the rest of a matched run is being dropped. *)
Fixpoint collapse_slashes (skipping : bool) (s : string) : string :=
  match s with
  | EmptyString => EmptyString
  | String c rest =>
      if skipping && Ascii.eqb c "/" then collapse_slashes true rest
      else if negb (Ascii.eqb c ":") && startsWith "//" rest
      then String c (String "/" (collapse_slashes true rest))
      else String c (collapse_slashes false rest)
  end.

(** The outcome of one [fetch(url, ...)] as the fetcher observes it. *)
Record response := mkResponse {
  status : nat;
  statusText : string;
  text : string;                        (* response.text().catch(() => '') *)
  blob : js_error + list byte           (* response.blob(), [inl] if it rejects *)
}.

Inductive fetch_outcome :=
| Rejected (err : js_error)             (* fetch rejected, or aborted by the timeout *)
| Responded (r : response).

(** [response.ok] *)
Definition ok (r : response) : bool := ((200 <=? status r) && (status r <=? 299))%nat.

(** An entry of the [errors] array. *)
Record gateway_error := mkGatewayError {
  gw_url : string;
  gw_error : js_error;
  gw_classification : classification
}.

Inductive gateway_failure :=
| InvalidCID (msg : string)
| AllGatewaysFailed (cid : string) (errors : list gateway_error)
    (cause : option js_error).

(** One iteration of the loop over [urls]: either the blob, or the error
    pushed on [errors] together with whether the loop [break]s. *)
Inductive attempt_result :=
| Fetched (b : list byte)
| Failed (e : gateway_error) (stop : bool).

(** [new Error(`HTTP ${response.status}: ${response.statusText}`)] with its
    [status] attached. *)
Definition http_error (r : response) : js_error :=
  mkError "Error" ("HTTP " +:+ toString (status r) +:+ ": " +:+ statusText r)
    (Some (status r)).

Definition attempt (o : fetch_outcome) (url : string) : attempt_result :=
  match o with
  | Rejected err => Failed (mkGatewayError url err (classifyError err)) false
  | Responded r =>
      if negb (ok r) then
        let error := http_error r in
        let classification := classifyError error in
        Failed (mkGatewayError url error classification)
          (negb (cls_retryable classification)
           && (400 <=? status r)%nat && (status r <? 500)%nat)
      else
        match blob r with
        | inr b => Fetched b
        | inl err => Failed (mkGatewayError url err (classifyError err)) false
        end
  end.

Record loop_result := mkLoop {
  found : option (list byte * string);
  errors : list gateway_error;
  tried : list string
}.

Section Fetcher.

(** [encodeURIComponent], a builtin. *)
Variable encodeURIComponent : string -> string.

(** The network: the outcome of the [clock]-th request of the run, sent to
    [url].  A timeout is an outcome [Rejected] with an abort error. *)
Variable net : nat -> string -> fetch_outcome.

(** [sanitizePath] *)
Definition sanitizePath (path : string) : string :=
  if decide (path = "") then ""
  else
    join "/"
      (map encodeURIComponent
         (split_slash (strip (fun c => Ascii.eqb c "/") (strip is_space path)))).

(** [buildGatewayURLs] *)
Definition buildGatewayURLs (cid path : string) : list string :=
  let sanitizedPath := sanitizePath path in
  let pathSuffix :=
    if decide (sanitizedPath = "") then "" else "/" +:+ sanitizedPath in
  map (collapse_slashes false)
    [ "https://" +:+ cid +:+ ".ipfs.nftstorage.link" +:+ pathSuffix;
      "https://nftstorage.link/ipfs/" +:+ cid +:+ pathSuffix;
      "https://ipfs.io/ipfs/" +:+ cid +:+ pathSuffix;
      "https://cloudflare-ipfs.com/ipfs/" +:+ cid +:+ pathSuffix;
      "https://dweb.link/ipfs/" +:+ cid +:+ pathSuffix;
      "https://gateway.pinata.cloud/ipfs/" +:+ cid +:+ pathSuffix;
      "https://ipfs.filebase.io/ipfs/" +:+ cid +:+ pathSuffix;
      "https://cf-ipfs.com/ipfs/" +:+ cid +:+ pathSuffix ].

(** The loop [for (let i = 0; i < urls.length; i++)]. *)
Fixpoint try_gateways (clock : nat) (urls : list string) : loop_result :=
  match urls with
  | [] => mkLoop None [] []
  | url :: rest =>
      match attempt (net clock url) url with
      | Fetched b => mkLoop (Some (b, url)) [] [url]
      | Failed e true => mkLoop None [e] [url]
      | Failed e false =>
          let r := try_gateways (S clock) rest in
          mkLoop (found r) (e :: errors r) (url :: tried r)
      end
  end.

Record fetch_run := mkRun {
  result : gateway_failure + (list byte * string);   (* [inr (blob, url)] *)
  requests : list string                             (* the URLs requested, in order *)
}.

(** [fetchFromIPFSGateway]; the thrown aggregate carries [errors], [cause]
    (the last recorded error) and [cid]. *)
Definition fetchFromIPFSGateway (clock : nat) (cid path : string) : fetch_run :=
  match sanitizeCID cid with
  | inl msg => mkRun (inl (InvalidCID msg)) []
  | inr sanitizedCID =>
      let urls := buildGatewayURLs sanitizedCID path in
      let r := try_gateways clock urls in
      match found r with
      | Some hit => mkRun (inr hit) (tried r)
      | None =>
          mkRun
            (inl (AllGatewaysFailed sanitizedCID (errors r)
                    (gw_error <$> last (errors r))))
            (tried r)
      end
  end.

End Fetcher.

(** *** Properties of the fetcher *)

Lemma attempt_failed_url (o : fetch_outcome) (url : string) (e : gateway_error)
    (stop : bool) :
  attempt o url = Failed e stop -> gw_url e = url.
Proof.
  unfold attempt. destruct o as [err|r].
  - intros [= <- _]. reflexivity.
  - destruct (negb (ok r)).
    + intros [= <- _]. reflexivity.
    + destruct (blob r); [|discriminate]. intros [= <- _]. reflexivity.
Qed.

(** The loop stops on a failure exactly for a non-ok response with a 4xx
    status whose classification is not retryable. *)
Lemma attempt_stop_iff (o : fetch_outcome) (url : string) :
  (exists e, attempt o url = Failed e true)
  <-> exists r, o = Responded r /\ ok r = false
                /\ cls_retryable (classifyError (http_error r)) = false
                /\ (400 <= status r < 500)%nat.
Proof.
  unfold attempt. split.
  - intros [e H]. destruct o as [err|r]; [discriminate|].
    destruct (ok r) eqn:Hok; cbn [negb] in H.
    + destruct (blob r); discriminate.
    + injection H as _ H.
      apply andb_prop in H as [H H3]. apply andb_prop in H as [H1 H2].
      exists r. repeat split; auto.
      * now apply negb_true_iff in H1.
      * now apply Nat.leb_le.
      * now apply Nat.ltb_lt.
  - intros (r & -> & Hok & Hc & Hlo & Hhi). rewrite Hok. cbn [negb].
    eexists. f_equal. rewrite Hc. cbn [negb andb].
    apply Nat.leb_le in Hlo. apply Nat.ltb_lt in Hhi. now rewrite Hlo, Hhi.
Qed.

Lemma try_gateways_spec (net : nat -> string -> fetch_outcome) (urls : list string) :
  forall clock,
  let r := try_gateways net clock urls in
  let n := length (tried r) in
  tried r = take n urls /\ (n <= length urls)%nat
  /\ (forall i url, (S i < n)%nat -> urls !! i = Some url ->
        exists e, attempt (net (clock + i)%nat url) url = Failed e false)
  /\ (forall i e, errors r !! i = Some e ->
        urls !! i = Some (gw_url e)
        /\ exists stop,
             attempt (net (clock + i)%nat (gw_url e)) (gw_url e) = Failed e stop)
  /\ match found r with
     | Some (b, url) =>
         exists i, n = S i /\ urls !! i = Some url
                   /\ attempt (net (clock + i)%nat url) url = Fetched b
     | None =>
         gw_url <$> errors r = tried r
         /\ (n = length urls
             \/ exists i url e, n = S i /\ urls !! i = Some url
                  /\ attempt (net (clock + i)%nat url) url = Failed e true)
     end.
Proof.
  induction urls as [|url rest IH]; intros clock; cbn zeta.
  - cbn. split; [reflexivity|]. split; [lia|]. split; [intros; lia|].
    split; [discriminate|]. split; [reflexivity|now left].
  - cbn [try_gateways].
    destruct (attempt (net clock url) url) as [b|e [|]] eqn:Ha.
    + cbn. split; [reflexivity|]. split; [lia|]. split; [intros; lia|].
      split; [discriminate|].
      exists 0%nat. rewrite Nat.add_0_r. auto.
    + pose proof (attempt_failed_url _ _ _ _ Ha) as Hu.
      cbn. split; [reflexivity|]. split; [lia|]. split; [intros; lia|].
      split; [|split].
      * intros [|i] e' H; cbn in H; [|discriminate].
        injection H as <-. rewrite Nat.add_0_r, Hu. eauto.
      * now rewrite Hu.
      * right. exists 0%nat, url, e. rewrite Nat.add_0_r. auto.
    + pose proof (attempt_failed_url _ _ _ _ Ha) as Hu.
      specialize (IH (S clock)). cbn zeta in IH.
      destruct IH as (Ht & Hn & Hprev & Herr & Hfound).
      set (r := try_gateways net (S clock) rest) in *.
      cbn [tried errors found length].
      split; [cbn [take]; now f_equal|]. split; [cbn; lia|].
      split; [|split].
      * intros [|i] u Hi Hl; cbn in Hl.
        -- injection Hl as <-. rewrite Nat.add_0_r. eauto.
        -- replace (clock + S i)%nat with (S clock + i)%nat by lia.
           apply Hprev; [lia|exact Hl].
      * intros [|i] e' H; cbn in H.
        -- injection H as <-. rewrite Nat.add_0_r, Hu. cbn. eauto.
        -- replace (clock + S i)%nat with (S clock + i)%nat by lia.
           cbn. now apply Herr.
      * destruct (found r) as [[b u]|].
        -- destruct Hfound as (i & Hi & Hl & Hf).
           exists (S i). replace (clock + S i)%nat with (S clock + i)%nat by lia.
           cbn. auto.
        -- destruct Hfound as (Hurls & Hlast). split.
           ++ cbn. now rewrite Hu, Hurls.
           ++ destruct Hlast as [Hall|(i & u & e' & Hi & Hl & Hf)].
              ** left. cbn. lia.
              ** right. exists (S i), u, e'.
                 replace (clock + S i)%nat with (S clock + i)%nat by lia.
                 cbn. auto.
Qed.


(** A run on which the theorem is exercised: the first endpoint times out,
    the second answers 503, the third serves the payload. *)
Definition demo_net (clock : nat) (url : string) : fetch_outcome :=
  match clock with
  | 0%nat => Rejected (mkError "AbortError" "The user aborted a request." None)
  | 1%nat => Responded (mkResponse 503 "Service Unavailable" "" (inr []))
  | _ => Responded (mkResponse 200 "OK" "" (inr [x68; x69]))
  end.


Example fetch_demo_result :
  fetchFromIPFSGateway id demo_net 0 " bafyabc" ""
  = mkRun (inr ([x68; x69], "https://ipfs.io/ipfs/bafyabc"))
      [ "https://bafyabc.ipfs.nftstorage.link";
        "https://nftstorage.link/ipfs/bafyabc";
        "https://ipfs.io/ipfs/bafyabc" ].
Proof. vm_compute. reflexivity. Qed.

(** A 404 from the first endpoint is a non-retryable client error: nothing
    else is requested and the aggregate holds the one recorded error. *)
Example fetch_stops_on_404 :
  let net := fun (_ : nat) (_ : string) =>
    Responded (mkResponse 404 "Not Found" "" (inr [])) in
  let error := mkError "Error" "HTTP 404: Not Found" (Some 404%nat) in
  fetchFromIPFSGateway id net 0 "bafyabc" ""
  = mkRun
      (inl (AllGatewaysFailed "bafyabc"
              [ mkGatewayError "https://bafyabc.ipfs.nftstorage.link" error
                  (mkClass "HTTP_ERROR" "HTTP error: 404" false) ]
              (Some error)))
      [ "https://bafyabc.ipfs.nftstorage.link" ].
Proof. vm_compute. reflexivity. Qed.

(** *** Validated addresses *)

Lemma string_filter_id (f : ascii -> bool) (s : string) :
  string_forallb f s = true -> string_filter f s = s.
Proof.
  induction s as [|c s IH]; cbn; [reflexivity|].
  intros H. apply andb_prop in H as [Hc Hs]. rewrite Hc. f_equal. auto.
Qed.

Lemma string_forallb_impl (f g : ascii -> bool) (s : string) :
  (forall c, f c = true -> g c = true) ->
  string_forallb f s = true -> string_forallb g s = true.
Proof.
  intros Hfg. induction s as [|c s IH]; cbn; [reflexivity|].
  intros H. apply andb_prop in H as [Hc Hs]. rewrite (Hfg c Hc). auto.
Qed.

Lemma alnum_not_space (c : ascii) : is_alnum c = true -> negb (is_space c) = true.
Proof.
  unfold is_alnum, is_lower, is_upper, is_digit, is_space.
  generalize (nat_of_ascii c). intros n H.
  apply negb_true_iff.
  repeat (apply orb_prop in H as [H|H]);
    apply andb_prop in H as [H1 H2];
    apply Nat.leb_le in H1; apply Nat.leb_le in H2;
    repeat (apply orb_false_intro); try apply andb_false_intro2;
    try apply Nat.eqb_neq; try apply Nat.leb_gt; lia.
Qed.

Lemma cid_pattern_alnum (s : string) :
  cid_pattern s = true -> string_forallb is_alnum s = true.
Proof.
  destruct s as [|c rest]; [discriminate|]. cbn [cid_pattern string_forallb].
  intros H. apply andb_prop in H as [Hc Hrest].
  apply andb_true_intro. split.
  - repeat (apply orb_prop in Hc as [Hc|Hc]);
      apply Ascii.eqb_eq in Hc; subst c; reflexivity.
  - destruct rest; [discriminate|exact Hrest].
Qed.

(** An address that matches the CID pattern passes [sanitizeCID] unchanged. *)
Lemma sanitizeCID_of_valid (s : string) :
  cid_pattern s = true -> sanitizeCID s = inr s.
Proof.
  intros H. unfold sanitizeCID.
  destruct (decide (s = "")) as [->|_]; [discriminate|].
  rewrite string_filter_id
    by (eapply string_forallb_impl; [exact alnum_not_space|now apply cid_pattern_alnum]).
  destruct s as [|c rest]; [discriminate|].
  assert (Hq : startsWith "q" (String c rest) = false
               /\ startsWith "0x" (String c rest) = false).
  { cbn [cid_pattern] in H. apply andb_prop in H as [Hc _].
    repeat (apply orb_prop in Hc as [Hc|Hc]);
      apply Ascii.eqb_eq in Hc; subst c; split; reflexivity. }
  destruct Hq as [Hq H0x]. rewrite Hq. cbn [andb]. rewrite H0x. now rewrite H.
Qed.

Lemma sanitizeCID_pattern (cid s : string) :
  sanitizeCID cid = inr s -> cid_pattern s = true.
Proof.
  unfold sanitizeCID. destruct (decide (cid = "")); [discriminate|].
  cbn zeta.
  match goal with
  | |- (if negb (cid_pattern ?x) then _ else _) = _ -> _ =>
      destruct (cid_pattern x) eqn:E; cbn [negb]; [|discriminate];
      intros [= <-]; exact E
  end.
Qed.

(** X8. What [sanitizeCID] returns matches the CID pattern, the pattern
    [validateCID] of the download tests, and is returned unchanged when
    sanitized again. *)
Theorem sanitizeCID_idempotent (cid s : string) :
  sanitizeCID cid = inr s -> cid_pattern s = true /\ sanitizeCID s = inr s.
Proof.
  intros H. apply sanitizeCID_pattern in H. split; [exact H|].
  now apply sanitizeCID_of_valid.
Qed.

Lemma sanitizeCID_idempotent_witness :
  cid_pattern "QmYwAPJzv5CZsnA" = true /\ sanitizeCID "QmYwAPJzv5CZsnA" = inr "QmYwAPJzv5CZsnA".
Proof.
  apply (sanitizeCID_idempotent " 0xQmYwAPJzv5 CZsnA " "QmYwAPJzv5CZsnA").
  vm_compute. reflexivity.
Defined.

(** *** The candidate URLs of a validated address *)

Lemma collapse_step (c : ascii) (rest : string) :
  negb (Ascii.eqb c ":") && startsWith "//" rest = false ->
  collapse_slashes false (String c rest) = String c (collapse_slashes false rest).
Proof. intros H. cbn [collapse_slashes andb]. now rewrite H. Qed.

Lemma alnum_not_slash (c : ascii) : is_alnum c = true -> Ascii.eqb c "/" = false.
Proof.
  intros H. destruct (Ascii.eqb c "/") eqn:E; [|reflexivity].
  apply Ascii.eqb_eq in E. subst c. discriminate.
Qed.

Lemma startsWith_slashes_alnum (c : ascii) (rest : string) :
  is_alnum c = true -> startsWith "//" (String c rest) = false.
Proof.
  intros H. unfold startsWith. cbn [String.prefix].
  destruct (ascii_dec "/" c) as [<-|_]; [discriminate|reflexivity].
Qed.

(** The clean-up of double slashes leaves a run of letters and digits as it
    is, whatever follows it (unless that starts with two slashes). *)
Lemma collapse_alnum (a t : string) :
  string_forallb is_alnum a = true -> startsWith "//" t = false ->
  collapse_slashes false (a +:+ t) = a +:+ collapse_slashes false t.
Proof.
  intros Ha Ht. induction a as [|c a IH]; [reflexivity|].
  cbn [string_forallb] in Ha. apply andb_prop in Ha as [Hc Ha].
  change (String c a +:+ t) with (String c (a +:+ t)).
  rewrite collapse_step.
  - change (String c a +:+ collapse_slashes false t)
      with (String c (a +:+ collapse_slashes false t)).
    f_equal. auto.
  - apply andb_false_intro2. destruct a as [|c' a'].
    + exact Ht.
    + cbn [string_forallb] in Ha. apply andb_prop in Ha as [Hc' _].
      change (String c' a' +:+ t) with (String c' (a' +:+ t)).
      now apply startsWith_slashes_alnum.
Qed.

Lemma append_empty_r (s : string) : s +:+ "" = s.
Proof.
  induction s as [|c s IH]; [reflexivity|].
  change (String c s +:+ "") with (String c (s +:+ "")). now rewrite IH.
Qed.

Lemma sanitizePath_empty (encodeURIComponent : string -> string) :
  sanitizePath encodeURIComponent "" = "".
Proof. unfold sanitizePath. destruct (decide ("" = "")); congruence. Qed.

(** The candidate endpoints of a well-formed address. *)
Lemma buildGatewayURLs_of_valid (encodeURIComponent : string -> string) (cid : string) :
  cid_pattern cid = true ->
  buildGatewayURLs encodeURIComponent cid ""
  = [ "https://" +:+ cid +:+ ".ipfs.nftstorage.link";
      "https://nftstorage.link/ipfs/" +:+ cid;
      "https://ipfs.io/ipfs/" +:+ cid;
      "https://cloudflare-ipfs.com/ipfs/" +:+ cid;
      "https://dweb.link/ipfs/" +:+ cid;
      "https://gateway.pinata.cloud/ipfs/" +:+ cid;
      "https://ipfs.filebase.io/ipfs/" +:+ cid;
      "https://cf-ipfs.com/ipfs/" +:+ cid ].
Proof.
  intros H. pose proof (cid_pattern_alnum cid H) as Ha.
  destruct cid as [|c rest]; [discriminate|].
  assert (Hend : forall t, startsWith "//" t = false ->
            collapse_slashes false (String c (rest +:+ t))
            = String c (rest +:+ collapse_slashes false t))
    by (intros t; now apply (collapse_alnum (String c rest))).
  assert (Hc : c = "b"%char \/ c = "B"%char \/ c = "Q"%char \/ c = "m"%char).
  { cbn [cid_pattern] in H. apply andb_prop in H as [Hc _].
    repeat (apply orb_prop in Hc as [Hc|Hc]); apply Ascii.eqb_eq in Hc; auto. }
  unfold buildGatewayURLs. rewrite sanitizePath_empty.
  destruct (decide ("" = "")) as [_|]; [|congruence].
  destruct Hc as [-> | [-> | [-> | ->]]];
    cbv [map];
    repeat first
      [ progress change (String ?x ?a +:+ ?b) with (String x (a +:+ b))
      | progress change ("" +:+ ?b) with b
      | rewrite collapse_step by reflexivity
      | rewrite Hend by reflexivity ];
    change (collapse_slashes false "") with "";
    rewrite ?append_empty_r; reflexivity.
Qed.

(** X9. For an address that matches the CID pattern and no path, the
    candidate endpoints are these eight URLs with the address inserted as
    it is: the clean-up of double slashes leaves [https://] alone. *)
Theorem buildGatewayURLs_valid (encodeURIComponent : string -> string) (cid : string) :
  cid_pattern cid = true ->
  buildGatewayURLs encodeURIComponent cid ""
  = [ "https://" +:+ cid +:+ ".ipfs.nftstorage.link";
      "https://nftstorage.link/ipfs/" +:+ cid;
      "https://ipfs.io/ipfs/" +:+ cid;
      "https://cloudflare-ipfs.com/ipfs/" +:+ cid;
      "https://dweb.link/ipfs/" +:+ cid;
      "https://gateway.pinata.cloud/ipfs/" +:+ cid;
      "https://ipfs.filebase.io/ipfs/" +:+ cid;
      "https://cf-ipfs.com/ipfs/" +:+ cid ].
Proof. exact (buildGatewayURLs_of_valid encodeURIComponent cid). Qed.

Lemma buildGatewayURLs_valid_witness :
  buildGatewayURLs id "bafyabc" ""
  = [ "https://bafyabc.ipfs.nftstorage.link";
      "https://nftstorage.link/ipfs/bafyabc";
      "https://ipfs.io/ipfs/bafyabc";
      "https://cloudflare-ipfs.com/ipfs/bafyabc";
      "https://dweb.link/ipfs/bafyabc";
      "https://gateway.pinata.cloud/ipfs/bafyabc";
      "https://ipfs.filebase.io/ipfs/bafyabc";
      "https://cf-ipfs.com/ipfs/bafyabc" ].
Proof. apply (buildGatewayURLs_valid id "bafyabc"). reflexivity. Defined.

(** *** When the loop over the endpoints goes on, and when it stops *)

Lemma buildGatewayURLs_length (encodeURIComponent : string -> string) (cid path : string) :
  length (buildGatewayURLs encodeURIComponent cid path) = 8%nat.
Proof. reflexivity. Qed.

(** An attempt that is rejected, or answered with a server error, fails
    without ending the loop. *)
Lemma attempt_goes_on (o : fetch_outcome) (url : string) :
  (forall r, o = Responded r -> (500 <= status r)%nat) ->
  exists e, attempt o url = Failed e false.
Proof.
  intros H. unfold attempt. destruct o as [err|r]; [eauto|].
  specialize (H r eq_refl).
  assert (Hok : ok r = false).
  { unfold ok. apply andb_false_intro2. apply Nat.leb_gt. lia. }
  rewrite Hok. cbn [negb]. eexists. f_equal.
  assert (Hlt : (status r <? 500)%nat = false) by (apply Nat.ltb_ge; lia).
  rewrite Hlt. now rewrite andb_false_r.
Qed.

Lemma try_gateways_go_on (net : nat -> string -> fetch_outcome) (urls : list string) :
  forall clock,
  (forall i url, exists e, attempt (net i url) url = Failed e false) ->
  let r := try_gateways net clock urls in
  found r = None /\ tried r = urls /\ gw_url <$> errors r = urls.
Proof.
  induction urls as [|url rest IH]; intros clock H; cbn zeta; [cbn; auto|].
  cbn [try_gateways]. destruct (H clock url) as [e He]. rewrite He.
  destruct (IH (S clock) H) as (Hf & Ht & He').
  cbn [found tried errors]. split; [exact Hf|]. split; [now rewrite Ht|].
  cbn. rewrite He'. f_equal. eapply attempt_failed_url, He.
Qed.

(** X10. Unreachable gateways and server errors never end the attempts: when
    every request is rejected (network failure, timeout) or answered with a
    status of 500 or more, all eight endpoints are requested, in order, and
    the error thrown holds one entry for each. *)
Theorem failures_try_every_gateway
    (encodeURIComponent : string -> string) (net : nat -> string -> fetch_outcome)
    (clock : nat) (cid path sanitizedCID : string) :
  sanitizeCID cid = inr sanitizedCID ->
  (forall i url r, net i url = Responded r -> (500 <= status r)%nat) ->
  let urls := buildGatewayURLs encodeURIComponent sanitizedCID path in
  let run := fetchFromIPFSGateway encodeURIComponent net clock cid path in
  requests run = urls
  /\ exists errs,
       result run = inl (AllGatewaysFailed sanitizedCID errs (gw_error <$> last errs))
       /\ gw_url <$> errs = urls /\ length errs = 8%nat.
Proof.
  intros Hs Hnet urls run. subst run. unfold fetchFromIPFSGateway. rewrite Hs.
  fold urls.
  destruct (try_gateways_go_on net urls clock) as (Hf & Ht & He).
  { intros i url. apply attempt_goes_on. intros r. apply Hnet. }
  rewrite Hf. cbn [requests result]. split; [exact Ht|].
  eexists. split; [reflexivity|]. split; [exact He|].
  apply (f_equal length) in He. rewrite length_fmap in He. rewrite He.
  apply buildGatewayURLs_length.
Qed.

(** Every gateway is down: the first four time out, the others answer 502
    and 503. *)
Definition net_down (clock : nat) (url : string) : fetch_outcome :=
  if (clock <? 4)%nat
  then Rejected (mkError "AbortError" "The user aborted a request." None)
  else if Nat.even clock
  then Responded (mkResponse 502 "Bad Gateway" "" (inr []))
  else Responded (mkResponse 503 "" "" (inr [])).

Lemma failures_try_every_gateway_witness :
  let urls := buildGatewayURLs id "bafyabc" "" in
  let run := fetchFromIPFSGateway id net_down 0 "bafyabc" "" in
  requests run = urls
  /\ exists errs,
       result run = inl (AllGatewaysFailed "bafyabc" errs (gw_error <$> last errs))
       /\ gw_url <$> errs = urls /\ length errs = 8%nat.
Proof.
  apply (failures_try_every_gateway id net_down 0 "bafyabc" "" "bafyabc").
  - reflexivity.
  - intros i url r. unfold net_down.
    destruct (i <? 4)%nat; [discriminate|].
    destruct (Nat.even i); intros [= <-]; cbn; lia.
Defined.

(** *** The class of an HTTP error *)

(** A string found inside another one is made of characters of that one. *)
Lemma prefix_forallb (f : ascii -> bool) (p s : string) :
  String.prefix p s = true -> string_forallb f s = true -> string_forallb f p = true.
Proof.
  revert s. induction p as [|c p IH]; intros s H Hs; [reflexivity|].
  destruct s as [|c' s]; [discriminate|]. cbn [String.prefix] in H.
  destruct (ascii_dec c c') as [<-|]; [|discriminate].
  cbn [string_forallb] in *. apply andb_prop in Hs as [Hc Hs].
  rewrite Hc. cbn [andb]. eauto.
Qed.

Lemma includes_forallb (f : ascii -> bool) (sub s : string) :
  includes sub s = true -> string_forallb f s = true -> string_forallb f sub = true.
Proof.
  induction s as [|c s IH]; cbn [includes]; intros H Hs.
  - rewrite orb_false_r in H. eapply prefix_forallb; eauto.
  - apply orb_prop in H as [H|H]; [eapply prefix_forallb; eauto|].
    cbn [string_forallb] in Hs. apply andb_prop in Hs as [_ Hs]. auto.
Qed.

Lemma includes_absent (f : ascii -> bool) (sub s : string) :
  string_forallb f s = true -> string_forallb f sub = false -> includes sub s = false.
Proof.
  intros Hs Hsub. destruct (includes sub s) eqn:E; [|reflexivity].
  rewrite (includes_forallb f sub s E Hs) in Hsub. discriminate.
Qed.

Lemma string_forallb_app (f : ascii -> bool) (a b : string) :
  string_forallb f (a +:+ b) = string_forallb f a && string_forallb f b.
Proof.
  induction a as [|c a IH]; [reflexivity|].
  change (String c a +:+ b) with (String c (a +:+ b)).
  cbn [string_forallb]. now rewrite IH, andb_assoc.
Qed.

Lemma toLowerCase_app (a b : string) :
  toLowerCase (a +:+ b) = toLowerCase a +:+ toLowerCase b.
Proof.
  induction a as [|c a IH]; [reflexivity|].
  change (String c a +:+ b) with (String c (a +:+ b)).
  cbn [toLowerCase]. rewrite IH. reflexivity.
Qed.

Lemma toString_digits (n : nat) : string_forallb is_digit (toString n) = true.
Proof. unfold toString. induction (Nat.to_uint n); cbn; auto. Qed.

Lemma toLowerCase_digits (s : string) :
  string_forallb is_digit s = true -> toLowerCase s = s.
Proof.
  induction s as [|c s IH]; cbn [string_forallb toLowerCase]; [reflexivity|].
  intros H. apply andb_prop in H as [Hc Hs]. rewrite (IH Hs). f_equal.
  unfold lower_char. destruct (is_upper c) eqn:Hu; [|reflexivity].
  unfold is_digit, is_upper in *.
  apply andb_prop in Hc as [_ Hc]. apply andb_prop in Hu as [Hu _].
  apply Nat.leb_le in Hc, Hu. lia.
Qed.

(** The characters of the message built for a response without a status
    text: ["http "], digits, [": "]. *)
Definition http_char (c : ascii) : bool :=
  is_digit c || Ascii.eqb c "h" || Ascii.eqb c "t" || Ascii.eqb c "p"
  || Ascii.eqb c " " || Ascii.eqb c ":".

(** The class of the error built for a response with an empty status text
    (as every HTTP/2 response has): an [HTTP_ERROR], to be retried exactly
    for a status of 500 or more and for 429. *)
Lemma classifyError_http (r : response) :
  statusText r = "" -> status r <> 0%nat ->
  classifyError (http_error r)
  = mkClass "HTTP_ERROR" ("HTTP error: " +:+ toString (status r))
      ((500 <=? status r)%nat || (status r =? 429)%nat).
Proof.
  intros Ht Hs. unfold classifyError, http_error, message_or_string, status_truthy.
  cbn [err_message err_name err_status default]. rewrite Ht.
  destruct (decide _) as [E|_]; [discriminate E|].
  set (msg := toLowerCase _).
  assert (Hmsg : string_forallb http_char msg = true).
  { subst msg. rewrite !toLowerCase_app, (toLowerCase_digits _ (toString_digits _)).
    rewrite !string_forallb_app. cbn [toLowerCase string_forallb].
    rewrite (string_forallb_impl is_digit http_char _
               (fun c H => ltac:(unfold http_char; now rewrite H))
               (toString_digits _)).
    reflexivity. }
  rewrite !(includes_absent http_char _ msg Hmsg) by reflexivity.
  apply Nat.eqb_neq in Hs. rewrite Hs. reflexivity.
Qed.

(** X11. A client error ends the attempts.  When the first endpoint answers
    with a status from 400 to 499 other than 429 (and, as over HTTP/2, no
    status text), no other endpoint is requested: the error thrown holds
    that one response, classed as a non-retryable [HTTP_ERROR]. *)
Theorem client_error_ends_attempts
    (encodeURIComponent : string -> string) (net : nat -> string -> fetch_outcome)
    (clock : nat) (cid path sanitizedCID url : string) (r : response) :
  sanitizeCID cid = inr sanitizedCID ->
  head (buildGatewayURLs encodeURIComponent sanitizedCID path) = Some url ->
  net clock url = Responded r ->
  statusText r = "" -> (400 <= status r < 500)%nat -> status r <> 429%nat ->
  fetchFromIPFSGateway encodeURIComponent net clock cid path
  = mkRun
      (inl (AllGatewaysFailed sanitizedCID
              [ mkGatewayError url (http_error r)
                  (mkClass "HTTP_ERROR" ("HTTP error: " +:+ toString (status r)) false) ]
              (Some (http_error r))))
      [url].
Proof.
  intros Hs Hurl Hnet Ht Hst H429. unfold fetchFromIPFSGateway. rewrite Hs.
  destruct (buildGatewayURLs encodeURIComponent sanitizedCID path) as [|u rest];
    [discriminate|]. injection Hurl as ->.
  cbn [try_gateways]. rewrite Hnet. unfold attempt.
  assert (Hok : ok r = false).
  { unfold ok. apply andb_false_intro2. apply Nat.leb_gt. lia. }
  rewrite Hok. cbn [negb]. rewrite classifyError_http by (auto; lia).
  assert (H1 : (500 <=? status r)%nat = false) by (apply Nat.leb_gt; lia).
  assert (H2 : (status r =? 429)%nat = false) by (now apply Nat.eqb_neq).
  assert (H3 : (400 <=? status r)%nat = true) by (apply Nat.leb_le; lia).
  assert (H4 : (status r <? 500)%nat = true) by (apply Nat.ltb_lt; lia).
  rewrite H1, H2, H3, H4. reflexivity.
Qed.

Lemma client_error_ends_attempts_witness :
  fetchFromIPFSGateway id
    (fun _ _ => Responded (mkResponse 404 "" "" (inr []))) 0 "bafyabc" ""
  = mkRun
      (inl (AllGatewaysFailed "bafyabc"
              [ mkGatewayError "https://bafyabc.ipfs.nftstorage.link"
                  (http_error (mkResponse 404 "" "" (inr [])))
                  (mkClass "HTTP_ERROR" ("HTTP error: " +:+ toString 404) false) ]
              (Some (http_error (mkResponse 404 "" "" (inr []))))))
      ["https://bafyabc.ipfs.nftstorage.link"].
Proof.
  apply (client_error_ends_attempts id
           (fun _ _ => Responded (mkResponse 404 "" "" (inr []))) 0 "bafyabc" ""
           "bafyabc" "https://bafyabc.ipfs.nftstorage.link"
           (mkResponse 404 "" "" (inr [])));
    first [ reflexivity | cbn; lia ].
Defined.

End Gateway.

(** ** Chunked download: [chunkedDownload.ts] *)

Module Download.

#[local] Set Warnings "-register-all".

(** Values produced by [JSON.parse], and [undefined] for a property that is
    not there.  Numbers are restricted to integers. *)
Inductive jsval :=
| JUndefined
| JNull
| JBool (b : bool)
| JNum (z : Z)
| JStr (s : string)
| JArr (items : list jsval)
| JObj (fields : list (string * jsval)).

(** [!!v] *)
Definition truthy (v : jsval) : bool :=
  match v with
  | JUndefined | JNull => false
  | JBool b => b
  | JNum z => negb (z =? 0)%Z
  | JStr s => negb (String.eqb s "")
  | JArr _ | JObj _ => true
  end.

(** In a parsed object a repeated key keeps its last value. *)
Fixpoint assoc_last (name : string) (fields : list (string * jsval)) (acc : jsval)
    : jsval :=
  match fields with
  | [] => acc
  | (k, v) :: rest => assoc_last name rest (if String.eqb k name then v else acc)
  end.

(** [v.name] for a [v] other than [null] and [undefined] (on those the
    access throws, which the callers below handle before using [prop]). *)
Definition prop (v : jsval) (name : string) : jsval :=
  match v with
  | JObj fields => assoc_last name fields JUndefined
  | _ => JUndefined
  end.

(** [String(v)] *)
Fixpoint js_String (v : jsval) : string :=
  match v with
  | JUndefined => "undefined"
  | JNull => "null"
  | JBool true => "true"
  | JBool false => "false"
  | JNum z => NilZero.string_of_int (Z.to_int z)
  | JStr s => s
  | JArr items =>
      Gateway.join ","
        (map (fun x => match x with
                       | JUndefined | JNull => ""
                       | _ => js_String x
                       end) items)
  | JObj _ => "[object Object]"
  end.

(** [validateCID]: [RegExp.prototype.test] converts its argument to a string. *)
Definition validateCID (cid : jsval) : bool := cid_pattern (js_String cid).

(** [Array.isArray(v)] and the elements of an array *)
Definition isArray (v : jsval) : bool :=
  match v with JArr _ => true | _ => false end.
Definition items_of (v : jsval) : list jsval :=
  match v with JArr items => items | _ => [] end.

(** [v === "s"] and [v === i] *)
Definition is_string (v : jsval) (s : string) : bool :=
  match v with JStr s' => String.eqb s' s | _ => false end.
Definition is_number (v : jsval) (i : nat) : bool :=
  match v with JNum z => (z =? Z.of_nat i)%Z | _ => false end.
Definition typeof_string (v : jsval) : bool :=
  match v with JStr _ => true | _ => false end.
Definition is_null (v : jsval) : bool :=
  match v with JNull | JUndefined => true | _ => false end.

Inductive dl_error :=
| InvalidMetadataCID                    (* "Invalid metadata CID format" *)
| InvalidAESKey                         (* "Invalid AES key: must be a base64 string" *)
| GatewayFailure (f : Gateway.gateway_failure)
| InvalidMetadataJSON                   (* "Invalid metadata JSON format" *)
| TypeError                             (* property read on [null] *)
| InvalidMetadataType                   (* "Invalid metadata type" *)
| MissingChunks                         (* "Invalid metadata: missing or empty chunks array" *)
| MissingFilename                       (* "Invalid metadata: missing filename" *)
| ImportKeyFailed                       (* importKeyFromBase64 rejected *)
| MissingChunkMetadata (i : nat)        (* "Missing chunk metadata at index i" *)
| ChunkIndexMismatch (i : nat) (got : jsval)
| InvalidChunkCID (i : nat) (cid : jsval)
| DecryptFailed (i : nat) (e : ChunkCipher.cipher_error).

(** What the function does to the outside, in order. *)
Inductive event :=
| FetchMetadata (cid : string)
| FetchChunk (i : nat) (cid : jsval)    (* fetchFromIPFSGateway(chunkMeta.cid) at position i *)
| DecryptChunk (i : nat)                (* decryptChunk(aesKey, _, i) *)
| SaveFile (filename : string) (mimeType : jsval) (content : list byte).

(** A computation reads the request clock and yields a value or a thrown
    error, the new clock and the events it emitted. *)
Record run (A : Type) := mkRun {
  outcome : dl_error + A;
  clock_after : nat;
  events : list event
}.
Arguments mkRun {A} outcome clock_after events.
Arguments outcome {A} r.
Arguments clock_after {A} r.
Arguments events {A} r.

Definition M (A : Type) : Type := nat -> run A.

Definition ret {A} (a : A) : M A := fun clock => mkRun (inr a) clock [].
Definition throw {A} (e : dl_error) : M A := fun clock => mkRun (inl e) clock [].
Definition emit (ev : event) : M unit := fun clock => mkRun (inr tt) clock [ev].
Definition bind {A B} (m : M A) (k : A -> M B) : M B :=
  fun clock =>
    let r := m clock in
    match outcome r with
    | inl e => mkRun (inl e) (clock_after r) (events r)
    | inr a =>
        let r' := k a (clock_after r) in
        mkRun (outcome r') (clock_after r') (events r ++ events r')
    end.

Notation "'let*' x ':=' m 'in' k" := (bind m (fun x => k))
  (at level 10, x name, m at level 100, k at level 200).
Notation "m ';;;' k" := (bind m (fun _ => k))
  (at level 100, k at level 200, right associativity).

Section Downloader.

Variable encodeURIComponent : string -> string.
Variable net : nat -> string -> Gateway.fetch_outcome.

(** [JSON.parse(await blob.text())], [None] when it throws. *)
Variable JSON_parse : list byte -> option jsval.

Variable CryptoKey : Type.
(** [importKeyFromBase64], [None] when it rejects. *)
Variable importKeyFromBase64 : string -> option CryptoKey.
Variable subtle_decrypt :
  CryptoKey -> list byte -> list byte -> list byte -> option (list byte).

(** [fetchFromIPFSGateway(cid)] called with a parsed value: [sanitizeCID]
    throws on anything that is not a string. *)
Definition gateway_fetch (cid : jsval) : M (list byte) :=
  fun clock =>
    match cid with
    | JStr s =>
        let r := Gateway.fetchFromIPFSGateway encodeURIComponent net clock s "" in
        mkRun
          (match Gateway.result r with
           | inl f => inl (GatewayFailure f)
           | inr (blob, _) => inr blob
           end)
          (clock + length (Gateway.requests r)) []
    | _ =>
        mkRun
          (inl (GatewayFailure
                  (Gateway.InvalidCID "Invalid CID: must be a non-empty string")))
          clock []
    end.

Definition decrypt (aesKey : CryptoKey) (i : nat) (encrypted : list byte)
    : M (list byte) :=
  match ChunkCipher.decryptChunk CryptoKey subtle_decrypt aesKey encrypted i with
  | ChunkCipher.Ok plaintext => ret plaintext
  | ChunkCipher.Err e => throw (DecryptFailed i e)
  end.

(** The loop [for (let i = 0; i < totalChunks; i++)], from position [i] on
    the remaining entries; it yields [decryptedChunks]. *)
Fixpoint fetch_chunks (aesKey : CryptoKey) (i : nat) (chunks : list jsval)
    : M (list (list byte)) :=
  match chunks with
  | [] => ret []
  | chunkMeta :: rest =>
      if negb (truthy chunkMeta) then throw (MissingChunkMetadata i)
      else if negb (is_number (prop chunkMeta "index") i)
      then throw (ChunkIndexMismatch i (prop chunkMeta "index"))
      else if negb (truthy (prop chunkMeta "cid"))
              || negb (validateCID (prop chunkMeta "cid"))
      then throw (InvalidChunkCID i (prop chunkMeta "cid"))
      else
        emit (FetchChunk i (prop chunkMeta "cid")) ;;;
        let* encrypted := gateway_fetch (prop chunkMeta "cid") in
        emit (DecryptChunk i) ;;;
        let* decrypted := decrypt aesKey i encrypted in
        let* more := fetch_chunks aesKey (S i) rest in
        ret (decrypted :: more)
  end.

(** Input validation, the fetch of the metadata blob and [JSON.parse]. *)
Definition fetch_metadata (metadataCid aesKeyBase64 : string) : M jsval :=
  if String.eqb metadataCid "" || negb (validateCID (JStr metadataCid))
  then throw InvalidMetadataCID
  else if String.eqb aesKeyBase64 "" then throw InvalidAESKey
  else
    emit (FetchMetadata metadataCid) ;;;
    let* metadataBlob := gateway_fetch (JStr metadataCid) in
    match JSON_parse metadataBlob with
    | None => throw InvalidMetadataJSON
    | Some metadata => ret metadata
    end.

(** The rest of [chunkedDownloadFile], from "Validate metadata structure". *)
Definition process_metadata (aesKeyBase64 : string) (metadata : jsval) : M string :=
  if is_null metadata then throw TypeError
  else if negb (is_string (prop metadata "type") "dcs-chunked-file")
  then throw InvalidMetadataType
  else if negb (truthy (prop metadata "chunks"))
          || negb (isArray (prop metadata "chunks"))
          || (length (items_of (prop metadata "chunks")) =? 0)%nat
  then throw MissingChunks
  else if negb (truthy (prop metadata "filename"))
          || negb (typeof_string (prop metadata "filename"))
  then throw MissingFilename
  else
    match importKeyFromBase64 aesKeyBase64 with
    | None => throw ImportKeyFailed
    | Some aesKey =>
        let* decryptedChunks :=
          fetch_chunks aesKey 0 (items_of (prop metadata "chunks")) in
        emit (SaveFile (js_String (prop metadata "filename"))
                (prop metadata "mimeType") (concat decryptedChunks)) ;;;
        ret (js_String (prop metadata "filename"))
    end.

(** [chunkedDownloadFile]; on success it yields the file name. *)
Definition chunkedDownloadFile (metadataCid aesKeyBase64 : string) : M string :=
  let* metadata := fetch_metadata metadataCid aesKeyBase64 in
  process_metadata aesKeyBase64 metadata.

End Downloader.

(** *** Properties of the download *)

Section Properties.

Variable encodeURIComponent : string -> string.
Variable net : nat -> string -> Gateway.fetch_outcome.
Variable JSON_parse : list byte -> option jsval.
Variable CryptoKey : Type.
Variable importKeyFromBase64 : string -> option CryptoKey.
Variable subtle_decrypt :
  CryptoKey -> list byte -> list byte -> list byte -> option (list byte).

Abbreviation fetch_chunks := (fetch_chunks encodeURIComponent net CryptoKey subtle_decrypt).
Abbreviation fetch_metadata := (fetch_metadata encodeURIComponent net JSON_parse).
Abbreviation process_metadata :=
  (process_metadata encodeURIComponent net CryptoKey importKeyFromBase64 subtle_decrypt).
Abbreviation chunkedDownloadFile :=
  (chunkedDownloadFile encodeURIComponent net JSON_parse CryptoKey
     importKeyFromBase64 subtle_decrypt).

Definition throws {A} (r : run A) : Prop := exists e, outcome r = inl e.

(** The chunk position an event is about, if it is about a chunk. *)
Definition chunk_position (ev : event) : option nat :=
  match ev with
  | FetchChunk i _ => Some i
  | DecryptChunk i => Some i
  | _ => None
  end.

Lemma bind_throws {A B} (m : M A) (k : A -> M B) (clock : nat) (e : dl_error) :
  outcome (m clock) = inl e ->
  bind m k clock = mkRun (inl e) (clock_after (m clock)) (events (m clock)).
Proof. unfold bind. now intros ->. Qed.

Lemma bind_returns {A B} (m : M A) (k : A -> M B) (clock : nat) (a : A) :
  outcome (m clock) = inr a ->
  bind m k clock =
  mkRun (outcome (k a (clock_after (m clock))))
    (clock_after (k a (clock_after (m clock))))
    (events (m clock) ++ events (k a (clock_after (m clock)))).
Proof. unfold bind. now intros ->. Qed.

Lemma is_number_true (v : jsval) (i : nat) :
  is_number v i = true <-> v = JNum (Z.of_nat i).
Proof.
  destruct v; cbn; try (split; [discriminate|congruence]).
  rewrite Z.eqb_eq. split; congruence.
Qed.

(** A value that is falsy never passes [validateCID], so the test
    [!cid || !validateCID(cid)] is the format check alone. *)
Lemma falsy_fails_validateCID (v : jsval) :
  truthy v = false -> validateCID v = false.
Proof.
  destruct v as [| |[|]|z|s|l|f]; cbn; try discriminate; try reflexivity.
  - intros H. apply negb_false_iff, Z.eqb_eq in H. now subst z.
  - intros H. apply negb_false_iff, String.eqb_eq in H. now subst s.
Qed.

Lemma gateway_fetch_events (cid : jsval) (clock : nat) :
  events (gateway_fetch encodeURIComponent net cid clock) = [].
Proof. unfold gateway_fetch. now destruct cid. Qed.

Lemma decrypt_events (aesKey : CryptoKey) (i : nat) (b : list byte) (clock : nat) :
  events (decrypt CryptoKey subtle_decrypt aesKey i b clock) = [].
Proof. unfold decrypt. now destruct (ChunkCipher.decryptChunk _ _ _ _ _). Qed.

(** One iteration of the loop on an entry that passes the three checks. *)
Lemma fetch_chunks_step (aesKey : CryptoKey) (i : nat) (c : jsval)
    (rest : list jsval) (clock : nat) :
  truthy c = true -> is_number (prop c "index") i = true ->
  truthy (prop c "cid") = true -> validateCID (prop c "cid") = true ->
  let g := gateway_fetch encodeURIComponent net (prop c "cid") clock in
  fetch_chunks aesKey i (c :: rest) clock =
  match outcome g with
  | inl err => mkRun (inl err) (clock_after g) [FetchChunk i (prop c "cid")]
  | inr enc =>
      let d := decrypt CryptoKey subtle_decrypt aesKey i enc (clock_after g) in
      match outcome d with
      | inl err =>
          mkRun (inl err) (clock_after d)
            [FetchChunk i (prop c "cid"); DecryptChunk i]
      | inr dec =>
          let rr := fetch_chunks aesKey (S i) rest (clock_after d) in
          mkRun
            (match outcome rr with
             | inl e => inl e
             | inr more => inr (dec :: more)
             end)
            (clock_after rr)
            (FetchChunk i (prop c "cid") :: DecryptChunk i :: events rr)
      end
  end.
Proof.
  intros H1 H2 H3 H4 g. cbn [Download.fetch_chunks].
  rewrite H1, H2, H3, H4. cbn [negb orb].
  unfold bind. cbn [emit outcome clock_after events].
  fold g. rewrite (gateway_fetch_events _ clock : events g = []).
  destruct (outcome g) as [err|enc]; [reflexivity|].
  cbn [outcome clock_after events app].
  rewrite decrypt_events.
  destruct (outcome (decrypt _ _ _ _ _ _)) as [err|dec]; [reflexivity|].
  cbn [outcome clock_after events app].
  destruct (outcome (Download.fetch_chunks _ _ _ _ _ _ _ _)); cbn;
    now rewrite ?app_nil_r.
Qed.

(** The loop either stops at its first entry with no event, or takes the
    step above. *)
Lemma fetch_chunks_guard (aesKey : CryptoKey) (i : nat) (c : jsval)
    (rest : list jsval) (clock : nat) :
  (exists err, fetch_chunks aesKey i (c :: rest) clock = mkRun (inl err) clock [])
  \/ (truthy c = true /\ is_number (prop c "index") i = true
      /\ truthy (prop c "cid") = true /\ validateCID (prop c "cid") = true).
Proof.
  cbn [Download.fetch_chunks].
  destruct (truthy c); cbn [negb]; [|left; eexists; reflexivity].
  destruct (is_number (prop c "index") i); cbn [negb]; [|left; eexists; reflexivity].
  destruct (truthy (prop c "cid")); cbn [negb orb]; [|left; eexists; reflexivity].
  destruct (validateCID (prop c "cid")); cbn [negb]; [|left; eexists; reflexivity].
  right. auto.
Qed.

(** An entry at offset [k] whose index is not its position, or whose CID
    fails the format check, makes the loop throw with every chunk event at
    an earlier position. *)
Lemma fetch_chunks_bad_entry (aesKey : CryptoKey) (chunks : list jsval) :
  forall i clock k e,
    chunks !! k = Some e ->
    prop e "index" <> JNum (Z.of_nat (i + k)) \/ validateCID (prop e "cid") = false ->
    let r := fetch_chunks aesKey i chunks clock in
    throws r
    /\ forall ev j, ev ∈ events r -> chunk_position ev = Some j -> (j < i + k)%nat.
Proof.
  induction chunks as [|c rest IH]; intros i clock k e Hk Hbad r; [discriminate|].
  subst r.
  destruct (fetch_chunks_guard aesKey i c rest clock)
    as [[err ->]|(H1 & H2 & H3 & H4)].
  { split; [now exists err|]. intros ev j Hin. now apply elem_of_nil in Hin. }
  destruct k as [|k]; cbn in Hk.
  - injection Hk as ->. rewrite Nat.add_0_r in Hbad.
    apply is_number_true in H2. destruct Hbad; congruence.
  - rewrite (fetch_chunks_step aesKey i c rest clock H1 H2 H3 H4). cbn zeta.
    destruct (outcome (gateway_fetch _ _ _ _)) as [err|enc].
    { split; [now exists err|].
      intros ev j Hin Hpos. apply list_elem_of_singleton in Hin. subst ev.
      injection Hpos as <-. lia. }
    destruct (outcome (decrypt _ _ _ _ _ _)) as [err|dec].
    { split; [now exists err|].
      intros ev j Hin Hpos.
      apply elem_of_cons in Hin as [->|Hin]; [injection Hpos as <-; lia|].
      apply list_elem_of_singleton in Hin. subst ev. injection Hpos as <-. lia. }
    replace (i + S k)%nat with (S i + k)%nat in * by lia.
    match goal with
    | |- context [Download.fetch_chunks _ _ _ _ _ _ _ ?c] =>
        destruct (IH (S i) c k e Hk Hbad) as [[err Herr] Hev]
    end.
    rewrite Herr. cbn [outcome events].
    split; [now exists err|].
    intros ev j Hin Hpos.
    apply elem_of_cons in Hin as [->|Hin]; [injection Hpos as <-; lia|].
    apply elem_of_cons in Hin as [->|Hin]; [injection Hpos as <-; lia|].
    eapply Hev; eauto.
Qed.

Lemma fetch_metadata_events (metadataCid aesKeyBase64 : string) (clock : nat) :
  forall ev, ev ∈ events (fetch_metadata metadataCid aesKeyBase64 clock) ->
             chunk_position ev = None.
Proof.
  intros ev. unfold Download.fetch_metadata.
  destruct (_ || _); [intros H; now apply elem_of_nil in H|].
  destruct (String.eqb aesKeyBase64 ""); [intros H; now apply elem_of_nil in H|].
  unfold bind at 1. cbn [emit outcome clock_after events].
  unfold bind at 1. rewrite gateway_fetch_events.
  destruct (outcome (gateway_fetch _ _ _ _)) as [e|b].
  - cbn. intros H. apply list_elem_of_singleton in H. now subst ev.
  - cbn [events app outcome]. destruct (JSON_parse b); cbn;
      intros H; apply list_elem_of_singleton in H; now subst ev.
Qed.

(** C10. Once the metadata object has been fetched and parsed, the download
    throws without touching any chunk if the type is not "dcs-chunked-file"
    or the chunks array is missing or empty; and if the entry at position
    [i] carries an index other than [i] or a CID that fails the format
    check, it throws and no chunk at position [i] or later is fetched or
    decrypted. *)
Theorem chunkedDownloadFile_rejects_bad_manifest
    (metadataCid aesKeyBase64 : string) (clock : nat) (metadata : jsval) :
  outcome (fetch_metadata metadataCid aesKeyBase64 clock) = inr metadata ->
  let r := chunkedDownloadFile metadataCid aesKeyBase64 clock in
  ((prop metadata "type" <> JStr "dcs-chunked-file"
    \/ (forall c cs, prop metadata "chunks" <> JArr (c :: cs))) ->
   throws r /\ forall ev, ev ∈ events r -> chunk_position ev = None)
  /\ (forall i e,
        items_of (prop metadata "chunks") !! i = Some e ->
        prop e "index" <> JNum (Z.of_nat i) \/ validateCID (prop e "cid") = false ->
        throws r
        /\ forall ev j, ev ∈ events r -> chunk_position ev = Some j -> (j < i)%nat).
Proof.
  intros Hmeta r. subst r. unfold Download.chunkedDownloadFile.
  rewrite (bind_returns _ _ _ _ Hmeta). cbn [outcome events].
  set (c1 := clock_after _).
  pose proof (fetch_metadata_events metadataCid aesKeyBase64 clock) as Hpre.
  assert (Hnil : forall (P : event -> Prop) (err : dl_error),
    (forall ev, ev ∈ events (fetch_metadata metadataCid aesKeyBase64 clock) -> P ev) ->
    throws (mkRun (outcome (@throw string err c1)) (clock_after (@throw string err c1))
              (events (fetch_metadata metadataCid aesKeyBase64 clock)
               ++ events (@throw string err c1)))
    /\ forall ev, ev ∈ events (fetch_metadata metadataCid aesKeyBase64 clock)
                       ++ events (@throw string err c1) -> P ev).
  { intros P err HP. split; [now exists err|].
    intros ev Hin. cbn in Hin. rewrite app_nil_r in Hin. auto. }
  split.
  - intros Hbad. unfold Download.process_metadata.
    destruct (is_null metadata); [apply Hnil; auto|].
    destruct (is_string (prop metadata "type") "dcs-chunked-file") eqn:Htype;
      cbn [negb]; [|apply Hnil; auto].
    destruct Hbad as [Hbad|Hbad].
    { exfalso. apply Hbad. destruct (prop metadata "type"); try discriminate.
      cbn in Htype. apply String.eqb_eq in Htype. now subst. }
    assert (Hg : negb (truthy (prop metadata "chunks"))
                 || negb (isArray (prop metadata "chunks"))
                 || (length (items_of (prop metadata "chunks")) =? 0)%nat = true).
    { destruct (prop metadata "chunks") as [| |b|z|s|[|c cs]|f] eqn:Hc;
        cbn; rewrite ?orb_true_r; try reflexivity.
      exfalso. exact (Hbad c cs eq_refl). }
    rewrite Hg. apply Hnil; auto.
  - intros i e Hi Hbad. unfold Download.process_metadata.
    assert (Hnil' : forall err : dl_error,
      throws (mkRun (outcome (@throw string err c1)) (clock_after (@throw string err c1))
                (events (fetch_metadata metadataCid aesKeyBase64 clock)
                 ++ events (@throw string err c1)))
      /\ forall ev j, ev ∈ events (fetch_metadata metadataCid aesKeyBase64 clock)
                           ++ events (@throw string err c1) ->
           chunk_position ev = Some j -> (j < i)%nat).
    { intros err.
      destruct (Hnil (fun ev => forall j, chunk_position ev = Some j -> (j < i)%nat) err)
        as [Ht Hev]; [|split; [exact Ht|intros ev j Hin; now apply Hev]].
      intros ev Hin j Hj. rewrite (Hpre ev Hin) in Hj. discriminate. }
    destruct (is_null metadata); [apply Hnil'|].
    destruct (negb (is_string (prop metadata "type") "dcs-chunked-file"));
      [apply Hnil'|].
    destruct (_ || _); [apply Hnil'|].
    destruct (_ || _); [apply Hnil'|].
    destruct (importKeyFromBase64 aesKeyBase64) as [aesKey|]; [|apply Hnil'].
    destruct (fetch_chunks_bad_entry aesKey (items_of (prop metadata "chunks"))
                0 c1 i e Hi Hbad) as [[err Herr] Hev].
    rewrite (bind_throws _ _ _ _ Herr). cbn [outcome events].
    split; [now exists err|].
    intros ev j Hin Hpos. apply elem_of_app in Hin as [Hin|Hin].
    + rewrite (Hpre ev Hin) in Hpos. discriminate.
    + exact (Hev ev j Hin Hpos).
Qed.

End Properties.

(** A run on a manifest whose two entries were swapped. *)
Definition swapped_manifest : jsval :=
  JObj [ ("type", JStr "dcs-chunked-file");
         ("filename", JStr "a.txt");
         ("chunks",
          JArr [ JObj [("index", JNum 1); ("cid", JStr "bafyone"); ("size", JNum 2)];
                 JObj [("index", JNum 0); ("cid", JStr "bafyzero"); ("size", JNum 2)] ]) ].

Definition demo_net (clock : nat) (url : string) : Gateway.fetch_outcome :=
  Gateway.Responded (Gateway.mkResponse 200 "OK" "" (inr [x7b; x7d])).

Definition demo_download : run string :=
  chunkedDownloadFile id demo_net (fun _ => Some swapped_manifest) unit
    (fun _ => Some tt) (fun _ _ _ ct => Some ct) "bafymeta" "a2V5" 0.

Example swapped_manifest_rejected :
  demo_download
  = mkRun (inl (ChunkIndexMismatch 0 (JNum 1))) 1 [FetchMetadata "bafymeta"].
Proof. vm_compute. reflexivity. Qed.

Lemma chunkedDownloadFile_rejects_bad_manifest_witness :
  let r := demo_download in
  ((prop swapped_manifest "type" <> JStr "dcs-chunked-file"
    \/ (forall c cs, prop swapped_manifest "chunks" <> JArr (c :: cs))) ->
   throws r /\ forall ev, ev ∈ events r -> chunk_position ev = None)
  /\ (forall i e,
        items_of (prop swapped_manifest "chunks") !! i = Some e ->
        prop e "index" <> JNum (Z.of_nat i) \/ validateCID (prop e "cid") = false ->
        throws r
        /\ forall ev j, ev ∈ events r -> chunk_position ev = Some j -> (j < i)%nat).
Proof.
  apply (chunkedDownloadFile_rejects_bad_manifest id demo_net
           (fun _ => Some swapped_manifest) unit (fun _ => Some tt)
           (fun _ _ _ ct => Some ct) "bafymeta" "a2V5" 0 swapped_manifest).
  vm_compute. reflexivity.
Defined.

(** *** A download that succeeds, and one that fails *)

Section Reassembly.

Variable encodeURIComponent : string -> string.
Variable net : nat -> string -> Gateway.fetch_outcome.
Variable JSON_parse : list byte -> option jsval.
Variable CryptoKey : Type.
Variable importKeyFromBase64 : string -> option CryptoKey.
Variable subtle_decrypt :
  CryptoKey -> list byte -> list byte -> list byte -> option (list byte).

Abbreviation fetch_chunks := (fetch_chunks encodeURIComponent net CryptoKey subtle_decrypt).
Abbreviation fetch_metadata := (fetch_metadata encodeURIComponent net JSON_parse).
Abbreviation process_metadata :=
  (process_metadata encodeURIComponent net CryptoKey importKeyFromBase64 subtle_decrypt).
Abbreviation chunkedDownloadFile :=
  (chunkedDownloadFile encodeURIComponent net JSON_parse CryptoKey
     importKeyFromBase64 subtle_decrypt).

Definition is_save (ev : event) : bool :=
  match ev with SaveFile _ _ _ => true | _ => false end.

(** The first gateway serves [blob] for [cid], whenever it is asked. *)
Definition served (cid : string) (blob : list byte) : Prop :=
  forall clock, exists r,
    net clock ("https://" +:+ cid +:+ ".ipfs.nftstorage.link") = Gateway.Responded r
    /\ Gateway.ok r = true /\ Gateway.blob r = inr blob.

Lemma try_gateways_hit (clock : nat) (url : string) (rest : list string)
    (r : Gateway.response) (blob : list byte) :
  net clock url = Gateway.Responded r ->
  Gateway.ok r = true -> Gateway.blob r = inr blob ->
  Gateway.try_gateways net clock (url :: rest)
  = Gateway.mkLoop (Some (blob, url)) [] [url].
Proof.
  intros Hnet Hok Hb. cbn [Gateway.try_gateways]. rewrite Hnet.
  unfold Gateway.attempt. now rewrite Hok, Hb.
Qed.

Lemma gateway_fetch_served (cid : string) (blob : list byte) (clock : nat) :
  cid_pattern cid = true -> served cid blob ->
  gateway_fetch encodeURIComponent net (JStr cid) clock = mkRun (inr blob) (S clock) [].
Proof.
  intros Hc Hs. unfold gateway_fetch, Gateway.fetchFromIPFSGateway.
  rewrite (Gateway.sanitizeCID_of_valid cid Hc).
  rewrite (Gateway.buildGatewayURLs_of_valid encodeURIComponent cid Hc).
  destruct (Hs clock) as (r & Hnet & Hok & Hb).
  rewrite (try_gateways_hit clock _ _ r blob Hnet Hok Hb).
  cbn [Gateway.found Gateway.result Gateway.requests Gateway.tried length].
  f_equal. lia.
Qed.

(** The loop emits chunk events only. *)
Lemma fetch_chunks_no_save (aesKey : CryptoKey) (chunks : list jsval) :
  forall i clock ev, ev ∈ events (fetch_chunks aesKey i chunks clock) -> is_save ev = false.
Proof.
  induction chunks as [|c rest IH]; intros i clock ev.
  { cbn. intros H. now apply elem_of_nil in H. }
  destruct (fetch_chunks_guard encodeURIComponent net CryptoKey subtle_decrypt
              aesKey i c rest clock) as [[err ->]|(H1 & H2 & H3 & H4)].
  { cbn. intros H. now apply elem_of_nil in H. }
  rewrite (fetch_chunks_step encodeURIComponent net CryptoKey subtle_decrypt
             aesKey i c rest clock H1 H2 H3 H4). cbn zeta.
  destruct (outcome (gateway_fetch _ _ _ _)) as [err|enc].
  { cbn. intros H. apply list_elem_of_singleton in H. now subst ev. }
  destruct (outcome (decrypt _ _ _ _ _ _)) as [err|dec]; cbn [events]; intros H.
  { apply elem_of_cons in H as [->|H]; [reflexivity|].
    apply list_elem_of_singleton in H. now subst ev. }
  apply elem_of_cons in H as [->|H]; [reflexivity|].
  apply elem_of_cons in H as [->|H]; [reflexivity|].
  eapply IH, H.
Qed.

Lemma fetch_metadata_no_save (metadataCid aesKeyBase64 : string) (clock : nat) :
  forall ev, ev ∈ events (fetch_metadata metadataCid aesKeyBase64 clock) ->
             is_save ev = false.
Proof.
  intros ev. unfold Download.fetch_metadata.
  destruct (_ || _); [intros H; now apply elem_of_nil in H|].
  destruct (String.eqb aesKeyBase64 ""); [intros H; now apply elem_of_nil in H|].
  unfold bind at 1. cbn [emit outcome clock_after events].
  unfold bind at 1. rewrite gateway_fetch_events.
  destruct (outcome (gateway_fetch _ _ _ _)) as [e|b].
  - cbn. intros H. apply list_elem_of_singleton in H. now subst ev.
  - cbn [events app outcome]. destruct (JSON_parse b); cbn;
      intros H; apply list_elem_of_singleton in H; now subst ev.
Qed.

(** X12. A download that fails saves nothing: whenever [chunkedDownloadFile]
    throws, at whatever point, no file has been handed to the browser; and
    when it returns, the file was saved once, as its last action. *)
Theorem failed_download_saves_nothing
    (metadataCid aesKeyBase64 : string) (clock : nat) :
  let r := chunkedDownloadFile metadataCid aesKeyBase64 clock in
  match outcome r with
  | inl _ => forall ev, ev ∈ events r -> is_save ev = false
  | inr filename =>
      exists before mimeType content,
        events r = before ++ [SaveFile filename mimeType content]
        /\ forall ev, ev ∈ before -> is_save ev = false
  end.
Proof.
  cbn zeta. unfold Download.chunkedDownloadFile.
  pose proof (fetch_metadata_no_save metadataCid aesKeyBase64 clock) as Hpre.
  destruct (outcome (fetch_metadata metadataCid aesKeyBase64 clock))
    as [e|metadata] eqn:Hmeta.
  { rewrite (bind_throws _ _ _ _ Hmeta). cbn [outcome events]. exact Hpre. }
  rewrite (bind_returns _ _ _ _ Hmeta). cbn [outcome events].
  set (c1 := clock_after _). set (pre := events _) in *.
  assert (Hthrow : forall err : dl_error,
    match outcome (@throw string err c1) with
    | inl _ => forall ev, ev ∈ pre ++ events (@throw string err c1) -> is_save ev = false
    | inr filename =>
        exists before mimeType content,
          pre ++ events (@throw string err c1)
          = before ++ [SaveFile filename mimeType content]
          /\ forall ev, ev ∈ before -> is_save ev = false
    end).
  { intros err. cbn. intros ev. rewrite app_nil_r. apply Hpre. }
  unfold Download.process_metadata.
  destruct (is_null metadata); [apply Hthrow|].
  destruct (negb (is_string (prop metadata "type") "dcs-chunked-file"));
    [apply Hthrow|].
  destruct (_ || _); [apply Hthrow|].
  destruct (_ || _); [apply Hthrow|].
  destruct (importKeyFromBase64 aesKeyBase64) as [aesKey|]; [|apply Hthrow].
  pose proof (fetch_chunks_no_save aesKey (items_of (prop metadata "chunks")) 0 c1)
    as Hchunks.
  destruct (outcome (fetch_chunks aesKey 0 (items_of (prop metadata "chunks")) c1))
    as [err|decrypted] eqn:Hout.
  - rewrite (bind_throws _ _ _ _ Hout). cbn [outcome events].
    intros ev Hin. apply elem_of_app in Hin as [Hin|Hin]; auto.
  - rewrite (bind_returns _ _ _ _ Hout). cbn [outcome events].
    unfold bind. cbn [emit ret outcome clock_after events].
    eexists (pre ++ events _), _, _. split.
    + rewrite app_nil_r, app_assoc. reflexivity.
    + intros ev Hin. apply elem_of_app in Hin as [Hin|Hin]; auto.
Qed.

(** Entry [entry] at position [i] is well formed, the gateway serves the
    blob of its cid, and that blob decrypts at index [i] to [plain]. *)
Definition chunk_served (aesKey : CryptoKey) (i : nat) (entry : jsval)
    (plain : list byte) : Prop :=
  exists cid blob,
    truthy entry = true
    /\ prop entry "index" = JNum (Z.of_nat i)
    /\ prop entry "cid" = JStr cid /\ cid_pattern cid = true
    /\ served cid blob
    /\ ChunkCipher.decryptChunk CryptoKey subtle_decrypt aesKey blob i
       = ChunkCipher.Ok plain.

Fixpoint chunks_served (aesKey : CryptoKey) (i : nat) (chunks : list jsval)
    (plains : list (list byte)) : Prop :=
  match chunks, plains with
  | [], [] => True
  | entry :: chunks', plain :: plains' =>
      chunk_served aesKey i entry plain /\ chunks_served aesKey (S i) chunks' plains'
  | _, _ => False
  end.

(** The chunk events of a complete pass over the entries. *)
Fixpoint chunk_events (i : nat) (chunks : list jsval) : list event :=
  match chunks with
  | [] => []
  | entry :: chunks' =>
      FetchChunk i (prop entry "cid") :: DecryptChunk i :: chunk_events (S i) chunks'
  end.

Lemma fetch_chunks_served (aesKey : CryptoKey) (chunks : list jsval) :
  forall plains i clock,
    chunks_served aesKey i chunks plains ->
    fetch_chunks aesKey i chunks clock
    = mkRun (inr plains) (clock + length chunks) (chunk_events i chunks).
Proof.
  induction chunks as [|c rest IH]; intros [|p plains] i clock H; cbn in H;
    try contradiction.
  { cbn. unfold ret. f_equal. lia. }
  destruct H as [(cid & blob & H1 & H2 & H3 & H4 & H5 & H6) Hrest].
  assert (Hindex : is_number (prop c "index") i = true)
    by (rewrite H2; now apply is_number_true).
  assert (Htruthy : truthy (prop c "cid") = true)
    by (rewrite H3; destruct cid; [discriminate H4|reflexivity]).
  assert (Hvalid : validateCID (prop c "cid") = true) by (rewrite H3; exact H4).
  rewrite (fetch_chunks_step encodeURIComponent net CryptoKey subtle_decrypt
             aesKey i c rest clock H1 Hindex Htruthy Hvalid).
  cbn zeta. rewrite H3. rewrite (gateway_fetch_served cid blob clock H4 H5).
  cbn [outcome clock_after]. unfold decrypt. rewrite H6.
  cbn [ret outcome clock_after]. rewrite (IH plains (S i) (S clock) Hrest).
  cbn [outcome clock_after events chunk_events length]. rewrite H3.
  f_equal. lia.
Qed.

(** The successful path of [chunkedDownloadFile], step by step. *)
Lemma download_succeeds
    (metadataCid aesKeyBase64 : string) (clock : nat) (metadataBlob : list byte)
    (metadata : jsval) (filename : string) (chunks : list jsval)
    (aesKey : CryptoKey) (plains : list (list byte)) :
  cid_pattern metadataCid = true -> aesKeyBase64 <> "" ->
  served metadataCid metadataBlob ->
  JSON_parse metadataBlob = Some metadata ->
  prop metadata "type" = JStr "dcs-chunked-file" ->
  prop metadata "filename" = JStr filename -> filename <> "" ->
  prop metadata "chunks" = JArr chunks -> chunks <> [] ->
  importKeyFromBase64 aesKeyBase64 = Some aesKey ->
  chunks_served aesKey 0 chunks plains ->
  chunkedDownloadFile metadataCid aesKeyBase64 clock
  = mkRun (inr filename) (clock + 1 + length chunks)
      (FetchMetadata metadataCid
       :: chunk_events 0 chunks
       ++ [SaveFile filename (prop metadata "mimeType") (concat plains)]).
Proof.
  intros Hcid Hkey Hmeta Hparse Htype Hname Hne Hchunks Hnonempty Himport Hserved.
  assert (Hfetch : fetch_metadata metadataCid aesKeyBase64 clock
                   = mkRun (inr metadata) (S clock) [FetchMetadata metadataCid]).
  { unfold Download.fetch_metadata.
    assert (E : String.eqb metadataCid "" = false).
    { apply String.eqb_neq. intros ->. discriminate. }
    rewrite E. unfold validateCID. cbn [js_String]. rewrite Hcid. cbn [negb orb].
    apply String.eqb_neq in Hkey. rewrite Hkey.
    unfold bind. cbn [emit outcome clock_after events].
    rewrite (gateway_fetch_served metadataCid metadataBlob clock Hcid Hmeta).
    cbn [outcome clock_after events]. now rewrite Hparse. }
  unfold Download.chunkedDownloadFile.
  rewrite (bind_returns _ _ _ metadata); rewrite Hfetch; [|reflexivity].
  cbn [outcome clock_after events].
  assert (Hnull : is_null metadata = false).
  { destruct metadata; try reflexivity; discriminate. }
  unfold Download.process_metadata.
  rewrite Hnull, Htype, Hchunks, Hname. cbn [is_string].
  rewrite String.eqb_refl. cbn [negb truthy isArray items_of orb typeof_string].
  assert (Hlen : (length chunks =? 0)%nat = false).
  { destruct chunks; [congruence|reflexivity]. }
  rewrite Hlen. apply String.eqb_neq in Hne. rewrite Hne. cbn [negb orb].
  rewrite Himport.
  pose proof (fetch_chunks_served aesKey chunks plains 0 (S clock) Hserved) as Hfc.
  rewrite (bind_returns _ _ _ plains) by (now rewrite Hfc).
  rewrite Hfc. cbn [outcome clock_after events].
  unfold bind, emit, ret. cbn [outcome clock_after events js_String].
  rewrite app_nil_r. cbn [app]. f_equal. lia.
Qed.

(** X13. A download that succeeds.  When the manifest at [metadataCid] is
    well formed (type, file name, and entries whose index is their position
    and whose cid matches the CID pattern), the gateway serves the manifest
    and every chunk, and every chunk decrypts at its position,
    [chunkedDownloadFile] makes one request for the manifest and one for
    each chunk, in order, and saves under the manifest's file name the
    plaintexts concatenated in order. *)
Theorem chunkedDownloadFile_reassembles
    (metadataCid aesKeyBase64 : string) (clock : nat) (metadataBlob : list byte)
    (metadata : jsval) (filename : string) (chunks : list jsval)
    (aesKey : CryptoKey) (plains : list (list byte)) :
  cid_pattern metadataCid = true -> aesKeyBase64 <> "" ->
  served metadataCid metadataBlob ->
  JSON_parse metadataBlob = Some metadata ->
  prop metadata "type" = JStr "dcs-chunked-file" ->
  prop metadata "filename" = JStr filename -> filename <> "" ->
  prop metadata "chunks" = JArr chunks -> chunks <> [] ->
  importKeyFromBase64 aesKeyBase64 = Some aesKey ->
  chunks_served aesKey 0 chunks plains ->
  chunkedDownloadFile metadataCid aesKeyBase64 clock
  = mkRun (inr filename) (clock + 1 + length chunks)
      (FetchMetadata metadataCid
       :: chunk_events 0 chunks
       ++ [SaveFile filename (prop metadata "mimeType") (concat plains)]).
Proof.
  exact (download_succeeds metadataCid aesKeyBase64 clock metadataBlob metadata
           filename chunks aesKey plains).
Qed.

End Reassembly.

(** A run on which the theorem is exercised: a manifest of two chunks, a
    gateway that serves the manifest and both chunks, and the stand-in
    cipher of [ChunkCipher]. *)
Definition good_manifest : jsval :=
  JObj [ ("type", JStr "dcs-chunked-file");
         ("filename", JStr "a.txt");
         ("mimeType", JStr "text/plain");
         ("chunks",
          JArr [ JObj [("index", JNum 0); ("cid", JStr "bafyzero"); ("size", JNum 2)];
                 JObj [("index", JNum 1); ("cid", JStr "bafyone"); ("size", JNum 1)] ]) ].

Definition packed_demo (plain : list byte) : list byte :=
  repeat x07 12 ++ ChunkCipher.plain_encrypt [] [] [] plain.

Definition good_net (clock : nat) (url : string) : Gateway.fetch_outcome :=
  if String.eqb url "https://bafymeta.ipfs.nftstorage.link"
  then Gateway.Responded (Gateway.mkResponse 200 "" "" (inr [x7b; x7d]))
  else if String.eqb url "https://bafyzero.ipfs.nftstorage.link"
  then Gateway.Responded (Gateway.mkResponse 200 "" "" (inr (packed_demo [x68; x69])))
  else if String.eqb url "https://bafyone.ipfs.nftstorage.link"
  then Gateway.Responded (Gateway.mkResponse 200 "" "" (inr (packed_demo [x21])))
  else Gateway.Responded (Gateway.mkResponse 404 "" "" (inr [])).

Lemma chunkedDownloadFile_reassembles_witness :
  chunkedDownloadFile id good_net (fun _ => Some good_manifest) (list byte)
    (fun _ => Some []) ChunkCipher.plain_decrypt "bafymeta" "a2V5" 0
  = mkRun (inr "a.txt") (0 + 1 + 2)
      (FetchMetadata "bafymeta"
       :: chunk_events 0 (items_of (prop good_manifest "chunks"))
       ++ [SaveFile "a.txt" (prop good_manifest "mimeType")
             (concat [[x68; x69]; [x21]])]).
Proof.
  apply (chunkedDownloadFile_reassembles id good_net (fun _ => Some good_manifest)
           (list byte) (fun _ => Some []) ChunkCipher.plain_decrypt
           "bafymeta" "a2V5" 0 [x7b; x7d] good_manifest "a.txt"
           (items_of (prop good_manifest "chunks")) [] [[x68; x69]; [x21]]);
    try reflexivity; try discriminate.
  - intros clock. eexists. repeat split; reflexivity.
  - cbn. repeat split.
    + exists "bafyzero", (packed_demo [x68; x69]).
      repeat split; try reflexivity.
      intros clock. eexists. repeat split; reflexivity.
    + exists "bafyone", (packed_demo [x21]).
      repeat split; try reflexivity.
      intros clock. eexists. repeat split; reflexivity.
Defined.

Example good_download_saves_the_file :
  chunkedDownloadFile id good_net (fun _ => Some good_manifest) (list byte)
    (fun _ => Some []) ChunkCipher.plain_decrypt "bafymeta" "a2V5" 0
  = mkRun (inr "a.txt") 3
      [ FetchMetadata "bafymeta";
        FetchChunk 0 (JStr "bafyzero"); DecryptChunk 0;
        FetchChunk 1 (JStr "bafyone"); DecryptChunk 1;
        SaveFile "a.txt" (JStr "text/plain") [x68; x69; x21] ].
Proof. vm_compute. reflexivity. Qed.

End Download.

(** ** Chunked upload: [chunkedUpload.ts] *)

Module Upload.

(** An entry of [state.uploaded]. *)
Record ChunkInfo := mkChunkInfo { cid : string; size : nat }.

(** [File]: [file.size] is the length of [content]. *)
Record File := mkFile { name : string; type : string; content : list byte }.

(** The wallet signer, as far as the upload calls it; [None] is a rejected
    promise. *)
Record Signer := mkSigner {
  getAddress : option string;
  requestEncryptionKeypair : option string      (* publicKeyBase64 *)
}.

(** [UploadOptions], defaults applied ([ownerAddr] is [""] when absent). *)
Record UploadOptions := mkOptions {
  ownerAddr : string;
  signer : option Signer;
  contractAddress : string;
  opt_chunkSize : nat;
  concurrency : nat;
  proxyUrl : string;
  autoRegister : bool
}.

(** One entry of the manifest's [chunks] array; [entry_cid] is
    [results[i]], which may be undefined. *)
Record ChunkEntry := mkEntry { index : nat; entry_cid : option string; entry_size : nat }.

Record Metadata := mkMetadata {
  meta_type : string;
  meta_filename : string;
  meta_mimeType : string;
  meta_fileSize : nat;
  meta_chunkSize : nat;
  meta_totalChunks : nat;
  chunks : list ChunkEntry;
  uploader : string;
  uploadedAt : nat
}.

(** Where a worker stands: between two of its [await]s. *)
Inductive phase :=
| Idle                                        (* at the head of [while (true)] *)
| AwaitSlice (i : nat)                        (* await slice.arrayBuffer() *)
| AwaitEncrypt (i : nat) (packed : list byte) (* await encryptChunk(...) *)
| AwaitUpload (i : nat) (call : nat) (packed : list byte)
                                              (* await uploadChunkWithRetries(...) *)
| AwaitGet (i : nat) (cid : string)           (* await get(sessionKey) *)
| AwaitSet (i : nat) (cid : string)           (* await set(sessionKey, state) *)
| Returned
| Threw (msg : string).

(** [generateUploadId]; [now] is [Date.now()] and [rnd] is
    [Math.random().toString(36).slice(2)]. *)
Definition generateUploadId (ownerAddr : string) (now : nat) (rnd : string) : string :=
  "upload_" +:+ ownerAddr +:+ "_" +:+ toString now +:+ "_" +:+ rnd.

(** [Math.ceil(totalSize / chunkSize)] for a positive [chunkSize]. *)
Definition ceil_div (totalSize chunkSize : nat) : nat :=
  ((totalSize + chunkSize - 1) / chunkSize)%nat.

Section Session.

Context {CryptoKey : Type}.

(** A string handled by the upload, with its derivation from key material
    kept visible: a string that does not come from the key, the base64
    export of a raw key, or the serialised output of [encryptForRecipient]. *)
Inductive text :=
| Public (s : string)
| KeyExport (k : CryptoKey)                   (* exportKeyToBase64(k) *)
| Sealed (publicKeyBase64 : string) (data : text).

(** Does the string show the raw key? *)
Definition exposes_key (t : text) : bool :=
  match t with
  | KeyExport _ => true
  | Public _ | Sealed _ _ => false
  end.

(** [interface UploadState] *)
Record UploadState := mkState {
  uploadId : string;
  filename : string;
  mimeType : string;
  fileSize : nat;
  chunkSize : nat;
  totalChunks : nat;
  uploaded : gmap nat ChunkInfo;
  encryptedAesForOwner : option text;
  metadataCid : option string;
  registeredAt : option nat;
  onChainTx : option string
}.

(** [!!state.encryptedAesForOwner] *)
Definition has_encrypted_key (st : UploadState) : bool :=
  match encryptedAesForOwner st with
  | None => false
  | Some (Public s) => negb (String.eqb s "")
  | Some _ => true
  end.

(** Every string stored in a session object. *)
Definition stored_strings (st : UploadState) : list text :=
  [Public (uploadId st); Public (filename st); Public (mimeType st)]
  ++ ((fun e => Public (cid e.2)) <$> map_to_list (uploaded st))
  ++ option_list (encryptedAesForOwner st)
  ++ option_list (Public <$> metadataCid st)
  ++ option_list (Public <$> onChainTx st).

(** A session object holds no raw key. *)
Definition key_free (st : UploadState) : Prop :=
  forall t, t ∈ stored_strings st -> exposes_key t = false.

(** What the upload does to the outside, in order. *)
Inductive event :=
| Claim (worker i : nat)                      (* [i = nextIndex++] *)
| UploadChunk (i : nat) (packed : list byte)  (* uploadChunkWithRetries(packed) *)
| Recorded (i : nat) (info : ChunkInfo)       (* [state.uploaded[i] = ...] *)
| Persist (key : string) (snapshot : UploadState)   (* set(key, state) *)
| PublishManifest (metadata : Metadata)       (* uploadMetadata(metadata) *)
| Register (metadataCid : string) (encrypted : text).

(** The platform and the services the upload talks to. *)
Record World := mkWorld {
  Date_now : nat;                             (* Date.now() at generateUploadId *)
  Math_random : string;
  now_seconds : nat;                          (* Math.floor(Date.now() / 1000) *)
  has_ethereum : bool;                        (* window.ethereum *)
  eth_decrypt : text -> string -> option text;
  import_raw : string -> option CryptoKey;    (* importKeyFromBase64 on a foreign string *)
  generateExtractableAESKey : CryptoKey;
  valid_public_key : string -> bool;          (* decodes to 32 bytes *)
  subtle_encrypt : CryptoKey -> list byte -> list byte -> list byte -> list byte;
  getRandomValues : nat -> list byte;         (* the 12 random bytes drawn for chunk i *)
  uploadChunkWithRetries : nat -> list byte -> string + string;
                                              (* call number, blob; [inl] is the thrown message *)
  uploadMetadata : Metadata -> string + string;
  registerOnChain : string -> text -> option string   (* the transaction hash *)
}.

(** [importKeyFromBase64] *)
Definition importKeyFromBase64 (w : World) (t : text) : option CryptoKey :=
  match t with
  | KeyExport k => Some k
  | Public s => if String.eqb s "" then None else import_raw w s
  | Sealed _ _ => None
  end.

(** [encryptForRecipient] followed by [JSON.stringify]; [None] when it throws. *)
Definition encryptForRecipient (w : World) (publicKeyBase64 : string) (data : text)
    : option text :=
  if String.eqb publicKeyBase64 "" then None
  else if negb (valid_public_key w publicKeyBase64) then None
  else Some (Sealed publicKeyBase64 data).

(** The variables that [processChunk] and [worker] close over and never
    assign. *)
Record Closure := mkClosure {
  file : File;
  cl_chunkSize : nat;
  totalSize : nat;
  cl_totalChunks : nat;
  sessionKey : string;
  aesCryptoKey : option CryptoKey
}.

(** The variables shared by the workers, IndexedDB, and the trace. *)
Record Pool := mkPool {
  nextIndex : nat;
  state : UploadState;
  results : gmap nat string;
  uploadedBytes : nat;
  idb : gmap string UploadState;
  workers : list phase;
  calls : nat;                                (* uploads started so far *)
  failure : option string;                    (* the first rejection, for Promise.all *)
  trace : list event
}.

(** The inner [while (nextIndex < totalChunks)]: the new [nextIndex] and the
    claimed index, if any.  [fuel] is [totalChunks - nextIndex]. *)
Fixpoint claim (fuel : nat) (nextIndex : nat) (uploaded : gmap nat ChunkInfo)
    : nat * option nat :=
  match fuel with
  | O => (nextIndex, None)
  | S fuel' =>
      match uploaded !! nextIndex with
      | None => (S nextIndex, Some nextIndex)
      | Some _ => claim fuel' (S nextIndex) uploaded
      end
  end.

Definition set_state_uploaded (st : UploadState) (i : nat) (info : ChunkInfo)
    : UploadState :=
  mkState (uploadId st) (filename st) (mimeType st) (fileSize st) (chunkSize st)
    (totalChunks st) (<[i := info]> (uploaded st)) (encryptedAesForOwner st)
    (metadataCid st) (registeredAt st) (onChainTx st).

Definition set_phase (w : nat) (ph : phase) (p : Pool) : Pool :=
  mkPool (nextIndex p) (state p) (results p) (uploadedBytes p) (idb p)
    (<[w := ph]> (workers p)) (calls p) (failure p) (trace p).

Definition emit (ev : event) (p : Pool) : Pool :=
  mkPool (nextIndex p) (state p) (results p) (uploadedBytes p) (idb p)
    (workers p) (calls p) (failure p) (trace p ++ [ev]).

Definition throw (w : nat) (msg : string) (p : Pool) : Pool :=
  mkPool (nextIndex p) (state p) (results p) (uploadedBytes p) (idb p)
    (<[w := Threw msg]> (workers p)) (calls p)
    (match failure p with Some m => Some m | None => Some msg end) (trace p).

Section Step.

Variable world : World.
Variable cl : Closure.

(** [start] and [end] of chunk [i] *)
Definition chunk_start (i : nat) : nat := (i * cl_chunkSize cl)%nat.
Definition chunk_end (i : nat) : nat :=
  Nat.min (chunk_start i + cl_chunkSize cl) (totalSize cl).

(** [file.slice(start, end)] *)
Definition file_slice (i : nat) : list byte :=
  take (chunk_end i - chunk_start i) (drop (chunk_start i) (content (file cl))).

(** The tail of [processChunk]: record the chunk in the session object and
    persist it. *)
Definition record (w i : nat) (cid : string) (p : Pool) : Pool :=
  let info := mkChunkInfo cid (chunk_end i - chunk_start i) in
  let st := set_state_uploaded (state p) i info in
  set_phase w (AwaitSet i cid)
    (mkPool (nextIndex p) st (results p) (uploadedBytes p + size info)
       (<[sessionKey cl := st]> (idb p)) (workers p) (calls p) (failure p)
       (trace p ++ [Recorded i info; Persist (sessionKey cl) st])).

(** One scheduling step of worker [w]: the code it runs from the [await] it
    is suspended at up to its next [await] (or its return or throw). *)
Definition step (w : nat) (p : Pool) : Pool :=
  match workers p !! w with
  | None => p
  | Some Idle =>
      let '(next, claimed) :=
        claim (cl_totalChunks cl - nextIndex p) (nextIndex p) (uploaded (state p)) in
      let p := mkPool next (state p) (results p) (uploadedBytes p) (idb p)
                 (workers p) (calls p) (failure p) (trace p) in
      match claimed with
      | None => set_phase w Returned p
      | Some i =>
          let p := emit (Claim w i) p in
          (* processChunk(i) *)
          match uploaded (state p) !! i with
          | Some _ => p
          | None => set_phase w (AwaitSlice i) p
          end
      end
  | Some (AwaitSlice i) =>
      match aesCryptoKey cl with
      | None => throw w "AES key not available" p
      | Some key =>
          let enc :=
            ChunkCipher.encryptChunk CryptoKey (subtle_encrypt world)
              (getRandomValues world i) key (file_slice i) i in
          set_phase w (AwaitEncrypt i (ChunkCipher.packed enc)) p
      end
  | Some (AwaitEncrypt i packed) =>
      let p := emit (UploadChunk i packed) p in
      set_phase w (AwaitUpload i (calls p) packed)
        (mkPool (nextIndex p) (state p) (results p) (uploadedBytes p) (idb p)
           (workers p) (S (calls p)) (failure p) (trace p))
  | Some (AwaitUpload i call packed) =>
      match uploadChunkWithRetries world call packed with
      | inl msg => throw w msg p
      | inr cid => set_phase w (AwaitGet i cid) p
      end
  | Some (AwaitGet i cid) =>
      match idb p !! sessionKey cl with
      | Some currentState =>
          match uploaded currentState !! i with
          | Some other =>
              set_phase w Idle
                (mkPool (nextIndex p) (state p)
                   (<[i := Upload.cid other]> (results p)) (uploadedBytes p)
                   (idb p) (workers p) (calls p) (failure p) (trace p))
          | None => record w i cid p
          end
      | None => record w i cid p
      end
  | Some (AwaitSet i cid) =>
      set_phase w Idle
        (mkPool (nextIndex p) (state p) (<[i := cid]> (results p))
           (uploadedBytes p) (idb p) (workers p) (calls p) (failure p) (trace p))
  | Some Returned => p
  | Some (Threw _) => p
  end.

(** A schedule names the worker that runs next, step after step. *)
Definition run_schedule (sched : list nat) (p : Pool) : Pool :=
  fold_left (fun p w => step w p) sched p.

End Step.

(** The outcome of a call of [chunkedUploadFile]: the promise resolves,
    rejects, or (when the schedule ends with workers still suspended) is
    still pending. *)
Inductive outcome :=
| Resolved (metadataCid : string) (metadata : Metadata) (sessionKey : string)
    (txReceipt : option string)
| Rejected (msg : string)
| Pending.

Record upload_run := mkRun {
  result : outcome;
  idb_after : gmap string UploadState;
  run_trace : list event
}.

(** What the code before the worker pool hands over to it. *)
Record Prepared := mkPrepared {
  prep_closure : Closure;
  prep_owner : string;
  prep_state : UploadState;
  prep_idb : gmap string UploadState;
  prep_trace : list event
}.

Definition resolve_owner (opts : UploadOptions) : string + string :=
  if negb (String.eqb (ownerAddr opts) "") then inr (ownerAddr opts)
  else
    match signer opts with
    | Some sg =>
        match getAddress sg with
        | Some a => inr a
        | None => inl "Failed to get address from signer"
        end
    | None =>
        inl "ownerAddr is required. Either provide it in opts or ensure signer is available."
    end.

Definition fresh_state (sessionKey : string) (f : File)
    (chunkSize totalSize totalChunks : nat) : UploadState :=
  mkState sessionKey (name f)
    (if String.eqb (type f) "" then "application/octet-stream" else type f)
    totalSize chunkSize totalChunks ∅ None None None None.

Definition set_encryptedAesForOwner (st : UploadState) (t : text) : UploadState :=
  mkState (uploadId st) (filename st) (mimeType st) (fileSize st) (chunkSize st)
    (totalChunks st) (uploaded st) (Some t) (metadataCid st) (registeredAt st)
    (onChainTx st).

Definition set_metadataCid (st : UploadState) (c : string) : UploadState :=
  mkState (uploadId st) (filename st) (mimeType st) (fileSize st) (chunkSize st)
    (totalChunks st) (uploaded st) (encryptedAesForOwner st) (Some c)
    (registeredAt st) (onChainTx st).

Definition set_registered (st : UploadState) (at_ : nat) (tx : string) : UploadState :=
  mkState (uploadId st) (filename st) (mimeType st) (fileSize st) (chunkSize st)
    (totalChunks st) (uploaded st) (encryptedAesForOwner st) (metadataCid st)
    (Some at_) (Some tx).

(** [chunkedUploadFile] up to "Upload chunks": option checks, the session
    key, the session state loaded or created, and the AES key. *)
Definition prepare (world : World) (opts : UploadOptions) (f : File)
    (idb0 : gmap string UploadState) : string + Prepared :=
  if String.eqb (proxyUrl opts) "" then inl "VITE_PROXY_URL must be set"
  else
    match resolve_owner opts with
    | inl msg => inl msg
    | inr owner =>
        if String.eqb owner "" || negb (startsWith "0x" owner)
        then inl "Invalid owner address"
        else if autoRegister opts
                && (negb (bool_decide (is_Some (signer opts)))
                    || String.eqb (contractAddress opts) "")
        then inl "autoRegister requires signer and contractAddress"
        else
          let sessionKey := generateUploadId owner (Date_now world) (Math_random world) in
          let totalSize := length (content f) in
          let chunkSize := opt_chunkSize opts in
          let totalChunks := ceil_div totalSize chunkSize in
          (* Load or create session state *)
          let state :=
            default (fresh_state sessionKey f chunkSize totalSize totalChunks)
              (idb0 !! sessionKey) in
          let closure key :=
            mkClosure f chunkSize totalSize totalChunks sessionKey (Some key) in
          if has_encrypted_key state then
            (* Check if resuming (encrypted key exists) *)
            if negb (has_ethereum world)
            then inl "MetaMask required to decrypt AES key for resume"
            else
              match encryptedAesForOwner state
                    ≫= fun enc => eth_decrypt world enc owner
                    ≫= importKeyFromBase64 world with
              | None => inl "Failed to decrypt AES key"
              | Some key => inr (mkPrepared (closure key) owner state idb0 [])
              end
          else
            (* Fresh session *)
            let genKey := generateExtractableAESKey world in
            let aesKeyBase64 := KeyExport genKey in
            match signer opts with
            | None =>
                if autoRegister opts
                then inl "Signer required for on-chain registration. Please connect your wallet."
                else inr (mkPrepared (closure genKey) owner state idb0 [])
            | Some sg =>
                match requestEncryptionKeypair sg
                      ≫= fun publicKeyBase64 =>
                            encryptForRecipient world publicKeyBase64 aesKeyBase64 with
                | Some encryptedStr =>
                    let state := set_encryptedAesForOwner state encryptedStr in
                    inr (mkPrepared (closure genKey) owner state
                           (<[sessionKey := state]> idb0)
                           [Persist sessionKey state])
                | None =>
                    if autoRegister opts
                    then inl "Failed to encrypt AES key for on-chain registration"
                    else inr (mkPrepared (closure genKey) owner state idb0 [])
                end
            end
    end.

(** The pool as [Promise.all(workers)] starts it.  All workers are at the
    head of their loop; the schedule decides who runs first (in the browser
    worker 0 does). *)
Definition init_pool (opts : UploadOptions) (prep : Prepared) : Pool :=
  mkPool 0
    (prep_state prep)
    (cid <$> uploaded (prep_state prep))
    (map_fold (fun _ info sum => sum + size info)%nat 0%nat (uploaded (prep_state prep)))
    (prep_idb prep)
    (replicate (concurrency opts) Idle)
    0 None (prep_trace prep).

(** The manifest's [chunks]: [None] when [state.uploaded[i]] is undefined
    for some [i], where the source throws a TypeError. *)
Definition build_chunks (totalChunks : nat) (results : gmap nat string)
    (uploaded : gmap nat ChunkInfo) : option (list ChunkEntry) :=
  mapM (fun i => (fun info => mkEntry i (results !! i) (size info)) <$> uploaded !! i)
    (seq 0 totalChunks).

(** [chunkedUploadFile] from "Build metadata" on. *)
Definition finish (world : World) (opts : UploadOptions) (prep : Prepared)
    (p : Pool) : upload_run :=
  let key := sessionKey (prep_closure prep) in
  let T := cl_totalChunks (prep_closure prep) in
  match build_chunks T (results p) (uploaded (state p)) with
  | None =>
      mkRun (Rejected "TypeError: Cannot read properties of undefined (reading 'size')")
        (idb p) (trace p)
  | Some chunks =>
      let st := state p in
      let metadata :=
        mkMetadata "dcs-chunked-file" (filename st) (mimeType st) (fileSize st)
          (chunkSize st) T chunks (prep_owner prep) (now_seconds world) in
      let tr := trace p ++ [PublishManifest metadata] in
      match uploadMetadata world metadata with
      | inl msg => mkRun (Rejected msg) (idb p) tr
      | inr metadataCid =>
          let st := set_metadataCid st metadataCid in
          let db := <[key := st]> (idb p) in
          let tr := tr ++ [Persist key st] in
          if autoRegister opts && bool_decide (is_Some (signer opts))
             && negb (String.eqb (contractAddress opts) "")
             && has_encrypted_key st
          then
            match encryptedAesForOwner st with
            | None => mkRun (Resolved metadataCid metadata key None) db tr
            | Some encryptedStr =>
                let tr := tr ++ [Register metadataCid encryptedStr] in
                match registerOnChain world metadataCid encryptedStr with
                | None => mkRun (Rejected "On-chain registration failed") db tr
                | Some tx =>
                    let st := set_registered st (now_seconds world) tx in
                    mkRun (Resolved metadataCid metadata key (Some tx))
                      (<[key := st]> db) (tr ++ [Persist key st])
                end
            end
          else mkRun (Resolved metadataCid metadata key None) db tr
      end
  end.

Definition is_returned (ph : phase) : bool :=
  match ph with Returned => true | _ => false end.

(** [chunkedUploadFile], run against IndexedDB content [idb0] under the
    schedule [sched] of its workers. *)
Definition chunkedUploadFile (world : World) (opts : UploadOptions) (f : File)
    (idb0 : gmap string UploadState) (sched : list nat) : upload_run :=
  match prepare world opts f idb0 with
  | inl msg => mkRun (Rejected msg) idb0 []
  | inr prep =>
      let p := run_schedule world (prep_closure prep) sched (init_pool opts prep) in
      match failure p with
      | Some msg => mkRun (Rejected msg) (idb p) (trace p)
      | None =>
          if forallb is_returned (workers p) then finish world opts prep p
          else mkRun Pending (idb p) (trace p)
      end
  end.

End Session.

(** *** The worker pool: invariant of every interleaving *)

Section PoolInvariant.
Context {CryptoKey : Type}.
Variable world : @World CryptoKey.
Variable cl : @Closure CryptoKey.
Variable U0 : gmap nat ChunkInfo.

#[local] Abbreviation Pool := (@Upload.Pool CryptoKey).
#[local] Abbreviation event := (@Upload.event CryptoKey).

Definition holding (ph : phase) : option nat :=
  match ph with
  | AwaitSlice i | AwaitEncrypt i _ | AwaitUpload i _ _ | AwaitGet i _ => Some i
  | _ => None
  end.

Definition before_upload (ph : phase) : option nat :=
  match ph with
  | AwaitSlice i | AwaitEncrypt i _ => Some i
  | _ => None
  end.

Definition claimed (tr : list event) : list nat :=
  omap (fun ev => match ev with Claim _ i => Some i | _ => None end) tr.
Definition uploads (tr : list event) : list nat :=
  omap (fun ev => match ev with UploadChunk i _ => Some i | _ => None end) tr.
Definition recorded (tr : list event) : list nat :=
  omap (fun ev => match ev with Recorded i _ => Some i | _ => None end) tr.

Record Inv (p : Pool) : Prop := mkInv {
  inv_next : (nextIndex p <= cl_totalChunks cl)%nat;
  inv_grow : forall i, is_Some (U0 !! i) -> is_Some (uploaded (state p) !! i);
  inv_hold : forall w ph i, workers p !! w = Some ph -> holding ph = Some i ->
      (i < nextIndex p)%nat /\ uploaded (state p) !! i = None;
  inv_unique : forall w w' ph ph' i,
      workers p !! w = Some ph -> workers p !! w' = Some ph' ->
      holding ph = Some i -> holding ph' = Some i -> w = w';
  inv_below : failure p = None -> forall i, (i < nextIndex p)%nat ->
      is_Some (uploaded (state p) !! i)
      \/ exists w ph, workers p !! w = Some ph /\ holding ph = Some i;
  inv_returned : forall w, workers p !! w = Some Returned ->
      nextIndex p = cl_totalChunks cl;
  inv_threw : forall w msg, workers p !! w = Some (Threw msg) -> is_Some (failure p);
  inv_store : forall s i, idb p !! sessionKey cl = Some s ->
      is_Some (uploaded s !! i) -> is_Some (uploaded (state p) !! i);
  inv_claimed_nodup : NoDup (claimed (trace p));
  inv_claimed : forall i, i ∈ claimed (trace p) ->
      (i < nextIndex p)%nat /\ U0 !! i = None;
  inv_held_claimed : forall w ph i, workers p !! w = Some ph -> holding ph = Some i ->
      i ∈ claimed (trace p);
  inv_uploads_nodup : NoDup (uploads (trace p));
  inv_uploads : forall i, i ∈ uploads (trace p) -> i ∈ claimed (trace p);
  inv_before : forall w ph i, workers p !! w = Some ph -> before_upload ph = Some i ->
      i ∉ uploads (trace p);
  inv_after : forall w ph i, workers p !! w = Some ph -> holding ph = Some i ->
      before_upload ph = None -> i ∈ uploads (trace p);
  inv_recorded_nodup : NoDup (recorded (trace p));
  inv_recorded : forall i, i ∈ recorded (trace p) <->
      (U0 !! i = None /\ is_Some (uploaded (state p) !! i));
  inv_recorded_uploads : forall i, i ∈ recorded (trace p) -> i ∈ uploads (trace p);
  inv_failure : forall msg, failure p = Some msg ->
      exists w m, workers p !! w = Some (Threw m)
}.

(** A rejection recorded for [Promise.all] stays witnessed by a worker that
    threw, when another worker changes phase. *)
Ltac keep_threw Hw inv :=
  let m := fresh "m" in let Hf := fresh "Hf" in
  let w0 := fresh "w0" in let m0 := fresh "m0" in let H0 := fresh "H0" in
  intros m Hf; destruct (inv m Hf) as (w0 & m0 & H0); exists w0, m0;
  rewrite list_lookup_insert_ne; [exact H0|];
  intros <-; rewrite Hw in H0; discriminate.

Lemma claim_spec (fuel n : nat) (U : gmap nat ChunkInfo) :
  forall T, fuel = (T - n)%nat ->
  match claim fuel n U with
  | (n', Some i) =>
      (n <= i < T)%nat /\ n' = S i /\ U !! i = None
      /\ forall j, (n <= j < i)%nat -> is_Some (U !! j)
  | (n', None) =>
      n' = Nat.max n T /\ forall j, (n <= j < T)%nat -> is_Some (U !! j)
  end.
Proof.
  revert n. induction fuel as [|fuel IH]; intros n T Hf; cbn.
  - split; [lia|]. intros j Hj. lia.
  - destruct (U !! n) as [info|] eqn:Hn.
    + specialize (IH (S n) T ltac:(lia)).
      destruct (claim fuel (S n) U) as [n' [i|]].
      * destruct IH as (H1 & H2 & H3 & H4). repeat split; try lia; auto.
        intros j Hj. destruct (decide (j = n)) as [->|]; [eauto|]. apply H4. lia.
      * destruct IH as (H1 & H2). split; [lia|].
        intros j Hj. destruct (decide (j = n)) as [->|]; [eauto|]. apply H2. lia.
    + repeat split; try lia; auto.
Qed.

Lemma claimed_snoc (tr : list event) (ev : event) :
  claimed (tr ++ [ev]) = claimed tr ++ match ev with Claim _ i => [i] | _ => [] end.
Proof. unfold claimed. rewrite omap_app. now destruct ev. Qed.
Lemma uploads_snoc (tr : list event) (ev : event) :
  uploads (tr ++ [ev]) = uploads tr ++ match ev with UploadChunk i _ => [i] | _ => [] end.
Proof. unfold uploads. rewrite omap_app. now destruct ev. Qed.
Lemma recorded_snoc (tr : list event) (ev : event) :
  recorded (tr ++ [ev]) = recorded tr ++ match ev with Recorded i _ => [i] | _ => [] end.
Proof. unfold recorded. rewrite omap_app. now destruct ev. Qed.

Lemma trace_record (tr : list event) (i : nat) (info : ChunkInfo) (k : string)
    (st : @UploadState CryptoKey) :
  claimed (tr ++ [Recorded i info; Persist k st]) = claimed tr
  /\ uploads (tr ++ [Recorded i info; Persist k st]) = uploads tr
  /\ recorded (tr ++ [Recorded i info; Persist k st]) = recorded tr ++ [i].
Proof.
  unfold claimed, uploads, recorded. rewrite !omap_app. cbn.
  now rewrite !app_nil_r.
Qed.

Ltac pool_simpl :=
  cbn [set_phase emit throw nextIndex state results uploadedBytes idb workers
       calls failure trace uploaded set_state_uploaded holding before_upload] in *;
  rewrite ?claimed_snoc, ?uploads_snoc, ?recorded_snoc, ?app_nil_r in *.

Ltac wc H :=
  apply list_lookup_insert_Some in H as [(? & ? & _)|(? & H)]; simplify_eq.

(** The invariant reads only these components of the pool. *)
Lemma inv_ext (p p' : Pool) :
  nextIndex p' = nextIndex p -> state p' = state p -> idb p' = idb p ->
  workers p' = workers p -> failure p' = failure p -> trace p' = trace p ->
  Inv p -> Inv p'.
Proof.
  intros E1 E2 E3 E4 E5 E6 I. destruct I.
  constructor; rewrite ?E1, ?E2, ?E3, ?E4, ?E5, ?E6; assumption.
Qed.

(** A worker moves on without changing the index it holds. *)
Lemma inv_rephase (p : Pool) (w : nat) (ph ph' : phase) :
  Inv p -> workers p !! w = Some ph ->
  holding ph' = holding ph -> before_upload ph' = before_upload ph ->
  ph' <> Returned -> (forall m, ph' <> Threw m) -> (forall m, ph <> Threw m) ->
  Inv (set_phase w ph' p).
Proof.
  intros I Hw Hh Hb Hr Ht Hnt.
  pose proof (lookup_lt_Some _ _ _ Hw) as Hlen.
  destruct I. constructor; pool_simpl.
  - (* next *) auto.
  - (* grow *) auto.
  - (* hold *) intros w0 ph0 i0 H0 Hh0. wc H0; [rewrite Hh in Hh0|]; eauto.
  - (* unique *) intros w1 w2 ph1 ph2 i0 H1 H2 Hh1 Hh2.
    wc H1; wc H2; rewrite ?Hh in *; eauto.
  - (* below *) intros Hf j Hj.
    destruct (inv_below0 Hf j Hj) as [Hd|(w0 & ph0 & H0 & Hh0)]; [now left|right].
    destruct (decide (w0 = w)) as [->|Hne].
    + exists w, ph'. split; [now apply list_lookup_insert_eq|].
      rewrite Hh. congruence.
    + exists w0, ph0. split; [|exact Hh0]. now rewrite list_lookup_insert_ne.
  - (* returned *) intros w0 H0. wc H0; eauto.
  - (* threw *) intros w0 msg H0. wc H0; [|eauto]. now destruct (Ht msg).
  - (* store *) auto.
  - (* claimed_nodup *) auto.
  - (* claimed *) auto.
  - (* held_claimed *) intros w0 ph0 i0 H0 Hh0. wc H0; [rewrite Hh in Hh0|]; eauto.
  - (* uploads_nodup *) auto.
  - (* uploads *) auto.
  - (* before *) intros w0 ph0 i0 H0 Hb0. wc H0; [rewrite Hb in Hb0|]; eauto.
  - (* after *) intros w0 ph0 i0 H0 Hh0 Hb0.
    wc H0; [rewrite Hh in Hh0; rewrite Hb in Hb0|]; eauto.
  - (* recorded_nodup *) auto.
  - (* recorded *) auto.
  - (* recorded_uploads *) auto.
  - (* failure *) intros m Hf. destruct (inv_failure0 m Hf) as (w0 & m0 & H0).
    exists w0, m0. rewrite list_lookup_insert_ne; [exact H0|].
    intros <-. rewrite Hw in H0. injection H0 as ->. now apply (Hnt m0).
Qed.

(** A worker throws. *)
Lemma inv_throw (p : Pool) (w : nat) (ph : phase) (msg : string) :
  Inv p -> workers p !! w = Some ph -> Inv (throw w msg p).
Proof.
  intros I Hw. destruct I. constructor; pool_simpl.
  - auto.
  - auto.
  - intros w0 ph0 i0 H0 Hh0. wc H0; cbn in *; simplify_eq; eauto.
  - intros w1 w2 ph1 ph2 i0 H1 H2 Hh1 Hh2.
    wc H1; wc H2; cbn in *; simplify_eq; eauto.
  - destruct (failure p); discriminate.
  - intros w0 H0. wc H0; eauto.
  - intros w0 m H0. destruct (failure p); eauto.
  - auto.
  - auto.
  - auto.
  - intros w0 ph0 i0 H0 Hh0. wc H0; cbn in *; simplify_eq; eauto.
  - auto.
  - auto.
  - intros w0 ph0 i0 H0 Hb0. wc H0; cbn in *; simplify_eq; eauto.
  - intros w0 ph0 i0 H0 Hh0 Hb0. wc H0; cbn in *; simplify_eq; eauto.
  - auto.
  - auto.
  - auto.
  - intros m Hf. exists w, msg. apply list_lookup_insert_eq.
    eapply lookup_lt_Some; eauto.
Qed.

Lemma step_inv (w : nat) (p : Pool) : Inv p -> Inv (step world cl w p).
Proof.
  intros I. unfold step.
  destruct (workers p !! w) as [ph|] eqn:Hw; [|exact I].
  pose proof (lookup_lt_Some _ _ _ Hw) as Hlen.
  destruct ph as [|i|i packed|i call packed|i c|i c| |msg]; try exact I.
  - (* Idle *)
    pose proof (claim_spec (cl_totalChunks cl - nextIndex p) (nextIndex p)
                  (uploaded (state p)) (cl_totalChunks cl) eq_refl) as Hc.
    destruct (claim _ _ _) as [n' [i|]].
    + (* index [i] is claimed *)
      destruct Hc as (Hi & -> & Hfree & Hskip).
      cbn [emit state uploaded trace]. rewrite Hfree.
      destruct I. constructor; pool_simpl.
      * lia.
      * auto.
      * intros w0 ph0 i0 H0 Hh. wc H0; cbn in *; simplify_eq.
        -- split; [lia|auto].
        -- destruct (inv_hold0 _ _ _ H0 Hh). split; [lia|auto].
      * intros w1 w2 ph1 ph2 i0 H1 H2 Hh1 Hh2.
        wc H1; wc H2; cbn in *; simplify_eq; eauto.
        -- destruct (inv_hold0 _ _ _ H2 Hh2). lia.
        -- destruct (inv_hold0 _ _ _ H1 Hh1). lia.
      * intros Hf j Hj.
        destruct (decide (j < nextIndex p)%nat) as [Hlt|Hge].
        -- destruct (inv_below0 Hf j Hlt) as [Hd|(w0 & ph0 & H0 & Hh)]; [now left|].
           right. exists w0, ph0. split; [|exact Hh].
           rewrite list_lookup_insert_ne; [exact H0|].
           intros <-. rewrite Hw in H0. injection H0 as <-. discriminate.
        -- destruct (decide (j = i)) as [->|Hne].
           ++ right. exists w, (AwaitSlice i). split; [|reflexivity].
              now apply list_lookup_insert_eq.
           ++ left. apply Hskip. lia.
      * intros w0 H0. wc H0.
        specialize (inv_returned0 _ H0). lia.
      * intros w0 msg H0. wc H0. eauto.
      * auto.
      * apply NoDup_app. split; [auto|]. split; [|apply NoDup_singleton].
        intros x Hx Hx'. apply list_elem_of_singleton in Hx'. subst x.
        destruct (inv_claimed0 _ Hx). lia.
      * intros x Hx. apply elem_of_app in Hx as [Hx|Hx].
        -- destruct (inv_claimed0 _ Hx). split; [lia|auto].
        -- apply list_elem_of_singleton in Hx. subst x. split; [lia|].
           destruct (U0 !! i) eqn:E; [|reflexivity].
           destruct (inv_grow0 i (mk_is_Some _ _ E)) as [? ?]. congruence.
      * intros w0 ph0 i0 H0 Hh. apply elem_of_app.
        wc H0; cbn in *; simplify_eq;
          [right; now apply list_elem_of_singleton|left; eauto].
      * auto.
      * intros x Hx. apply elem_of_app. left. auto.
      * intros w0 ph0 i0 H0 Hb. wc H0; cbn in *; simplify_eq.
        -- intros Hx. apply inv_uploads0, inv_claimed0 in Hx. lia.
        -- eauto.
      * intros w0 ph0 i0 H0 Hh Hb. wc H0; cbn in *; simplify_eq; eauto.
      * auto.
      * auto.
      * auto.
      * keep_threw Hw inv_failure0.
    + (* no index left: the worker returns *)
      destruct Hc as (-> & Hskip).
      destruct I. constructor; pool_simpl.
      * lia.
      * auto.
      * intros w0 ph0 i0 H0 Hh. wc H0; cbn in *; simplify_eq.
        destruct (inv_hold0 _ _ _ H0 Hh). split; [lia|auto].
      * intros w1 w2 ph1 ph2 i0 H1 H2 Hh1 Hh2.
        wc H1; wc H2; cbn in *; simplify_eq; eauto.
      * intros Hf j Hj.
        destruct (decide (j < nextIndex p)%nat) as [Hlt|Hge].
        -- destruct (inv_below0 Hf j Hlt) as [Hd|(w0 & ph0 & H0 & Hh)]; [now left|].
           right. exists w0, ph0. split; [|exact Hh].
           rewrite list_lookup_insert_ne; [exact H0|].
           intros <-. rewrite Hw in H0. injection H0 as <-. discriminate.
        -- left. apply Hskip. lia.
      * intros w0 H0. lia.
      * intros w0 msg H0. wc H0. eauto.
      * auto.
      * auto.
      * intros x Hx. destruct (inv_claimed0 _ Hx). split; [lia|auto].
      * intros w0 ph0 i0 H0 Hh. wc H0; cbn in *; simplify_eq; eauto.
      * auto.
      * auto.
      * intros w0 ph0 i0 H0 Hb. wc H0; cbn in *; simplify_eq; eauto.
      * intros w0 ph0 i0 H0 Hh Hb. wc H0; cbn in *; simplify_eq; eauto.
      * auto.
      * auto.
      * auto.
      * keep_threw Hw inv_failure0.
  - (* AwaitSlice *)
    destruct (aesCryptoKey cl) as [key|].
    + eapply inv_rephase; eauto; discriminate.
    + eapply inv_throw; eauto.
  - (* AwaitEncrypt: the upload starts *)
    apply (inv_ext (set_phase w (AwaitUpload i (calls p) packed)
                      (emit (UploadChunk i packed) p))); try reflexivity.
    destruct I. constructor; pool_simpl.
    + auto.
    + auto.
    + intros w0 ph0 i0 H0 Hh. wc H0; cbn in *; simplify_eq; eauto.
    + intros w1 w2 ph1 ph2 i0 H1 H2 Hh1 Hh2.
      wc H1; wc H2; cbn in *; simplify_eq; eauto.
    + intros Hf j Hj. destruct (inv_below0 Hf j Hj) as [Hd|(w0 & ph0 & H0 & Hh0)];
        [now left|right].
      destruct (decide (w0 = w)) as [->|Hne].
      * exists w, (AwaitUpload i (calls p) packed).
        split; [now apply list_lookup_insert_eq|].
        rewrite Hw in H0. now injection H0 as <-.
      * exists w0, ph0. split; [|exact Hh0]. now rewrite list_lookup_insert_ne.
    + intros w0 H0. wc H0; eauto.
    + intros w0 msg H0. wc H0; eauto.
    + auto.
    + auto.
    + auto.
    + intros w0 ph0 i0 H0 Hh. wc H0; cbn in *; simplify_eq; eauto.
    + apply NoDup_app. split; [auto|]. split; [|apply NoDup_singleton].
      intros x Hx Hx'. apply list_elem_of_singleton in Hx'. subst x.
      exact (inv_before0 _ _ _ Hw eq_refl Hx).
    + intros x Hx. apply elem_of_app in Hx as [Hx|Hx]; [auto|].
      apply list_elem_of_singleton in Hx. subst x. eauto.
    + intros w0 ph0 i0 H0 Hb. wc H0; cbn in *; simplify_eq.
      intros Hx. apply elem_of_app in Hx as [Hx|Hx]; [exact (inv_before0 _ _ _ H0 Hb Hx)|].
      apply list_elem_of_singleton in Hx. subst i0.
      assert (w0 = w); [|congruence].
      eapply inv_unique0; eauto. destruct ph0; cbn in *; congruence.
    + intros w0 ph0 i0 H0 Hh Hb. apply elem_of_app.
      wc H0; cbn in *; simplify_eq; [right; now apply list_elem_of_singleton|left; eauto].
    + auto.
    + auto.
    + intros x Hx. apply elem_of_app. left. auto.
    + keep_threw Hw inv_failure0.
  - (* AwaitUpload *)
    destruct (uploadChunkWithRetries world call packed) as [msg|c].
    + eapply inv_throw; eauto.
    + eapply inv_rephase; eauto; discriminate.
  - (* AwaitGet *)
    assert (Hheld : (i < nextIndex p)%nat /\ uploaded (state p) !! i = None)
      by (destruct I; eauto).
    destruct Hheld as [Hin Hfree].
    assert (Hrec : Inv (record cl w i c p)).
    { unfold record.
      destruct (trace_record (trace p) i
                  (mkChunkInfo c (chunk_end cl i - chunk_start cl i)) (sessionKey cl)
                  (set_state_uploaded (state p) i
                     (mkChunkInfo c (chunk_end cl i - chunk_start cl i))))
        as (Ec & Eu & Er).
      destruct I. constructor; pool_simpl; rewrite ?Ec, ?Eu, ?Er.
      - auto.
      - intros j Hj. apply lookup_insert_is_Some'. right. auto.
      - intros w0 ph0 i0 H0 Hh. wc H0; cbn in *; simplify_eq.
        destruct (inv_hold0 _ _ _ H0 Hh) as [? ?]. split; [auto|].
        rewrite lookup_insert_ne; [auto|].
        intros <-. apply H. eapply inv_unique0; eauto.
      - intros w1 w2 ph1 ph2 i0 H1 H2 Hh1 Hh2.
        wc H1; wc H2; cbn in *; simplify_eq; eauto.
      - intros Hf j Hj.
        destruct (inv_below0 Hf j Hj) as [Hd|(w0 & ph0 & H0 & Hh0)].
        + left. apply lookup_insert_is_Some'. now right.
        + destruct (decide (w0 = w)) as [->|Hne].
          * left. rewrite Hw in H0. injection H0 as <-. cbn in Hh0.
            injection Hh0 as <-. apply lookup_insert_is_Some'. now left.
          * right. exists w0, ph0. split; [|exact Hh0].
            now rewrite list_lookup_insert_ne.
      - intros w0 H0. wc H0; eauto.
      - intros w0 msg H0. wc H0; eauto.
      - intros s0 j Hs Hj. rewrite lookup_insert_eq in Hs. injection Hs as <-.
        exact Hj.
      - auto.
      - auto.
      - intros w0 ph0 i0 H0 Hh. wc H0; cbn in *; simplify_eq; eauto.
      - auto.
      - auto.
      - intros w0 ph0 i0 H0 Hb. wc H0; cbn in *; simplify_eq; eauto.
      - intros w0 ph0 i0 H0 Hh Hb. wc H0; cbn in *; simplify_eq; eauto.
      - apply NoDup_app. split; [auto|]. split; [|apply NoDup_singleton].
        intros x Hx Hx'. apply list_elem_of_singleton in Hx'. subst x.
        apply inv_recorded0 in Hx as [_ [? Hx]]. congruence.
      - intros x. rewrite elem_of_app, list_elem_of_singleton, inv_recorded0.
        rewrite lookup_insert_is_Some'. split.
        + intros [[? ?]| ->]; [tauto|]. split; [|now left].
          eapply inv_claimed0, inv_held_claimed0; eauto; reflexivity.
        + intros [? [-> | ?]]; [now right|left; tauto].
      - intros x Hx. apply elem_of_app in Hx as [Hx|Hx]; [auto|].
        apply list_elem_of_singleton in Hx. subst x.
        eapply inv_after0; eauto; reflexivity.
      - keep_threw Hw inv_failure0. }
    destruct (idb p !! sessionKey cl) as [cs|] eqn:Hdb; [|exact Hrec].
    destruct (uploaded cs !! i) as [other|] eqn:Hother; [|exact Hrec].
    exfalso. destruct I.
    destruct (inv_store0 cs i Hdb (mk_is_Some _ _ Hother)) as [? ?]. congruence.
  - (* AwaitSet *)
    apply (inv_ext (set_phase w Idle p)); try reflexivity.
    eapply inv_rephase; eauto; discriminate.
Qed.

(** The invariant holds along every schedule. *)
Lemma run_schedule_inv (sched : list nat) (p : Pool) :
  Inv p -> Inv (run_schedule world cl sched p).
Proof.
  revert p. induction sched as [|w sched IH]; intros p I; [exact I|].
  apply IH, step_inv, I.
Qed.
End PoolInvariant.

(** *** The worker pool: what a completed run has done *)

Section PoolResults.
Context {CryptoKey : Type}.
Variable world : @World CryptoKey.
Variable cl : @Closure CryptoKey.

#[local] Abbreviation Pool := (@Upload.Pool CryptoKey).
#[local] Abbreviation event := (@Upload.event CryptoKey).

(** The pool as [chunkedUploadFile] starts it satisfies the invariant. *)
Lemma init_inv (p : Pool) :
  nextIndex p = 0%nat ->
  Forall (fun ph => ph = Idle) (workers p) ->
  failure p = None ->
  claimed (trace p) = [] -> uploads (trace p) = [] -> recorded (trace p) = [] ->
  (idb p !! sessionKey cl = None \/ idb p !! sessionKey cl = Some (state p)) ->
  Inv cl (uploaded (state p)) p.
Proof.
  intros Hn Hws Hf Hc Hu Hr Hdb.
  assert (Hidle : forall w ph, workers p !! w = Some ph -> ph = Idle).
  { intros w ph Hw. eapply Forall_lookup in Hws; eauto. }
  constructor; rewrite ?Hn, ?Hc, ?Hu, ?Hr.
  - lia.
  - auto.
  - intros w ph i Hw Hh. apply Hidle in Hw. now subst.
  - intros w w' ph ph' i Hw _ Hh. apply Hidle in Hw. now subst.
  - intros _ i Hi. lia.
  - intros w Hw. now apply Hidle in Hw.
  - intros w msg Hw. now apply Hidle in Hw.
  - intros s i Hs Hi. destruct Hdb as [Hdb|Hdb]; rewrite Hdb in Hs; [discriminate|].
    now injection Hs as <-.
  - constructor.
  - intros i Hi. now apply elem_of_nil in Hi.
  - intros w ph i Hw Hh. apply Hidle in Hw. now subst.
  - constructor.
  - intros i Hi. now apply elem_of_nil in Hi.
  - intros w ph i Hw Hh. apply Hidle in Hw. now subst.
  - intros w ph i Hw Hh. apply Hidle in Hw. now subst.
  - constructor.
  - intros i. split; [intros Hi; now apply elem_of_nil in Hi|].
    intros [H1 [x H2]]. congruence.
  - intros i Hi. now apply elem_of_nil in Hi.
  - intros msg Hm. congruence.
Qed.

Lemma step_workers_length (w : nat) (p : Pool) :
  length (workers (step world cl w p)) = length (workers p).
Proof.
  unfold step. destruct (workers p !! w) as [ph|]; [|reflexivity].
  destruct ph; cbn; try reflexivity.
  - destruct (claim _ _ _) as [n [i|]]; cbn; [|now rewrite length_insert].
    destruct (uploaded (state p) !! i); cbn; [reflexivity|now rewrite length_insert].
  - destruct (aesCryptoKey cl); cbn; now rewrite length_insert.
  - now rewrite length_insert.
  - destruct (uploadChunkWithRetries _ _ _); cbn; now rewrite length_insert.
  - unfold record. destruct (idb p !! sessionKey cl) as [s|];
      [destruct (uploaded s !! i)|]; cbn; now rewrite length_insert.
  - now rewrite length_insert.
Qed.

Lemma run_schedule_workers_length (sched : list nat) (p : Pool) :
  length (workers (run_schedule world cl sched p)) = length (workers p).
Proof.
  revert p. induction sched as [|w sched IH]; intros p; [reflexivity|].
  cbn. unfold run_schedule in IH. rewrite IH. apply step_workers_length.
Qed.

(** The indices of [0 .. T-1] that the session did not hold at the start. *)
Definition missing (U0 : gmap nat ChunkInfo) (T : nat) : list nat :=
  filter (fun i => U0 !! i = None) (seq 0 T).

Lemma elem_of_missing (U0 : gmap nat ChunkInfo) (T i : nat) :
  i ∈ missing U0 T <-> (i < T)%nat /\ U0 !! i = None.
Proof.
  unfold missing. rewrite list_elem_of_filter, elem_of_seq. split; intros [? ?]; split; auto; lia.
Qed.

Lemma NoDup_missing (U0 : gmap nat ChunkInfo) (T : nat) : NoDup (missing U0 T).
Proof. apply NoDup_filter, NoDup_seq. Qed.

(** When every worker has returned, every index is recorded in the session,
    and the indices claimed, uploaded and recorded are exactly the missing
    ones, each once. *)
Lemma all_returned (U0 : gmap nat ChunkInfo) (p : Pool) :
  Inv cl U0 p ->
  (0 < length (workers p))%nat ->
  Forall (fun ph => ph = Returned) (workers p) ->
  let T := cl_totalChunks cl in
  failure p = None
  /\ (forall i, (i < T)%nat -> is_Some (uploaded (state p) !! i))
  /\ claimed (trace p) ≡ₚ missing U0 T
  /\ uploads (trace p) ≡ₚ missing U0 T
  /\ recorded (trace p) ≡ₚ missing U0 T.
Proof.
  intros I Hlen Hall T.
  assert (Hret : forall w ph, workers p !! w = Some ph -> ph = Returned).
  { intros w ph Hw. eapply Forall_lookup in Hall; eauto. }
  destruct I.
  assert (Hf : failure p = None).
  { destruct (failure p) as [msg|] eqn:E; [|reflexivity].
    destruct (inv_failure0 msg eq_refl) as (w & m & Hw).
    apply Hret in Hw. discriminate. }
  assert (Hn : nextIndex p = T).
  { destruct (lookup_lt_is_Some_2 (workers p) 0%nat Hlen) as [ph Hw].
    pose proof (Hret _ _ Hw). subst ph. eauto. }
  assert (Hdone : forall i, (i < T)%nat -> is_Some (uploaded (state p) !! i)).
  { intros i Hi. rewrite <- Hn in Hi.
    destruct (inv_below0 Hf i Hi) as [Hd|(w & ph & Hw & Hh)]; [exact Hd|].
    apply Hret in Hw. subst ph. discriminate. }
  assert (Hrec : forall i, i ∈ recorded (trace p) <-> i ∈ missing U0 T).
  { intros i. rewrite elem_of_missing, inv_recorded0. split.
    - intros [H1 H2]. split; [|exact H1].
      assert (Hi : i ∈ recorded (trace p)) by (apply inv_recorded0; auto).
      apply inv_recorded_uploads0, inv_uploads0, inv_claimed0 in Hi. lia.
    - intros [H1 H2]. auto. }
  assert (Hupl : forall i, i ∈ uploads (trace p) <-> i ∈ missing U0 T).
  { intros i. split.
    - intros Hi. apply elem_of_missing.
      apply inv_uploads0, inv_claimed0 in Hi. split; [lia|tauto].
    - intros Hi. apply inv_recorded_uploads0, Hrec, Hi. }
  assert (Hcl : forall i, i ∈ claimed (trace p) <-> i ∈ missing U0 T).
  { intros i. split.
    - intros Hi. apply elem_of_missing. apply inv_claimed0 in Hi. split; [lia|tauto].
    - intros Hi. apply inv_uploads0, Hupl, Hi. }
  repeat split; auto; apply NoDup_Permutation; auto using NoDup_missing.
Qed.


Lemma missing_empty (T : nat) : missing ∅ T = seq 0 T.
Proof.
  unfold missing. induction (seq 0 T) as [|x l IH]; [reflexivity|].
  rewrite filter_cons_True by apply lookup_empty. now rewrite IH.
Qed.

End PoolResults.

(** *** The whole call *)

Section Whole.
Context {CryptoKey : Type}.
Variable world : @World CryptoKey.

#[local] Abbreviation Pool := (@Upload.Pool CryptoKey).
#[local] Abbreviation event := (@Upload.event CryptoKey).
#[local] Abbreviation UploadState := (@Upload.UploadState CryptoKey).

(** What [prepare] hands to the pool. *)
Lemma prepare_spec (opts : UploadOptions) (f : File) (idb0 : gmap string UploadState)
    (prep : Prepared) :
  prepare world opts f idb0 = inr prep ->
  let key := sessionKey (prep_closure prep) in
  key = generateUploadId (prep_owner prep) (Date_now world) (Math_random world)
  /\ cl_totalChunks (prep_closure prep)
     = ceil_div (length (content f)) (opt_chunkSize opts)
  /\ is_Some (aesCryptoKey (prep_closure prep))
  /\ (prep_trace prep = [] \/ prep_trace prep = [Persist key (prep_state prep)])
  /\ (prep_idb prep !! key = None /\ prep_idb prep = idb0
      /\ uploaded (prep_state prep) = ∅
      \/ prep_idb prep !! key = Some (prep_state prep))
  /\ (idb0 !! key = None -> uploaded (prep_state prep) = ∅).
Proof.
  unfold prepare. intros H.
  destruct (String.eqb (proxyUrl opts) ""); [discriminate|].
  destruct (resolve_owner opts) as [msg|owner]; [discriminate|].
  destruct (_ || _); [discriminate|].
  destruct (_ && _); [discriminate|].
  set (key := generateUploadId owner (Date_now world) (Math_random world)) in *.
  set (fresh := fresh_state key f _ _ _) in *.
  assert (Hfin : forall (cl : @Closure CryptoKey) st db tr,
    sessionKey cl = key ->
    cl_totalChunks cl = ceil_div (length (content f)) (opt_chunkSize opts) ->
    is_Some (aesCryptoKey cl) ->
    (tr = [] \/ tr = [Persist key st]) ->
    (db !! key = None /\ db = idb0 /\ uploaded st = ∅ \/ db !! key = Some st) ->
    (idb0 !! key = None -> uploaded st = ∅) ->
    @inr string _ (mkPrepared cl owner st db tr) = inr prep ->
    let k := sessionKey (prep_closure prep) in
    k = generateUploadId (prep_owner prep) (Date_now world) (Math_random world)
    /\ cl_totalChunks (prep_closure prep)
       = ceil_div (length (content f)) (opt_chunkSize opts)
    /\ is_Some (aesCryptoKey (prep_closure prep))
    /\ (prep_trace prep = [] \/ prep_trace prep = [Persist k (prep_state prep)])
    /\ (prep_idb prep !! k = None /\ prep_idb prep = idb0
        /\ uploaded (prep_state prep) = ∅
        \/ prep_idb prep !! k = Some (prep_state prep))
    /\ (idb0 !! k = None -> uploaded (prep_state prep) = ∅)).
  { intros cl st db tr Hk HT Ha Htr Hdb Hfr [= <-]. cbn. rewrite Hk. auto 10. }
  destruct (idb0 !! key) as [s|] eqn:Hdb; cbn [default from_option id] in H.
  - assert (Hno : idb0 !! key = None -> uploaded s = ∅) by congruence.
    destruct (has_encrypted_key s).
    + destruct (negb (has_ethereum world)); [discriminate|].
      destruct (_ ≫= _) as [k|]; [|discriminate].
      revert H. apply Hfin; cbn; eauto; try congruence.
    + destruct (signer opts) as [sg|].
      * destruct (_ ≫= _) as [enc|].
        -- revert H. apply Hfin; cbn; eauto; try congruence.
           right. apply lookup_insert_eq.
        -- destruct (autoRegister opts); [discriminate|].
           revert H. apply Hfin; cbn; eauto; try congruence.
      * destruct (autoRegister opts); [discriminate|].
        revert H. apply Hfin; cbn; eauto; try congruence.
  - change (has_encrypted_key fresh) with false in H. cbn iota in H.
    destruct (signer opts) as [sg|].
    + destruct (_ ≫= _) as [enc|].
      * revert H. apply Hfin; cbn; eauto; try congruence.
        right. apply lookup_insert_eq.
      * destruct (autoRegister opts); [discriminate|].
        revert H. apply Hfin; cbn; eauto; try congruence.
    + destruct (autoRegister opts); [discriminate|].
      revert H. apply Hfin; cbn; eauto; try congruence.
Qed.

Lemma prepare_inv (opts : UploadOptions) (f : File) (idb0 : gmap string UploadState)
    (prep : Prepared) :
  prepare world opts f idb0 = inr prep ->
  Inv (prep_closure prep) (uploaded (prep_state prep)) (init_pool opts prep).
Proof.
  intros H. destruct (prepare_spec _ _ _ _ H) as (_ & _ & _ & Htr & Hdb & _).
  change (Inv (prep_closure prep) (uploaded (state (init_pool opts prep)))
            (init_pool opts prep)).
  apply init_inv; cbn.
  - reflexivity.
  - apply Forall_replicate. reflexivity.
  - reflexivity.
  - destruct Htr as [-> | ->]; reflexivity.
  - destruct Htr as [-> | ->]; reflexivity.
  - destruct Htr as [-> | ->]; reflexivity.
  - destruct Hdb as [(Hn & _)|Hs]; auto.
Qed.



(** *** No raw key in a persisted session *)

Lemma elem_of_option_list {A} (x : A) (mx : option A) :
  x ∈ option_list mx <-> mx = Some x.
Proof.
  destruct mx as [y|]; cbn.
  - rewrite list_elem_of_singleton. split; congruence.
  - split; [intros H; now apply elem_of_nil in H|discriminate].
Qed.

(** Only [encryptedAesForOwner] can hold a string that derives from the
    key: every other stored string is public. *)
Lemma key_free_iff (st : UploadState) :
  key_free st <-> forall t, encryptedAesForOwner st = Some t -> exposes_key t = false.
Proof.
  unfold key_free, stored_strings. split.
  - intros H t Ht. apply H. rewrite !elem_of_app. right; right; left.
    now apply elem_of_option_list.
  - intros H t Ht. rewrite !elem_of_app in Ht.
    destruct Ht as [Ht|[Ht|[Ht|[Ht|Ht]]]].
    + repeat (apply elem_of_cons in Ht as [->|Ht]; [reflexivity|]).
      now apply elem_of_nil in Ht.
    + apply list_elem_of_fmap in Ht as (e & -> & _). reflexivity.
    + apply elem_of_option_list in Ht. auto.
    + apply elem_of_option_list in Ht.
      destruct (metadataCid st); cbn in Ht; [now injection Ht as <-|discriminate].
    + apply elem_of_option_list in Ht.
      destruct (onChainTx st); cbn in Ht; [now injection Ht as <-|discriminate].
Qed.

(** The session objects handed to [set]. *)
Definition persisted (tr : list event) : list UploadState :=
  omap (fun ev => match ev with Persist _ s => Some s | _ => None end) tr.

Lemma persisted_app (tr tr' : list event) :
  persisted (tr ++ tr') = persisted tr ++ persisted tr'.
Proof. apply omap_app. Qed.

Lemma elem_of_persisted (tr : list event) (k : string) (s : UploadState) :
  Persist k s ∈ tr -> s ∈ persisted tr.
Proof. intros H. apply list_elem_of_omap. exists (Persist k s). auto. Qed.

(** The session in memory, IndexedDB and everything written so far are free
    of the raw key. *)
Record Safe (p : Pool) : Prop := mkSafe {
  safe_state : key_free (state p);
  safe_idb : forall k s, idb p !! k = Some s -> key_free s;
  safe_trace : Forall key_free (persisted (trace p))
}.

Lemma safe_same (p p' : Pool) :
  state p' = state p -> idb p' = idb p -> persisted (trace p') = persisted (trace p) ->
  Safe p -> Safe p'.
Proof. intros E1 E2 E3 [? ? ?]. constructor; rewrite ?E1, ?E2, ?E3; auto. Qed.

Lemma step_safe (cl : Closure) (w : nat) (p : Pool) :
  Safe p -> Safe (step world cl w p).
Proof.
  intros S. unfold step.
  destruct (workers p !! w) as [ph|]; [|exact S].
  destruct ph as [|i|i packed|i call packed|i c|i c| |msg]; try exact S.
  - destruct (claim _ _ _) as [n [i|]].
    + cbn [emit state uploaded]. destruct (uploaded (state p) !! i);
        (eapply safe_same; [..|exact S]; cbn; try reflexivity;
         rewrite persisted_app; cbn; now rewrite app_nil_r).
    + eapply safe_same; [..|exact S]; reflexivity.
  - destruct (aesCryptoKey cl); (eapply safe_same; [..|exact S]; reflexivity).
  - eapply safe_same; [..|exact S]; cbn; try reflexivity.
    rewrite persisted_app. cbn. now rewrite app_nil_r.
  - destruct (uploadChunkWithRetries _ _ _);
      (eapply safe_same; [..|exact S]; reflexivity).
  - assert (Hrec : Safe (record cl w i c p)).
    { destruct S as [Hst Hdb Htr]. unfold record.
      assert (Hnew : key_free (set_state_uploaded (state p) i
                        (mkChunkInfo c (chunk_end cl i - chunk_start cl i)))).
      { apply key_free_iff. cbn. now apply key_free_iff. }
      constructor; cbn.
      - exact Hnew.
      - intros k s Hs. apply lookup_insert_Some in Hs as [[_ <-]|[_ Hs]]; eauto.
      - rewrite persisted_app. apply Forall_app. split; [exact Htr|].
        cbn. constructor; [exact Hnew|constructor]. }
    destruct (idb p !! sessionKey cl) as [s|]; [|exact Hrec].
    destruct (uploaded s !! i); [|exact Hrec].
    eapply safe_same; [..|exact S]; reflexivity.
  - eapply safe_same; [..|exact S]; reflexivity.
Qed.

Lemma run_schedule_safe (cl : Closure) (sched : list nat) (p : Pool) :
  Safe p -> Safe (run_schedule world cl sched p).
Proof.
  revert p. induction sched as [|w sched IH]; intros p S; [exact S|].
  apply IH, step_safe, S.
Qed.

Lemma sealed_hides (sg : Signer) (k : CryptoKey) (enc : text) :
  (requestEncryptionKeypair sg
   ≫= fun publicKeyBase64 => encryptForRecipient world publicKeyBase64 (KeyExport k))
  = Some enc ->
  exposes_key enc = false.
Proof.
  destruct (requestEncryptionKeypair sg) as [pk|]; cbn; [|discriminate].
  unfold encryptForRecipient.
  destruct (String.eqb pk ""); [discriminate|].
  destruct (negb _); [discriminate|]. now intros [= <-].
Qed.

Lemma prepare_safe (opts : UploadOptions) (f : File) (idb0 : gmap string UploadState)
    (prep : Prepared) :
  (forall k s, idb0 !! k = Some s -> key_free s) ->
  prepare world opts f idb0 = inr prep ->
  Safe (init_pool opts prep).
Proof.
  intros Hdb0. unfold prepare. intros H.
  destruct (String.eqb (proxyUrl opts) ""); [discriminate|].
  destruct (resolve_owner opts) as [msg|owner]; [discriminate|].
  destruct (_ || _); [discriminate|].
  destruct (_ && _); [discriminate|].
  set (key := generateUploadId owner (Date_now world) (Math_random world)) in *.
  set (fresh := fresh_state key f _ _ _) in *.
  set (st := default fresh (idb0 !! key)) in *.
  assert (Hst : key_free st).
  { subst st. destruct (idb0 !! key) as [s|] eqn:E; cbn; [eauto|].
    apply key_free_iff. cbn. discriminate. }
  assert (Hplain : forall cl, Safe (init_pool opts (mkPrepared cl owner st idb0 []))).
  { intros cl. constructor; cbn; auto. }
  assert (Hsealed : forall cl enc, exposes_key enc = false ->
    Safe (init_pool opts
            (mkPrepared cl owner (set_encryptedAesForOwner st enc)
               (<[key := set_encryptedAesForOwner st enc]> idb0)
               [Persist key (set_encryptedAesForOwner st enc)]))).
  { intros cl enc Henc.
    assert (Hnew : key_free (set_encryptedAesForOwner st enc)).
    { apply key_free_iff. cbn. now intros t [= <-]. }
    constructor; cbn.
    - exact Hnew.
    - intros k s Hs. apply lookup_insert_Some in Hs as [[_ <-]|[_ Hs]]; eauto.
    - constructor; [exact Hnew|constructor]. }
  destruct (has_encrypted_key st).
  - destruct (negb (has_ethereum world)); [discriminate|].
    destruct (_ ≫= _) as [k|]; [|discriminate].
    injection H as <-. apply Hplain.
  - destruct (signer opts) as [sg|].
    + destruct (_ ≫= _) as [enc|] eqn:Henc.
      * injection H as <-. apply Hsealed. eapply sealed_hides; eauto.
      * destruct (autoRegister opts); [discriminate|].
        injection H as <-. apply Hplain.
    + destruct (autoRegister opts); [discriminate|].
      injection H as <-. apply Hplain.
Qed.

Lemma finish_safe (opts : UploadOptions) (prep : Prepared) (p : Pool) :
  Safe p ->
  let r := finish world opts prep p in
  Forall key_free (persisted (run_trace r))
  /\ forall k s, idb_after r !! k = Some s -> key_free s.
Proof.
  intros [Hst Hdb Htr]. unfold finish.
  destruct (build_chunks _ _ _) as [chunks|]; cbn zeta; [|cbn; auto].
  destruct (uploadMetadata world _) as [msg|mc]; cbn [run_trace idb_after].
  { split; [|exact Hdb]. rewrite persisted_app. cbn. now rewrite app_nil_r. }
  set (st1 := set_metadataCid (state p) mc).
  assert (H1 : key_free st1).
  { apply key_free_iff. cbn. now apply key_free_iff. }
  assert (Hdb1 : forall k s,
    <[sessionKey (prep_closure prep) := st1]> (idb p) !! k = Some s -> key_free s).
  { intros k s Hs. apply lookup_insert_Some in Hs as [[_ <-]|[_ Hs]]; eauto. }
  match goal with
  | |- context [trace p ++ [PublishManifest ?m]] => set (md := m)
  end.
  assert (Htr1 : Forall key_free
    (persisted ((trace p ++ [PublishManifest md])
                ++ [Persist (sessionKey (prep_closure prep)) st1]))).
  { rewrite !persisted_app. cbn. rewrite app_nil_r.
    apply Forall_app. split; [exact Htr|]. constructor; [exact H1|constructor]. }
  destruct (_ && _); [|cbn; auto].
  destruct (encryptedAesForOwner st1) as [enc|] eqn:Henc; [|cbn; auto].
  destruct (registerOnChain world mc enc) as [tx|]; cbn [run_trace idb_after].
  - set (st2 := set_registered st1 (now_seconds world) tx).
    assert (H2 : key_free st2).
    { apply key_free_iff. cbn. now apply key_free_iff. }
    split.
    + rewrite persisted_app. apply Forall_app. split.
      * rewrite persisted_app. apply Forall_app. split; [exact Htr1|]. constructor.
      * cbn. constructor; [exact H2|constructor].
    + intros k s Hs. apply lookup_insert_Some in Hs as [[_ <-]|[_ Hs]]; eauto.
  - split; [|exact Hdb1].
    rewrite persisted_app. apply Forall_app. split; [exact Htr1|]. constructor.
Qed.

(** C1. If IndexedDB holds no raw key when [chunkedUploadFile] is called,
    then on every path of the call and under every interleaving of its
    workers, every session object passed to [set] is free of the raw key and
    of its base64 export (the only key-derived string it can hold is the
    owner-encrypted [encryptedAesForOwner]), and so is everything in
    IndexedDB afterwards. *)
Theorem persisted_sessions_hold_no_raw_key
    (opts : UploadOptions) (f : File) (idb0 : gmap string UploadState)
    (sched : list nat) :
  (forall k s, idb0 !! k = Some s -> key_free s) ->
  let r := chunkedUploadFile world opts f idb0 sched in
  (forall k snapshot, Persist k snapshot ∈ run_trace r -> key_free snapshot)
  /\ (forall k s, idb_after r !! k = Some s -> key_free s).
Proof.
  intros Hdb0 r.
  assert (H : Forall key_free (persisted (run_trace r))
              /\ forall k s, idb_after r !! k = Some s -> key_free s).
  { subst r. unfold chunkedUploadFile.
    destruct (prepare world opts f idb0) as [msg|prep] eqn:Hprep.
    { cbn. split; [constructor|exact Hdb0]. }
    pose proof (run_schedule_safe (prep_closure prep) sched _
                  (prepare_safe _ _ _ _ Hdb0 Hprep)) as S.
    destruct (failure _); [destruct S; cbn; auto|].
    destruct (forallb _ _); [|destruct S; cbn; auto].
    now apply finish_safe. }
  destruct H as [Htr Hdb]. split; [|exact Hdb].
  intros k s Hin. rewrite Forall_forall in Htr.
  eapply Htr, elem_of_persisted, Hin.
Qed.

End Whole.

(** *** A later call on the same file *)

(** A decimal numeral has no underscore. *)
Lemma string_of_uint_digits (d : Decimal.uint) :
  string_forallb is_digit (NilEmpty.string_of_uint d) = true.
Proof. induction d; cbn; auto. Qed.

Lemma app_sep_inj (a b r r' : string) :
  string_forallb is_digit a = true -> string_forallb is_digit b = true ->
  a +:+ "_" +:+ r = b +:+ "_" +:+ r' -> a = b.
Proof.
  revert b. induction a as [|c a IH]; intros [|c' b] Ha Hb E; cbn in *.
  - reflexivity.
  - injection E as <- _. cbn in Hb. discriminate.
  - injection E as -> _. cbn in Ha. discriminate.
  - injection E as <- E.
    apply andb_prop in Ha as [_ Ha]. apply andb_prop in Hb as [_ Hb].
    f_equal. eauto.
Qed.

Lemma string_app_inv_head (p s t : string) : p +:+ s = p +:+ t -> s = t.
Proof. induction p as [|c p IH]; cbn; [auto|]. intros [= E]. auto. Qed.

(** Two calls at different times compute different session keys. *)
Lemma generateUploadId_distinct (ownerAddr : string) (now now' : nat) (rnd rnd' : string) :
  now <> now' ->
  generateUploadId ownerAddr now rnd <> generateUploadId ownerAddr now' rnd'.
Proof.
  intros Hne E. unfold generateUploadId in E.
  apply (string_app_inv_head "upload_") in E.
  apply string_app_inv_head in E.
  apply (string_app_inv_head "_") in E.
  apply app_sep_inj in E; try apply string_of_uint_digits.
  now apply toString_inj in E.
Qed.

Section Resume.
Context {CryptoKey : Type}.
Variable world : @World CryptoKey.
#[local] Abbreviation UploadState := (@Upload.UploadState CryptoKey).

(** The pool on a session, loaded or new: when all workers have returned,
    exactly the indices the session did not hold were uploaded, each once. *)
Lemma pool_uploads_missing
    (opts : UploadOptions) (f : File) (idb0 : gmap string UploadState)
    (prep : Prepared) (sched : list nat) :
  prepare world opts f idb0 = inr prep ->
  (0 < concurrency opts)%nat ->
  let T := cl_totalChunks (prep_closure prep) in
  let p := run_schedule world (prep_closure prep) sched (init_pool opts prep) in
  Forall (fun ph => ph = Returned) (workers p) ->
  uploads (trace p) ≡ₚ missing (uploaded (prep_state prep)) T
  /\ forall i, (i < T)%nat -> is_Some (uploaded (state p) !! i).
Proof.
  intros Hprep HC T p Hall.
  pose proof (run_schedule_inv world _ _ sched _ (prepare_inv world _ _ _ _ Hprep)) as I.
  fold p in I.
  destruct (all_returned _ _ p I) as (_ & Hdone & _ & Hu & _); auto.
  unfold p. rewrite run_schedule_workers_length. cbn.
  now rewrite length_replicate.
Qed.

(** A call made at another time than the calls that wrote the stored
    sessions of this owner finds none of them and starts from an empty
    session. *)
Lemma later_call_starts_fresh
    (opts : UploadOptions) (f : File) (idb0 : gmap string UploadState)
    (prep : Prepared) :
  prepare world opts f idb0 = inr prep ->
  (forall k, is_Some (idb0 !! k) ->
     exists now rnd, k = generateUploadId (prep_owner prep) now rnd
                     /\ now <> Date_now world) ->
  uploaded (prep_state prep) = ∅.
Proof.
  intros Hprep Hkeys.
  destruct (prepare_spec world _ _ _ _ Hprep) as (Hk & _ & _ & _ & _ & Hfresh).
  apply Hfresh.
  destruct (idb0 !! sessionKey (prep_closure prep)) as [s|] eqn:E; [|reflexivity].
  destruct (Hkeys _ (mk_is_Some _ _ E)) as (now & rnd & Hk' & Hne).
  rewrite Hk in Hk'. symmetry in Hk'.
  now apply generateUploadId_distinct in Hk'.
Qed.

(** Hence a later call uploads every chunk of the file, whatever the stored
    sessions already hold. *)
Lemma later_call_uploads_every_chunk
    (opts : UploadOptions) (f : File) (idb0 : gmap string UploadState)
    (prep : Prepared) (sched : list nat) :
  prepare world opts f idb0 = inr prep ->
  (forall k, is_Some (idb0 !! k) ->
     exists now rnd, k = generateUploadId (prep_owner prep) now rnd
                     /\ now <> Date_now world) ->
  (0 < concurrency opts)%nat ->
  let p := run_schedule world (prep_closure prep) sched (init_pool opts prep) in
  Forall (fun ph => ph = Returned) (workers p) ->
  uploads (trace p) ≡ₚ seq 0 (cl_totalChunks (prep_closure prep)).
Proof.
  intros Hprep Hkeys HC p Hall.
  destruct (pool_uploads_missing opts f idb0 prep sched Hprep HC Hall) as [Hu _].
  fold p in Hu. rewrite Hu.
  rewrite (later_call_starts_fresh opts f idb0 prep Hprep Hkeys).
  now rewrite missing_empty.
Qed.

Lemma build_chunks_indices (T : nat) (results : gmap nat string)
    (uploaded : gmap nat ChunkInfo) (cs : list ChunkEntry) :
  build_chunks T results uploaded = Some cs -> index <$> cs = seq 0 T.
Proof.
  unfold build_chunks. generalize (seq 0 T). intros l. revert cs.
  induction l as [|i l IH]; intros cs; cbn.
  - now intros [= <-].
  - destruct (uploaded !! i) as [info|]; cbn; [|discriminate].
    destruct (mapM _ l) as [cs'|]; cbn; [|discriminate].
    intros [= <-]. cbn. f_equal. now apply IH.
Qed.

(** A published manifest lists each index of [0 .. T-1] exactly once, in
    order. *)
Lemma manifest_lists_each_index_once
    (opts : UploadOptions) (f : File) (idb0 : gmap string UploadState)
    (sched : list nat) (c : string) (m : Metadata) (k : string) (tx : option string) :
  result (chunkedUploadFile world opts f idb0 sched) = Resolved c m k tx ->
  index <$> chunks m = seq 0 (meta_totalChunks m).
Proof.
  unfold chunkedUploadFile.
  destruct (prepare world opts f idb0) as [msg|prep]; [discriminate|].
  destruct (failure _); [discriminate|].
  destruct (forallb _ _); [|discriminate].
  unfold finish.
  destruct (build_chunks _ _ _) as [cs|] eqn:Hcs; [|discriminate].
  apply build_chunks_indices in Hcs.
  cbn zeta. destruct (uploadMetadata world _); [discriminate|].
  destruct (_ && _).
  - destruct (encryptedAesForOwner _).
    + destruct (registerOnChain _ _ _); [|discriminate].
      now intros [= _ <- _ _].
    + now intros [= _ <- _ _].
  - now intros [= _ <- _ _].
Qed.

End Resume.

(** *** Every pool comes to an end *)

Definition finished (ph : phase) : bool :=
  match ph with
  | Returned | Threw _ => true
  | _ => false
  end.

(** How many steps a worker is from the head of its loop. *)
Definition rank (ph : phase) : nat :=
  match ph with
  | AwaitSlice _ => 6
  | AwaitEncrypt _ _ => 5
  | AwaitUpload _ _ _ => 4
  | AwaitGet _ _ => 3
  | AwaitSet _ _ => 2
  | Idle => 1
  | Returned | Threw _ => 0
  end.

(** The first worker that has neither returned nor thrown. *)
Definition next_unfinished (ws : list phase) : option nat :=
  fst <$> list_find (fun ph => finished ph = false) ws.

Section Progress.
Context {CryptoKey : Type}.
Variable world : @World CryptoKey.
Variable cl : @Closure CryptoKey.
#[local] Abbreviation Pool := (@Upload.Pool CryptoKey).

Definition measure (p : Pool) : nat :=
  (7 * (cl_totalChunks cl - nextIndex p) + sum_list (rank <$> workers p))%nat.

(** The schedule that always runs the first unfinished worker. *)
Fixpoint drive (fuel : nat) (p : Pool) : list nat :=
  match fuel with
  | O => []
  | S fuel' =>
      match next_unfinished (workers p) with
      | None => []
      | Some w => w :: drive fuel' (step world cl w p)
      end
  end.

Lemma sum_rank_insert (ws : list phase) (w : nat) (ph ph' : phase) :
  ws !! w = Some ph ->
  (sum_list (rank <$> <[w := ph']> ws) + rank ph
   = sum_list (rank <$> ws) + rank ph')%nat.
Proof.
  revert w. induction ws as [|x ws IH]; intros [|w] H; cbn in *; try discriminate.
  - injection H as ->. lia.
  - specialize (IH w H). rewrite <- !Nat.add_assoc. f_equal. exact IH.
Qed.

Lemma step_measure (w : nat) (p : Pool) (ph : phase) :
  workers p !! w = Some ph -> finished ph = false ->
  (measure (step world cl w p) < measure p)%nat.
Proof.
  intros Hw Hf. unfold step. rewrite Hw. unfold measure.
  assert (Hset : forall ph' (q : Pool),
    workers q = workers p ->
    (sum_list (rank <$> workers (set_phase w ph' q)) + rank ph
     = sum_list (rank <$> workers p) + rank ph')%nat).
  { intros ph' q Hq. cbn. rewrite Hq. now apply sum_rank_insert. }
  destruct ph as [|i|i packed|i call packed|i c|i c| |msg]; try discriminate.
  - pose proof (claim_spec (cl_totalChunks cl - nextIndex p) (nextIndex p)
                  (uploaded (state p)) (cl_totalChunks cl) eq_refl) as Hc.
    destruct (claim _ _ _) as [n' [i|]].
    + destruct Hc as (Hi & -> & Hfree & _).
      cbn [emit state uploaded]. rewrite Hfree.
      match goal with |- context [set_phase w ?ph' ?q] =>
        pose proof (Hset ph' q eq_refl) as E end.
      cbn [rank nextIndex set_phase emit] in *. lia.
    + destruct Hc as (-> & _).
      match goal with |- context [set_phase w ?ph' ?q] =>
        pose proof (Hset ph' q eq_refl) as E end.
      cbn [rank nextIndex set_phase] in *. lia.
  - destruct (aesCryptoKey cl).
    + pose proof (Hset (AwaitEncrypt i (ChunkCipher.packed
                   (ChunkCipher.encryptChunk CryptoKey (subtle_encrypt world)
                      (getRandomValues world i) c (file_slice cl i) i))) p eq_refl) as E.
      cbn [rank nextIndex set_phase] in *. lia.
    + pose proof (sum_rank_insert (workers p) w _ (Threw "AES key not available") Hw) as E.
      cbn [rank nextIndex throw workers] in *. lia.
  - pose proof (sum_rank_insert (workers p) w _ (AwaitUpload i (calls p) packed) Hw) as E.
    cbn [rank nextIndex set_phase emit workers calls] in *. lia.
  - destruct (uploadChunkWithRetries world call packed) as [msg|c].
    + pose proof (sum_rank_insert (workers p) w _ (Threw msg) Hw) as E.
      cbn [rank nextIndex throw workers] in *. lia.
    + pose proof (Hset (AwaitGet i c) p eq_refl) as E.
      cbn [rank nextIndex set_phase] in *. lia.
  - assert (Hrec : (7 * (cl_totalChunks cl - nextIndex (record cl w i c p))
                    + sum_list (rank <$> workers (record cl w i c p))
                    < 7 * (cl_totalChunks cl - nextIndex p)
                      + sum_list (rank <$> workers p))%nat).
    { unfold record.
      pose proof (sum_rank_insert (workers p) w _ (AwaitSet i c) Hw) as E.
      cbn [rank nextIndex set_phase workers] in *. lia. }
    destruct (idb p !! sessionKey cl) as [s|]; [|exact Hrec].
    destruct (uploaded s !! i); [|exact Hrec].
    pose proof (sum_rank_insert (workers p) w _ Idle Hw) as E.
    cbn [rank nextIndex set_phase workers] in *. lia.
  - pose proof (sum_rank_insert (workers p) w _ Idle Hw) as E.
    cbn [rank nextIndex set_phase workers] in *. lia.
Qed.

Lemma next_unfinished_Some (ws : list phase) (w : nat) :
  next_unfinished ws = Some w ->
  exists ph, ws !! w = Some ph /\ finished ph = false.
Proof.
  unfold next_unfinished. destruct (list_find _ ws) as [[i ph]|] eqn:E; [|discriminate].
  intros [= <-]. apply list_find_Some in E as (H1 & H2 & _). eauto.
Qed.

Lemma next_unfinished_None (ws : list phase) :
  next_unfinished ws = None -> Forall (fun ph => finished ph = true) ws.
Proof.
  unfold next_unfinished. destruct (list_find _ ws) as [[i ph]|] eqn:E; [discriminate|].
  intros _. apply list_find_None in E.
  eapply Forall_impl; [exact E|]. intros ph H. cbn in H.
  now destruct (finished ph).
Qed.

(** With fuel for its measure the pool runs until every worker has returned
    or thrown: [Promise.all] settles. *)
Lemma drive_finishes (fuel : nat) :
  forall p : Pool, (measure p <= fuel)%nat ->
  Forall (fun ph => finished ph = true)
    (workers (run_schedule world cl (drive fuel p) p)).
Proof.
  induction fuel as [|fuel IH]; intros p Hm; cbn [drive].
  - destruct (next_unfinished (workers p)) as [w|] eqn:E;
      [|now apply next_unfinished_None].
    apply next_unfinished_Some in E as (ph & Hw & Hf).
    pose proof (step_measure w p ph Hw Hf). lia.
  - destruct (next_unfinished (workers p)) as [w|] eqn:E;
      [|now apply next_unfinished_None].
    apply next_unfinished_Some in E as (ph & Hw & Hf).
    pose proof (step_measure w p ph Hw Hf).
    cbn. apply IH. lia.
Qed.

End Progress.

Section Settles.
Context {CryptoKey : Type}.
Variable world : @World CryptoKey.

Lemma finish_settles (opts : UploadOptions) (prep : @Prepared CryptoKey)
    (p : @Upload.Pool CryptoKey) :
  result (finish world opts prep p) <> Pending.
Proof.
  unfold finish.
  repeat match goal with
         | |- context [match ?x with _ => _ end] => destruct x
         | |- context [if ?x then _ else _] => destruct x
         end; cbn; discriminate.
Qed.

(** Whatever the inputs, some interleaving of the workers brings
    [chunkedUploadFile] to a resolution or a rejection. *)
Lemma chunkedUploadFile_settles (opts : UploadOptions) (f : File)
    (idb0 : gmap string UploadState) :
  exists sched, result (chunkedUploadFile world opts f idb0 sched) <> Pending.
Proof.
  unfold chunkedUploadFile.
  destruct (prepare world opts f idb0) as [msg|prep] eqn:Hprep.
  { exists []. cbn. discriminate. }
  set (cl := prep_closure prep). set (p0 := init_pool opts prep).
  exists (drive world cl (measure cl p0) p0). cbn zeta.
  pose proof (drive_finishes world cl (measure cl p0) p0 (le_n _)) as Hfin.
  pose proof (run_schedule_inv world cl _ (drive world cl (measure cl p0) p0) p0
                (prepare_inv world opts f idb0 prep Hprep)) as I.
  fold cl p0.
  destruct (failure (run_schedule world cl _ p0)) as [msg|] eqn:Hfail;
    [cbn; discriminate|].
  assert (Hret : forallb is_returned (workers (run_schedule world cl
                   (drive world cl (measure cl p0) p0) p0)) = true).
  { apply forallb_forall. intros ph Hin.
    apply list_elem_of_In, list_elem_of_lookup in Hin as [w Hw].
    eapply Forall_lookup in Hfin; [|exact Hw].
    destruct ph; try discriminate; [reflexivity|].
    destruct (inv_threw _ _ _ I w msg Hw) as [m Hm]. congruence. }
  rewrite Hret. apply finish_settles.
Qed.

End Settles.

(** *** Concrete runs *)

(** A world whose proxy names the [n]-th uploaded blob ["bafychunk<n>"] and
    rejects the upload number [fail_at]; keys are byte strings and the
    cipher is the stand-in of [ChunkCipher]. *)
Definition demo_world (fail_at : option nat) (now : nat) : @World (list byte) :=
  mkWorld now "k3x9" 17 true
    (fun _ _ => None) (fun _ => None) [x2a]
    (fun _ => true)
    ChunkCipher.plain_encrypt
    (fun i => repeat x07 12)
    (fun call packed =>
       if decide (fail_at = Some call) then inl "Upload failed: 503"
       else inr ("bafychunk" +:+ toString call))
    (fun _ => inr "bafymeta")
    (fun _ _ => Some "0xtx").

(** A 10-byte file cut in chunks of 2 bytes: 5 chunks. *)
Definition demo_file : File :=
  mkFile "a.bin" "" [x00; x01; x02; x03; x04; x05; x06; x07; x08; x09].

Definition demo_opts (concurrency : nat) : UploadOptions :=
  mkOptions "0xabc" None "" 2 concurrency "https://proxy" false.

Definition demo_signer : Signer := mkSigner (Some "0xabc") (Some "cHVibGlj").

Definition demo_opts_registering : UploadOptions :=
  mkOptions "0xabc" (Some demo_signer) "0xc0de" 2 2 "https://proxy" true.

(** Workers take turns. *)
Definition round_robin (workers rounds : nat) : list nat :=
  concat (replicate rounds (seq 0 workers)).

Definition prepared (world : @World (list byte)) (opts : UploadOptions)
    (f : File) (idb0 : gmap string UploadState) : Prepared :=
  match prepare world opts f idb0 with
  | inr prep => prep
  | inl _ =>
      mkPrepared (mkClosure f 0 0 0 "" None) ""
        (fresh_state "" f 0 0 0) ∅ []
  end.


Example two_workers_run :
  let world := demo_world None 1000 in
  let prep := prepared world (demo_opts 2) demo_file ∅ in
  let p := run_schedule world (prep_closure prep) (round_robin 2 20)
             (init_pool (demo_opts 2) prep) in
  workers p = [Returned; Returned]
  /\ omap (fun ev => match ev with Claim w i => Some (w, i) | _ => None end) (trace p)
     = [(0, 0); (1, 1); (0, 2); (1, 3); (0, 4)]%nat
  /\ uploads (trace p) = [0; 1; 2; 3; 4]%nat.
Proof. vm_compute. repeat split; reflexivity. Qed.

Lemma persisted_sessions_hold_no_raw_key_witness :
  let r := chunkedUploadFile (demo_world None 1000) demo_opts_registering demo_file ∅
             (round_robin 2 20) in
  (forall k snapshot, Persist k snapshot ∈ run_trace r -> key_free snapshot)
  /\ (forall k s, idb_after r !! k = Some s -> key_free s).
Proof.
  apply (persisted_sessions_hold_no_raw_key (demo_world None 1000)
           demo_opts_registering demo_file ∅ (round_robin 2 20)).
  intros k s H. rewrite lookup_empty in H. discriminate.
Defined.

Example registering_run :
  let r := chunkedUploadFile (demo_world None 1000) demo_opts_registering demo_file ∅
             (round_robin 2 20) in
  (exists m, result r = Resolved "bafymeta" m "upload_0xabc_1000_k3x9" (Some "0xtx"))
  /\ length (persisted (run_trace r)) = 8%nat
  /\ encryptedAesForOwner <$> (idb_after r !! "upload_0xabc_1000_k3x9")
     = Some (Some (Sealed "cHVibGlj" (KeyExport [x2a]))).
Proof. vm_compute. split; [eexists; reflexivity|split; reflexivity]. Qed.

(** The first call is interrupted: the upload of chunk 3 fails after
    chunks 0, 1 and 2 were recorded. *)
Definition first_run : upload_run :=
  chunkedUploadFile (demo_world (Some 3%nat) 1000) (demo_opts 1) demo_file ∅
    (round_robin 1 40).

(** The same file is uploaded again, one second later, with IndexedDB as
    the first call left it. *)
Definition second_run : upload_run :=
  chunkedUploadFile (demo_world None 2000) (demo_opts 1) demo_file
    (idb_after first_run) (round_robin 1 40).

Definition manifest_indices (r : @upload_run (list byte)) : list nat :=
  match result r with
  | Resolved _ m _ _ => index <$> chunks m
  | _ => []
  end.

(** Is chunk [i] recorded in the session stored under [key]? *)
Definition stored_chunk (db : gmap string (@UploadState (list byte)))
    (key : string) (i : nat) : bool :=
  match db !! key with
  | Some s => bool_decide (is_Some (uploaded s !! i))
  | None => false
  end.

(** C4 at this input: the session of the first call holds chunks 0, 1, 2
    and is still in IndexedDB when the file is uploaded again, but the
    second call computes another session key, starts from an empty session
    and uploads all five chunks; the claim has it upload 3 and 4 only.
    (Its manifest does list each index once.) *)
Theorem second_call_uploads_every_chunk_again :
  result first_run = Rejected "Upload failed: 503"
  /\ stored_chunk (idb_after first_run) "upload_0xabc_1000_k3x9" <$> [0; 1; 2; 3; 4]%nat
     = [true; true; true; false; false]
  /\ stored_chunk (idb_after second_run) "upload_0xabc_1000_k3x9" <$> [0; 1; 2; 3; 4]%nat
     = [true; true; true; false; false]
  /\ uploads (run_trace second_run) = [0; 1; 2; 3; 4]%nat
  /\ manifest_indices second_run = [0; 1; 2; 3; 4]%nat.
Proof. vm_compute. repeat split; reflexivity. Qed.

(** *** The slices of the file *)

Lemma ceil_div_covers (n c : nat) : (0 < c -> n <= ceil_div n c * c)%nat.
Proof.
  intros Hc. unfold ceil_div.
  pose proof (Nat.div_mod (n + c - 1) c ltac:(lia)) as E.
  pose proof (Nat.mod_upper_bound (n + c - 1) c ltac:(lia)) as B.
  nia.
Qed.

Lemma ceil_div_tight (n c i : nat) : (0 < c -> i < ceil_div n c -> i * c < n)%nat.
Proof.
  intros Hc Hi. unfold ceil_div in Hi.
  pose proof (Nat.div_mod (n + c - 1) c ltac:(lia)) as E.
  pose proof (Nat.mod_upper_bound (n + c - 1) c ltac:(lia)) as B.
  nia.
Qed.

Section Slices.
Context {CryptoKey : Type}.
Variable cl : @Closure CryptoKey.
Hypothesis size_ok : totalSize cl = length (content (file cl)).

Lemma file_slice_take (i : nat) :
  file_slice cl i = take (cl_chunkSize cl) (drop (chunk_start cl i) (content (file cl))).
Proof.
  unfold file_slice, chunk_end. rewrite size_ok.
  set (l := content (file cl)). set (s := chunk_start cl i). set (c := cl_chunkSize cl).
  destruct (Nat.le_gt_cases (s + c) (length l)) as [H|H].
  - rewrite Nat.min_l by exact H. f_equal. lia.
  - rewrite Nat.min_r by lia.
    rewrite (take_ge (drop s l) c) by (rewrite length_drop; lia).
    apply take_ge. rewrite length_drop. lia.
Qed.

Lemma slices_prefix (k : nat) :
  concat (file_slice cl <$> seq 0 k) = take (k * cl_chunkSize cl) (content (file cl)).
Proof.
  induction k as [|k IH]; [reflexivity|].
  rewrite seq_S, fmap_app, concat_app, IH. cbn [fmap list_fmap concat plus].
  rewrite app_nil_r, file_slice_take. unfold chunk_start.
  rewrite take_take_drop. f_equal. lia.
Qed.

Lemma file_slice_length (i : nat) :
  length (file_slice cl i)
  = Nat.min (cl_chunkSize cl) (totalSize cl - i * cl_chunkSize cl).
Proof.
  rewrite file_slice_take, length_take, length_drop, size_ok. reflexivity.
Qed.

End Slices.

Section SlicesOfUpload.
Context {CryptoKey : Type}.
Variable world : @World CryptoKey.

(** What the closure handed to the workers holds. *)
Lemma prepare_closure (opts : UploadOptions) (f : File)
    (idb0 : gmap string (@UploadState CryptoKey)) (prep : Prepared) :
  prepare world opts f idb0 = inr prep ->
  file (prep_closure prep) = f
  /\ cl_chunkSize (prep_closure prep) = opt_chunkSize opts
  /\ totalSize (prep_closure prep) = length (content f)
  /\ cl_totalChunks (prep_closure prep)
     = ceil_div (length (content f)) (opt_chunkSize opts).
Proof.
  unfold prepare. intros H.
  destruct (String.eqb (proxyUrl opts) ""); [discriminate|].
  destruct (resolve_owner opts) as [msg|owner]; [discriminate|].
  destruct (_ || _); [discriminate|].
  destruct (_ && _); [discriminate|].
  repeat match type of H with
         | (if ?b then _ else _) = _ => destruct b
         | match ?x with _ => _ end = _ => destruct x
         end;
    try discriminate; injection H as <-; cbn; auto.
Qed.

(** The slices of the indices below [totalChunks], and their lengths. *)
Lemma slices_of_file (opts : UploadOptions) (f : File)
    (idb0 : gmap string (@UploadState CryptoKey)) (prep : Prepared) :
  prepare world opts f idb0 = inr prep ->
  (0 < opt_chunkSize opts)%nat ->
  let cl := prep_closure prep in
  concat (file_slice cl <$> seq 0 (cl_totalChunks cl)) = content f
  /\ forall i, (i < cl_totalChunks cl)%nat ->
       (0 < length (file_slice cl i) <= opt_chunkSize opts)%nat
       /\ ((S i < cl_totalChunks cl)%nat ->
           length (file_slice cl i) = opt_chunkSize opts).
Proof.
  intros Hprep Hc cl.
  destruct (prepare_closure opts f idb0 prep Hprep) as (Hf & Hcs & Hts & HT).
  fold cl in Hf, Hcs, Hts, HT.
  assert (Hsize : totalSize cl = length (content (file cl))) by now rewrite Hf.
  split.
  - rewrite (slices_prefix cl Hsize), Hf. apply take_ge.
    rewrite HT, Hcs. now apply ceil_div_covers.
  - intros i Hi. rewrite (file_slice_length cl Hsize), Hcs, Hts.
    rewrite HT in *.
    pose proof (ceil_div_tight _ _ i Hc Hi).
    split; [lia|]. intros Hi'.
    pose proof (ceil_div_tight _ _ (S i) Hc Hi'). lia.
Qed.

(** X14. The chunks cut from a file are the file.  For a positive chunk
    size, the slices of the indices [0 .. totalChunks-1], in order, make up
    the file's content with nothing lost and nothing repeated; every slice
    is non-empty, none is longer than the chunk size, and all but the last
    have exactly that size. *)
Theorem slices_partition_file (opts : UploadOptions) (f : File)
    (idb0 : gmap string (@UploadState CryptoKey)) (prep : Prepared) :
  prepare world opts f idb0 = inr prep ->
  (0 < opt_chunkSize opts)%nat ->
  let cl := prep_closure prep in
  concat (file_slice cl <$> seq 0 (cl_totalChunks cl)) = content f
  /\ forall i, (i < cl_totalChunks cl)%nat ->
       (0 < length (file_slice cl i) <= opt_chunkSize opts)%nat
       /\ ((S i < cl_totalChunks cl)%nat ->
           length (file_slice cl i) = opt_chunkSize opts).
Proof. exact (slices_of_file opts f idb0 prep). Qed.

End SlicesOfUpload.

Lemma slices_partition_file_witness :
  let cl := prep_closure (prepared (demo_world None 1000) (demo_opts 2) demo_file ∅) in
  concat (file_slice cl <$> seq 0 (cl_totalChunks cl)) = content demo_file
  /\ forall i, (i < cl_totalChunks cl)%nat ->
       (0 < length (file_slice cl i) <= opt_chunkSize (demo_opts 2))%nat
       /\ ((S i < cl_totalChunks cl)%nat ->
           length (file_slice cl i) = opt_chunkSize (demo_opts 2)).
Proof.
  apply (slices_partition_file (demo_world None 1000) (demo_opts 2) demo_file ∅
           (prepared (demo_world None 1000) (demo_opts 2) demo_file ∅)).
  - vm_compute. reflexivity.
  - cbn. lia.
Defined.

(** *** The worker pool: what is stored under each index *)

Section PoolContent.
Context {CryptoKey : Type}.
Variable world : @World CryptoKey.
Variable cl : @Closure CryptoKey.
Variable U0 : gmap nat ChunkInfo.

#[local] Abbreviation Pool := (@Upload.Pool CryptoKey).

(** The blob that [processChunk(i)] uploads: the packed encryption of the
    [i]-th slice under the session's key. *)
Definition packed_of (i : nat) : option (list byte) :=
  (fun key =>
     ChunkCipher.packed
       (ChunkCipher.encryptChunk CryptoKey (subtle_encrypt world)
          (getRandomValues world i) key (file_slice cl i) i))
  <$> aesCryptoKey cl.

(** [cid] is what the proxy answered to an upload of the blob of index [i]. *)
Definition stored_as (i : nat) (cid : string) : Prop :=
  exists call packed,
    packed_of i = Some packed /\ uploadChunkWithRetries world call packed = inr cid.

Record Content (p : Pool) : Prop := mkContent {
  ct_phase : forall w ph, workers p !! w = Some ph ->
      match ph with
      | AwaitEncrypt i packed | AwaitUpload i _ packed => packed_of i = Some packed
      | AwaitGet i c => stored_as i c
      | AwaitSet i c =>
          exists info, uploaded (state p) !! i = Some info /\ cid info = c
      | _ => True
      end;
  ct_uploaded : forall i info, uploaded (state p) !! i = Some info -> U0 !! i = None ->
      stored_as i (cid info)
      /\ size info = (chunk_end cl i - chunk_start cl i)%nat;
  ct_results : forall i info, uploaded (state p) !! i = Some info ->
      results p !! i = Some (cid info)
      \/ exists w, workers p !! w = Some (AwaitSet i (cid info))
}.

Ltac pool_cbn :=
  cbn [set_phase emit throw record nextIndex state results uploadedBytes idb workers
       calls failure trace uploaded set_state_uploaded] in *.

Ltac at_worker H :=
  apply list_lookup_insert_Some in H as [(? & ? & _)|(? & H)]; simplify_eq.

(** A change of phase of worker [w] that touches neither the session nor
    [results], provided the new phase is justified and the old one was not
    waiting for [set]. *)
Lemma content_rephase (p p' : Pool) (w : nat) (ph ph' : phase) :
  Content p -> workers p !! w = Some ph ->
  workers p' = <[w := ph']> (workers p) ->
  state p' = state p -> results p' = results p ->
  (forall i c, ph <> AwaitSet i c) ->
  match ph' with
  | AwaitEncrypt i packed | AwaitUpload i _ packed => packed_of i = Some packed
  | AwaitGet i c => stored_as i c
  | AwaitSet i c => False
  | _ => True
  end ->
  Content p'.
Proof.
  intros [C1 C2 C3] Hw Ews Est Eres Hph Hnew.
  constructor; rewrite ?Ews, ?Est, ?Eres.
  - intros w0 ph0 H0. at_worker H0.
    + destruct ph0; auto; contradiction.
    + apply C1 in H0. exact H0.
  - exact C2.
  - intros i info Hi. destruct (C3 i info Hi) as [Hr|[w0 H0]]; [now left|].
    right. exists w0. rewrite list_lookup_insert_ne; [exact H0|].
    intros <-. rewrite Hw in H0. injection H0 as ->. now apply (Hph i (cid info)).
Qed.

Lemma step_content (w : nat) (p : Pool) :
  Inv cl U0 p -> Content p -> Content (step world cl w p).
Proof.
  intros I C. unfold step.
  destruct (workers p !! w) as [ph|] eqn:Hw; [|exact C].
  destruct ph as [|i|i packed|i call packed|i c|i c| |msg]; try exact C.
  - (* Idle *)
    destruct (claim _ _ _) as [n' [i|]].
    + cbn [emit state uploaded]. destruct (uploaded (state p) !! i).
      * destruct C as [C1 C2 C3]. constructor; pool_cbn; auto.
      * eapply (content_rephase p _ w Idle (AwaitSlice i)); eauto;
          try discriminate; try reflexivity.
    + eapply (content_rephase p _ w Idle Returned); eauto;
        try discriminate; try reflexivity.
  - (* AwaitSlice *)
    destruct (aesCryptoKey cl) as [key|] eqn:Hkey.
    + eapply (content_rephase p _ w (AwaitSlice i)); eauto; try discriminate;
        try reflexivity.
      cbn. unfold packed_of. rewrite Hkey. reflexivity.
    + eapply (content_rephase p _ w (AwaitSlice i) (Threw _)); eauto;
        try discriminate; try reflexivity.
  - (* AwaitEncrypt *)
    pose proof (ct_phase p C w _ Hw) as Hp. cbn in Hp.
    eapply (content_rephase p _ w (AwaitEncrypt i packed)); eauto; try discriminate;
      try reflexivity.
  - (* AwaitUpload *)
    pose proof (ct_phase p C w _ Hw) as Hp. cbn in Hp.
    destruct (uploadChunkWithRetries world call packed) as [msg|c] eqn:Hup.
    + eapply (content_rephase p _ w (AwaitUpload i call packed) (Threw _)); eauto;
        try discriminate; try reflexivity.
    + eapply (content_rephase p _ w (AwaitUpload i call packed)); eauto;
        try discriminate; try reflexivity.
      cbn. exists call, packed. auto.
  - (* AwaitGet *)
    pose proof (ct_phase p C w _ Hw) as Hp. cbn in Hp.
    destruct (inv_hold cl U0 p I w _ i Hw eq_refl) as [Hlt Hfree].
    assert (Hrec : Content (record cl w i c p)).
    { destruct C as [C1 C2 C3]. constructor; pool_cbn.
      - intros w0 ph0 H0. at_worker H0.
        + exists (mkChunkInfo c (chunk_end cl i - chunk_start cl i)).
          now rewrite lookup_insert_eq.
        + specialize (C1 _ _ H0). destruct ph0; auto.
          destruct C1 as (info & Hi & Hc). exists info. split; [|exact Hc].
          rewrite lookup_insert_ne; [exact Hi|]. intros <-. congruence.
      - intros j info Hj HU. destruct (decide (j = i)) as [->|Hne].
        + rewrite lookup_insert_eq in Hj. injection Hj as <-. cbn. auto.
        + rewrite lookup_insert_ne in Hj by congruence. auto.
      - intros j info Hj. destruct (decide (j = i)) as [->|Hne].
        + rewrite lookup_insert_eq in Hj. injection Hj as <-. cbn.
          right. exists w. apply list_lookup_insert_eq. eapply lookup_lt_Some, Hw.
        + rewrite lookup_insert_ne in Hj by congruence.
          destruct (C3 j info Hj) as [Hr|[w0 H0]]; [now left|].
          right. exists w0. rewrite list_lookup_insert_ne; [exact H0|].
          intros <-. rewrite Hw in H0. discriminate. }
    destruct (idb p !! sessionKey cl) as [s|] eqn:Hdb; [|exact Hrec].
    destruct (uploaded s !! i) as [other|] eqn:Hother; [|exact Hrec].
    destruct (inv_store cl U0 p I s i Hdb (mk_is_Some _ _ Hother)) as [x Hx].
    congruence.
  - (* AwaitSet *)
    pose proof (ct_phase p C w _ Hw) as (info0 & Hi0 & Hc0). cbn in Hi0.
    destruct C as [C1 C2 C3]. constructor; pool_cbn.
    + intros w0 ph0 H0. at_worker H0; [exact Logic.I|]. apply C1 in H0. exact H0.
    + exact C2.
    + intros j info Hj. destruct (decide (j = i)) as [->|Hne].
      * left. rewrite lookup_insert_eq. congruence.
      * rewrite lookup_insert_ne by congruence.
        destruct (C3 j info Hj) as [Hr|[w0 H0]]; [now left|].
        right. exists w0. rewrite list_lookup_insert_ne; [exact H0|].
        intros <-. rewrite Hw in H0. congruence.
Qed.

Lemma run_schedule_content (sched : list nat) (p : Pool) :
  Inv cl U0 p -> Content p ->
  Content (run_schedule world cl sched p).
Proof.
  revert p. induction sched as [|w sched IH]; intros p I C; [exact C|].
  apply IH; [now apply step_inv|now apply step_content].
Qed.

End PoolContent.

(** *** The published manifest *)

Section Manifest.
Context {CryptoKey : Type}.
Variable world : @World CryptoKey.

#[local] Abbreviation Pool := (@Upload.Pool CryptoKey).
#[local] Abbreviation UploadState := (@Upload.UploadState CryptoKey).

Lemma init_content (opts : UploadOptions) (prep : Prepared) :
  Content world (prep_closure prep) (uploaded (prep_state prep)) (init_pool opts prep).
Proof.
  constructor; cbn [init_pool workers state results].
  - intros w ph Hw. apply lookup_replicate in Hw as [-> _]. exact I.
  - intros i info Hi HU. congruence.
  - intros i info Hi. left. now rewrite lookup_fmap, Hi.
Qed.

(** The fields of the session object that the workers never assign. *)
Definition static (st : UploadState) : string * string * nat * nat :=
  (filename st, mimeType st, fileSize st, chunkSize st).

Lemma step_static (cl : Closure) (w : nat) (p : Pool) :
  static (state (step world cl w p)) = static (state p).
Proof.
  unfold step. destruct (workers p !! w) as [ph|]; [|reflexivity].
  destruct ph as [|i|i packed|i call packed|i c|i c| |msg]; try reflexivity.
  - destruct (claim _ _ _) as [n' [i|]]; [|reflexivity].
    cbn [emit state uploaded]. now destruct (uploaded (state p) !! i).
  - now destruct (aesCryptoKey cl).
  - now destruct (uploadChunkWithRetries world call packed).
  - destruct (idb p !! sessionKey cl) as [s|]; [|reflexivity].
    now destruct (uploaded s !! i).
Qed.

Lemma run_schedule_static (cl : Closure) (sched : list nat) (p : Pool) :
  static (state (run_schedule world cl sched p)) = static (state p).
Proof.
  revert p. induction sched as [|w sched IH]; intros p; [reflexivity|].
  cbn [run_schedule fold_left]. fold (run_schedule world cl sched (step world cl w p)).
  now rewrite IH, step_static.
Qed.

(** A call that finds no session under its key starts from the session
    object of the file. *)
Lemma prepare_fresh (opts : UploadOptions) (f : File) (idb0 : gmap string UploadState)
    (prep : Prepared) :
  prepare world opts f idb0 = inr prep ->
  idb0 !! sessionKey (prep_closure prep) = None ->
  uploaded (prep_state prep) = ∅
  /\ static (prep_state prep)
     = (name f, (if String.eqb (type f) "" then "application/octet-stream" else type f),
        length (content f), opt_chunkSize opts).
Proof.
  unfold prepare. intros H.
  destruct (String.eqb (proxyUrl opts) ""); [discriminate|].
  destruct (resolve_owner opts) as [msg|owner]; [discriminate|].
  destruct (_ || _); [discriminate|].
  destruct (_ && _); [discriminate|].
  set (key := generateUploadId owner (Date_now world) (Math_random world)) in *.
  assert (Hkey : forall cl st db tr,
            @inr string _ (mkPrepared cl owner st db tr) = inr prep ->
            sessionKey cl = key ->
            idb0 !! sessionKey (prep_closure prep) = None -> idb0 !! key = None).
  { intros cl st db tr [= <-] Hk. cbn. now rewrite Hk. }
  destruct (idb0 !! key) as [s|] eqn:Hdb; cbn [default from_option id] in H.
  - intros Hnone. exfalso.
    repeat match type of H with
           | (if ?b then _ else _) = _ => destruct b
           | match ?x with _ => _ end = _ => destruct x
           end;
      try discriminate;
      (eapply Hkey in H; [|reflexivity|exact Hnone]; discriminate).
  - intros _.
    repeat match type of H with
           | (if ?b then _ else _) = _ => destruct b
           | match ?x with _ => _ end = _ => destruct x
           end;
      try discriminate; injection H as <-; cbn; auto.
Qed.

Lemma build_chunks_lookup (T : nat) (results : gmap nat string)
    (uploaded : gmap nat ChunkInfo) (cs : list ChunkEntry) :
  build_chunks T results uploaded = Some cs ->
  length cs = T
  /\ forall i, (i < T)%nat ->
       exists info, uploaded !! i = Some info
                    /\ cs !! i = Some (mkEntry i (results !! i) (size info)).
Proof.
  unfold build_chunks. intros H.
  apply mapM_Some in H.
  pose proof (Forall2_length _ _ _ H) as Hlen. rewrite length_seq in Hlen.
  split; [lia|]. intros i Hi.
  destruct (lookup_lt_is_Some_2 cs i ltac:(lia)) as [e He].
  pose proof (Forall2_lookup_lr _ _ _ i i e H (lookup_seq_lt _ _ _ Hi) He) as Hie.
  cbn in Hie. destruct (uploaded !! i) as [info|]; [|discriminate].
  injection Hie as <-. eauto.
Qed.

(** What a resolved call has published. *)
Lemma manifest_content
    (opts : UploadOptions) (f : File) (idb0 : gmap string UploadState)
    (prep : Prepared) (sched : list nat)
    (metadataCid : string) (m : Metadata) (key : string) (tx : option string) :
  prepare world opts f idb0 = inr prep ->
  idb0 !! sessionKey (prep_closure prep) = None ->
  result (chunkedUploadFile world opts f idb0 sched) = Resolved metadataCid m key tx ->
  let cl := prep_closure prep in
  uploadMetadata world m = inr metadataCid
  /\ meta_type m = "dcs-chunked-file"
  /\ meta_filename m = name f
  /\ meta_mimeType m
     = (if String.eqb (type f) "" then "application/octet-stream" else type f)
  /\ meta_fileSize m = length (content f)
  /\ meta_chunkSize m = opt_chunkSize opts
  /\ meta_totalChunks m = cl_totalChunks cl
  /\ length (chunks m) = cl_totalChunks cl
  /\ forall i, (i < cl_totalChunks cl)%nat ->
       exists c, chunks m !! i
                 = Some (mkEntry i (Some c) (chunk_end cl i - chunk_start cl i))
                 /\ stored_as world cl i c.
Proof.
  intros Hprep Hnone. unfold chunkedUploadFile. rewrite Hprep.
  destruct (prepare_fresh opts f idb0 prep Hprep Hnone) as [Hempty Hstatic].
  set (cl := prep_closure prep).
  set (p := run_schedule world cl sched (init_pool opts prep)).
  pose proof (run_schedule_inv world cl _ sched _ (prepare_inv world _ _ _ _ Hprep)) as Inv_p.
  pose proof (run_schedule_content world cl _ sched _
                (prepare_inv world _ _ _ _ Hprep) (init_content opts prep)) as C.
  fold cl p in Inv_p, C.
  pose proof (run_schedule_static cl sched (init_pool opts prep)) as Hst.
  fold p in Hst. cbn [init_pool state] in Hst. rewrite Hstatic in Hst.
  destruct (failure p); [discriminate|].
  destruct (forallb is_returned (workers p)) eqn:Hret; [|discriminate].
  unfold finish. fold cl.
  destruct (build_chunks _ _ _) as [cs|] eqn:Hcs; [|discriminate].
  apply build_chunks_lookup in Hcs as [Hlen Hcs].
  cbn zeta.
  set (meta := mkMetadata _ _ _ _ _ _ _ _ _).
  assert (Hmeta : forall c, uploadMetadata world meta = inr c ->
            forall k t, Resolved c meta k t = Resolved metadataCid m key tx ->
            uploadMetadata world m = inr metadataCid
            /\ meta_type m = "dcs-chunked-file"
            /\ meta_filename m = name f
            /\ meta_mimeType m
               = (if String.eqb (type f) "" then "application/octet-stream" else type f)
            /\ meta_fileSize m = length (content f)
            /\ meta_chunkSize m = opt_chunkSize opts
            /\ meta_totalChunks m = cl_totalChunks cl
            /\ length (chunks m) = cl_totalChunks cl
            /\ forall i, (i < cl_totalChunks cl)%nat ->
                 exists c, chunks m !! i
                           = Some (mkEntry i (Some c) (chunk_end cl i - chunk_start cl i))
                           /\ stored_as world cl i c).
  { intros c Hc k t [= <- <- _ _]. subst meta. cbn in *.
    unfold static in Hst. injection Hst as E1 E2 E3 E4.
    rewrite E1, E2, E3, E4 in *.
    split; [exact Hc|]. do 6 (split; [reflexivity|]). split; [exact Hlen|].
    intros i Hi. destruct (Hcs i Hi) as (info & Hinfo & He).
    destruct (ct_uploaded world cl _ p C i info Hinfo) as [Hstored Hsize].
    { now rewrite Hempty. }
    destruct (ct_results world cl _ p C i info Hinfo) as [Hr|[w Hw]].
    - exists (cid info). rewrite He, Hr, Hsize. auto.
    - exfalso. rewrite forallb_forall in Hret.
      apply list_elem_of_lookup_2, list_elem_of_In, Hret in Hw. discriminate. }
  destruct (uploadMetadata world meta) as [msg|c] eqn:Hup; [discriminate|].
  destruct (_ && _).
  - destruct (encryptedAesForOwner _).
    + destruct (registerOnChain _ _ _); [|discriminate].
      intros E. eapply Hmeta; eauto.
    + intros E. eapply Hmeta; eauto.
  - intros E. eapply Hmeta; eauto.
Qed.

End Manifest.

(** *** The length of a run of the pool *)

Section Bound.
Context {CryptoKey : Type}.
Variable world : @World CryptoKey.
Variable cl : @Closure CryptoKey.
#[local] Abbreviation Pool := (@Upload.Pool CryptoKey).

(** A schedule without idle steps: every step runs a worker that has
    neither returned nor thrown. *)
Fixpoint productive (sched : list nat) (p : Pool) : Prop :=
  match sched with
  | [] => True
  | w :: sched' =>
      (exists ph, workers p !! w = Some ph /\ finished ph = false)
      /\ productive sched' (step world cl w p)
  end.

Lemma productive_length (sched : list nat) :
  forall p : Pool, productive sched p -> (length sched <= measure cl p)%nat.
Proof.
  induction sched as [|w sched IH]; intros p H; cbn [length]; [lia|].
  destruct H as [(ph & Hw & Hf) H].
  pose proof (step_measure world cl w p ph Hw Hf).
  specialize (IH _ H). lia.
Qed.

End Bound.

Lemma sum_rank_idle (n : nat) : sum_list (rank <$> replicate n Idle) = n.
Proof. induction n as [|n IH]; cbn; [reflexivity|now rewrite IH]. Qed.

(** X15. The worker pool comes to an end.  With [T] chunks and [C] workers,
    a run of the pool in which every step runs a worker that has neither
    returned nor thrown has at most [7 T + C] steps, whatever the
    interleaving and whatever the outcome of the uploads; and running, at
    each step, the first such worker brings every worker to its return or
    its throw within that many steps, so that [Promise.all] settles. *)
Theorem worker_pool_terminates {CryptoKey : Type} (world : @World CryptoKey)
    (opts : UploadOptions) (prep : @Prepared CryptoKey) :
  let cl := prep_closure prep in
  let p0 := init_pool opts prep in
  let bound := (7 * cl_totalChunks cl + concurrency opts)%nat in
  (forall sched, productive world cl sched p0 -> (length sched <= bound)%nat)
  /\ Forall (fun ph => finished ph = true)
       (workers (run_schedule world cl (drive world cl bound p0) p0)).
Proof.
  intros cl p0 bound.
  assert (Hm : measure cl p0 = bound).
  { unfold measure, p0, init_pool, bound. cbn [nextIndex workers].
    rewrite sum_rank_idle. lia. }
  split.
  - intros sched H. rewrite <- Hm. exact (productive_length world cl sched p0 H).
  - apply drive_finishes. lia.
Qed.

(** *** The manifest of a resolved call *)

Section Published.
Context {CryptoKey : Type}.
Variable world : @World CryptoKey.
#[local] Abbreviation UploadState := (@Upload.UploadState CryptoKey).

Lemma chunk_size_is_slice_length (cl : @Closure CryptoKey) (i : nat) :
  totalSize cl = length (content (file cl)) ->
  (i * cl_chunkSize cl <= totalSize cl)%nat ->
  (chunk_end cl i - chunk_start cl i)%nat = length (file_slice cl i).
Proof.
  intros Hs Hi. rewrite (file_slice_length cl Hs).
  unfold chunk_end, chunk_start. lia.
Qed.

(** X16. What a resolved call has published.  When [chunkedUploadFile]
    finds no stored session under its key and resolves, the manifest it
    uploaded names the file, its size and the chunk size of the call, and
    lists one entry for each index [0 .. totalChunks-1], in order; entry
    [i] carries the size of the [i]-th slice of the file and the cid that
    the proxy answered when the encrypted slice [i] was uploaded.  The
    sizes add up to the file size. *)
Theorem manifest_describes_file
    (opts : UploadOptions) (f : File) (idb0 : gmap string UploadState)
    (prep : Prepared) (sched : list nat)
    (metadataCid : string) (m : Metadata) (key : string) (tx : option string) :
  prepare world opts f idb0 = inr prep ->
  idb0 !! sessionKey (prep_closure prep) = None ->
  (0 < opt_chunkSize opts)%nat ->
  result (chunkedUploadFile world opts f idb0 sched) = Resolved metadataCid m key tx ->
  let cl := prep_closure prep in
  uploadMetadata world m = inr metadataCid
  /\ meta_type m = "dcs-chunked-file"
  /\ meta_filename m = name f
  /\ meta_fileSize m = length (content f)
  /\ meta_chunkSize m = opt_chunkSize opts
  /\ meta_totalChunks m = ceil_div (length (content f)) (opt_chunkSize opts)
  /\ length (chunks m) = meta_totalChunks m
  /\ (forall i, (i < meta_totalChunks m)%nat ->
        exists c, chunks m !! i = Some (mkEntry i (Some c) (length (file_slice cl i)))
                  /\ stored_as world cl i c)
  /\ sum_list (entry_size <$> chunks m) = length (content f).
Proof.
  intros Hprep Hnone Hsize Hres cl.
  destruct (manifest_content world opts f idb0 prep sched metadataCid m key tx
              Hprep Hnone Hres)
    as (Hup & Htype & Hfn & _ & Hfs & Hcs & HT & Hlen & Hchunks).
  fold cl in HT, Hlen, Hchunks.
  destruct (prepare_closure world opts f idb0 prep Hprep) as (Hf & Hc & Hts & HT').
  fold cl in Hf, Hc, Hts, HT'.
  assert (Hsz : totalSize cl = length (content (file cl))) by now rewrite Hf.
  assert (Hentries : forall i, (i < cl_totalChunks cl)%nat ->
            exists c, chunks m !! i = Some (mkEntry i (Some c) (length (file_slice cl i)))
                      /\ stored_as world cl i c).
  { intros i Hi. destruct (Hchunks i Hi) as (c & He & Hs). exists c. split; [|exact Hs].
    rewrite He, (chunk_size_is_slice_length cl i Hsz); [reflexivity|].
    rewrite HT' in Hi. rewrite Hc, Hts.
    pose proof (ceil_div_tight _ _ i Hsize Hi). lia. }
  split; [exact Hup|]. split; [exact Htype|]. split; [exact Hfn|].
  split; [exact Hfs|]. split; [exact Hcs|]. split; [congruence|].
  split; [congruence|]. split; [now rewrite HT|].
  destruct (slices_of_file world opts f idb0 prep Hprep Hsize) as [Hconcat _].
  fold cl in Hconcat. rewrite <- Hconcat.
  assert (Hsizes : entry_size <$> chunks m
                   = (fun i => length (file_slice cl i)) <$> seq 0 (cl_totalChunks cl)).
  { apply list_eq. intros i. rewrite !list_lookup_fmap.
    destruct (decide (i < cl_totalChunks cl)%nat) as [Hi|Hi].
    - destruct (Hentries i Hi) as (c & -> & _).
      rewrite lookup_seq_lt by exact Hi. reflexivity.
    - rewrite (lookup_ge_None_2 (chunks m)) by lia.
      rewrite (lookup_ge_None_2 (seq _ _)) by (rewrite length_seq; lia).
      reflexivity. }
  rewrite Hsizes. clear. induction (seq 0 (cl_totalChunks cl)) as [|i l IH];
    [reflexivity|].
  cbn. rewrite length_app, IH. reflexivity.
Qed.

(** X17. The skip of recorded chunks.  A pool that starts from a session
    object in which some chunks are already recorded (the one stored under
    the key that the call computed) uploads, when all workers return,
    exactly the indices that were not recorded, each once, and ends with
    every index recorded. *)
Theorem pool_uploads_exactly_the_missing
    (opts : UploadOptions) (f : File) (idb0 : gmap string UploadState)
    (prep : Prepared) (sched : list nat) :
  prepare world opts f idb0 = inr prep ->
  (0 < concurrency opts)%nat ->
  let T := cl_totalChunks (prep_closure prep) in
  let p := run_schedule world (prep_closure prep) sched (init_pool opts prep) in
  Forall (fun ph => ph = Returned) (workers p) ->
  uploads (trace p) ≡ₚ missing (uploaded (prep_state prep)) T
  /\ forall i, (i < T)%nat -> is_Some (uploaded (state p) !! i).
Proof. exact (pool_uploads_missing world opts f idb0 prep sched). Qed.

End Published.

(** The manifest of a run, when it resolved. *)
Definition manifest_of {CryptoKey : Type} (r : @upload_run CryptoKey) : Metadata :=
  match result r with
  | Resolved _ m _ _ => m
  | _ => mkMetadata "" "" "" 0 0 0 [] "" 0
  end.

Lemma manifest_describes_file_witness :
  let world := demo_world None 1000 in
  let prep := prepared world (demo_opts 2) demo_file ∅ in
  let m := manifest_of (chunkedUploadFile world (demo_opts 2) demo_file ∅
                          (round_robin 2 20)) in
  let cl := prep_closure prep in
  uploadMetadata world m = inr "bafymeta"
  /\ meta_type m = "dcs-chunked-file"
  /\ meta_filename m = name demo_file
  /\ meta_fileSize m = length (content demo_file)
  /\ meta_chunkSize m = opt_chunkSize (demo_opts 2)
  /\ meta_totalChunks m
     = ceil_div (length (content demo_file)) (opt_chunkSize (demo_opts 2))
  /\ length (chunks m) = meta_totalChunks m
  /\ (forall i, (i < meta_totalChunks m)%nat ->
        exists c, chunks m !! i = Some (mkEntry i (Some c) (length (file_slice cl i)))
                  /\ stored_as world cl i c)
  /\ sum_list (entry_size <$> chunks m) = length (content demo_file).
Proof.
  apply (manifest_describes_file (demo_world None 1000) (demo_opts 2) demo_file ∅
           (prepared (demo_world None 1000) (demo_opts 2) demo_file ∅)
           (round_robin 2 20) "bafymeta"
           (manifest_of (chunkedUploadFile (demo_world None 1000) (demo_opts 2)
                           demo_file ∅ (round_robin 2 20)))
           "upload_0xabc_1000_k3x9" None).
  - vm_compute. reflexivity.
  - vm_compute. reflexivity.
  - cbn. lia.
  - vm_compute. reflexivity.
Defined.

(** The call of [first_run] made again at the same instant, so that it
    computes the same key and finds the session with chunks 0, 1 and 2:
    chunks 3 and 4 are uploaded. *)
Lemma pool_uploads_exactly_the_missing_witness :
  let world := demo_world None 1000 in
  let prep := prepared world (demo_opts 1) demo_file (idb_after first_run) in
  let T := cl_totalChunks (prep_closure prep) in
  let p := run_schedule world (prep_closure prep) (round_robin 1 40)
             (init_pool (demo_opts 1) prep) in
  uploads (trace p) ≡ₚ missing (uploaded (prep_state prep)) T
  /\ forall i, (i < T)%nat -> is_Some (uploaded (state p) !! i).
Proof.
  apply (pool_uploads_exactly_the_missing (demo_world None 1000) (demo_opts 1) demo_file
           (idb_after first_run)
           (prepared (demo_world None 1000) (demo_opts 1) demo_file (idb_after first_run))
           (round_robin 1 40)).
  - vm_compute. reflexivity.
  - cbn. lia.
  - vm_compute. repeat constructor.
Defined.

Example same_key_resumes :
  let world := demo_world None 1000 in
  let prep := prepared world (demo_opts 1) demo_file (idb_after first_run) in
  let p := run_schedule world (prep_closure prep) (round_robin 1 40)
             (init_pool (demo_opts 1) prep) in
  uploads (trace p) = [3; 4]%nat.
Proof. vm_compute. reflexivity. Qed.

End Upload.

(** ** Upload, then download *)

Module RoundTrip.

Import Download.

(** What [JSON.parse] gives back for the [JSON.stringify] of the manifest
    object that [chunkedUploadFile] builds: the properties in the order of
    the object literal, a [cid] that is [undefined] left out. *)
Definition entry_json (e : Upload.ChunkEntry) : jsval :=
  JObj ([("index", JNum (Z.of_nat (Upload.index e)))]
        ++ match Upload.entry_cid e with
           | Some c => [("cid", JStr c)]
           | None => []
           end
        ++ [("size", JNum (Z.of_nat (Upload.entry_size e)))]).

Definition manifest_json (m : Upload.Metadata) : jsval :=
  JObj [ ("type", JStr (Upload.meta_type m));
         ("filename", JStr (Upload.meta_filename m));
         ("mimeType", JStr (Upload.meta_mimeType m));
         ("fileSize", JNum (Z.of_nat (Upload.meta_fileSize m)));
         ("chunkSize", JNum (Z.of_nat (Upload.meta_chunkSize m)));
         ("totalChunks", JNum (Z.of_nat (Upload.meta_totalChunks m)));
         ("chunks", JArr (entry_json <$> Upload.chunks m));
         ("uploader", JStr (Upload.uploader m));
         ("uploadedAt", JNum (Z.of_nat (Upload.uploadedAt m))) ].

Section UploadDownload.

Variable CryptoKey : Type.
Variable world : @Upload.World CryptoKey.
Variable encodeURIComponent : string -> string.
Variable net : nat -> string -> Gateway.fetch_outcome.
Variable JSON_parse : list byte -> option jsval.
Variable importKeyFromBase64 : string -> option CryptoKey.
Variable subtle_decrypt :
  CryptoKey -> list byte -> list byte -> list byte -> option (list byte).

(** AES-GCM decrypts what it encrypted, and a ciphertext is never empty (it
    ends with the tag). *)
Hypothesis gcm_correct : forall key iv aad data,
  subtle_decrypt key iv aad (Upload.subtle_encrypt world key iv aad data) = Some data.
Hypothesis gcm_nonempty : forall key iv aad data,
  Upload.subtle_encrypt world key iv aad data <> [].
Hypothesis random_12 : forall i, length (Upload.getRandomValues world i) = 12%nat.

(** The storage behind the proxy is the one the gateways read: a cid that
    the proxy answered has the CID format, and the first gateway serves the
    uploaded blob for it. *)
Hypothesis stored_is_served : forall call packed cid,
  Upload.uploadChunkWithRetries world call packed = inr cid ->
  cid_pattern cid = true /\ served net cid packed.

Lemma decrypt_packed (key : CryptoKey) (data : list byte) (i : nat) :
  ChunkCipher.decryptChunk CryptoKey subtle_decrypt key
    (ChunkCipher.packed
       (ChunkCipher.encryptChunk CryptoKey (Upload.subtle_encrypt world)
          (Upload.getRandomValues world i) key data i)) i
  = ChunkCipher.Ok data.
Proof.
  unfold ChunkCipher.decryptChunk, ChunkCipher.encryptChunk. cbn [ChunkCipher.packed].
  set (iv := Upload.getRandomValues world i).
  set (ct := Upload.subtle_encrypt world key iv _ data).
  assert (Hct : (1 <= length ct)%nat).
  { destruct ct eqn:E; [|cbn; lia]. exfalso. eapply gcm_nonempty, E. }
  rewrite length_app, (random_12 i : length iv = 12%nat).
  destruct (Nat.ltb_spec (12 + length ct) 13) as [Hlt|_]; [lia|].
  rewrite (ChunkCipher.unpack_iv _ _ (random_12 i)),
          (ChunkCipher.unpack_ciphertext _ _ (random_12 i)).
  subst ct. now rewrite gcm_correct.
Qed.

Lemma entries_served (cl : @Upload.Closure CryptoKey) (key : CryptoKey)
    (cs : list Upload.ChunkEntry) :
  Upload.aesCryptoKey cl = Some key ->
  forall k,
    (forall j e, cs !! j = Some e ->
       exists c, e = Upload.mkEntry (k + j) (Some c)
                       (Upload.chunk_end cl (k + j) - Upload.chunk_start cl (k + j))
                 /\ Upload.stored_as world cl (k + j) c) ->
    chunks_served net CryptoKey subtle_decrypt key k
      (entry_json <$> cs) (Upload.file_slice cl <$> seq k (length cs)).
Proof.
  intros Hkey. induction cs as [|e cs IH]; intros k H; [exact I|].
  cbn [fmap list_fmap length seq chunks_served]. split.
  - destruct (H 0%nat e eq_refl) as (c & -> & call & packed & Hp & Hup).
    rewrite Nat.add_0_r in *.
    destruct (stored_is_served call packed c Hup) as [Hpat Hserved].
    exists c, packed. cbn. repeat split; auto.
    unfold Upload.packed_of in Hp. rewrite Hkey in Hp. injection Hp as <-.
    apply decrypt_packed.
  - apply IH. intros j e' Hj. destruct (H (S j) e' Hj) as (c & -> & Hs).
    replace (k + S j)%nat with (S k + j)%nat in * by lia. eauto.
Qed.

(** The round trip, step by step. *)
Lemma download_of_upload
    (opts : Upload.UploadOptions) (f : Upload.File)
    (idb0 : gmap string (@Upload.UploadState CryptoKey)) (prep : Upload.Prepared)
    (sched : list nat) (metadataCid : string) (m : Upload.Metadata)
    (sessionKey : string) (tx : option string)
    (metadataBlob : list byte) (aesKeyBase64 : string) (clock : nat) :
  Upload.prepare world opts f idb0 = inr prep ->
  idb0 !! Upload.sessionKey (Upload.prep_closure prep) = None ->
  Upload.result (Upload.chunkedUploadFile world opts f idb0 sched)
    = Upload.Resolved metadataCid m sessionKey tx ->
  (0 < Upload.opt_chunkSize opts)%nat ->
  Upload.content f <> [] -> Upload.name f <> "" ->
  cid_pattern metadataCid = true ->
  served net metadataCid metadataBlob ->
  JSON_parse metadataBlob = Some (manifest_json m) ->
  aesKeyBase64 <> "" ->
  importKeyFromBase64 aesKeyBase64 = Upload.aesCryptoKey (Upload.prep_closure prep) ->
  chunkedDownloadFile encodeURIComponent net JSON_parse CryptoKey importKeyFromBase64
    subtle_decrypt metadataCid aesKeyBase64 clock
  = mkRun (inr (Upload.name f))
      (clock + 1 + Upload.cl_totalChunks (Upload.prep_closure prep))
      (FetchMetadata metadataCid
       :: chunk_events 0 (entry_json <$> Upload.chunks m)
       ++ [SaveFile (Upload.name f) (JStr (Upload.meta_mimeType m)) (Upload.content f)]).
Proof.
  intros Hprep Hnone Hres Hsize Hcontent Hname Hcid Hmeta Hparse Hkey Himport.
  destruct (Upload.manifest_content world opts f idb0 prep sched metadataCid m
              sessionKey tx Hprep Hnone Hres)
    as (_ & Htype & Hfn & _ & _ & _ & _ & Hlen & Hchunks).
  set (cl := Upload.prep_closure prep) in *.
  destruct (Upload.prepare_spec world opts f idb0 prep Hprep)
    as (_ & HT & [key Hk] & _).
  fold cl in HT, Hk. rewrite Hk in Himport.
  destruct (Upload.slices_of_file world opts f idb0 prep Hprep Hsize) as [Hconcat _].
  fold cl in Hconcat.
  assert (Hne : Upload.chunks m <> []).
  { intros E. rewrite E in Hlen. cbn in Hlen.
    rewrite <- Hlen in Hconcat. cbn in Hconcat. congruence. }
  rewrite (download_succeeds encodeURIComponent net JSON_parse CryptoKey
             importKeyFromBase64 subtle_decrypt metadataCid aesKeyBase64 clock
             metadataBlob (manifest_json m) (Upload.name f)
             (entry_json <$> Upload.chunks m) key
             (Upload.file_slice cl <$> seq 0 (length (Upload.chunks m))));
    auto.
  - rewrite length_fmap, Hlen, Hconcat. reflexivity.
  - cbn. now rewrite Htype.
  - cbn. now rewrite Hfn.
  - intros E. apply fmap_nil_inv in E. contradiction.
  - apply (entries_served cl key (Upload.chunks m) Hk 0%nat).
    intros j e Hj. cbn [plus].
    assert (Hjlt : (j < Upload.cl_totalChunks cl)%nat).
    { rewrite <- Hlen. eapply lookup_lt_Some, Hj. }
    destruct (Hchunks j Hjlt) as (c & Hc & Hs). exists c. split; [congruence|exact Hs].
Qed.

End UploadDownload.

(** X18. Upload, then download, gives the file back.  Take a call of
    [chunkedUploadFile] on a non-empty, named file that finds no stored
    session under its key and resolves with a manifest at [metadataCid].
    Suppose AES-GCM decrypts what it encrypted, the proxy's storage is what
    the gateways serve (each cid it answered has the CID format and is
    served by the first gateway with the uploaded blob, and the manifest's
    cid with a blob that parses to the manifest), and the key handed to the
    download imports to the session's key.  Then [chunkedDownloadFile] on
    that cid makes one request per object, and saves, under the file's
    name, exactly the file's content. *)
Theorem upload_then_download_restores_file
    (CryptoKey : Type) (world : @Upload.World CryptoKey)
    (encodeURIComponent : string -> string)
    (net : nat -> string -> Gateway.fetch_outcome)
    (JSON_parse : list byte -> option jsval)
    (importKeyFromBase64 : string -> option CryptoKey)
    (subtle_decrypt : CryptoKey -> list byte -> list byte -> list byte
                      -> option (list byte))
    (opts : Upload.UploadOptions) (f : Upload.File)
    (idb0 : gmap string (@Upload.UploadState CryptoKey)) (prep : Upload.Prepared)
    (sched : list nat) (metadataCid : string) (m : Upload.Metadata)
    (sessionKey : string) (tx : option string)
    (metadataBlob : list byte) (aesKeyBase64 : string) (clock : nat) :
  (forall key iv aad data,
     subtle_decrypt key iv aad (Upload.subtle_encrypt world key iv aad data)
     = Some data) ->
  (forall key iv aad data, Upload.subtle_encrypt world key iv aad data <> []) ->
  (forall i, length (Upload.getRandomValues world i) = 12%nat) ->
  (forall call packed cid,
     Upload.uploadChunkWithRetries world call packed = inr cid ->
     cid_pattern cid = true /\ served net cid packed) ->
  Upload.prepare world opts f idb0 = inr prep ->
  idb0 !! Upload.sessionKey (Upload.prep_closure prep) = None ->
  Upload.result (Upload.chunkedUploadFile world opts f idb0 sched)
    = Upload.Resolved metadataCid m sessionKey tx ->
  (0 < Upload.opt_chunkSize opts)%nat ->
  Upload.content f <> [] -> Upload.name f <> "" ->
  cid_pattern metadataCid = true ->
  served net metadataCid metadataBlob ->
  JSON_parse metadataBlob = Some (manifest_json m) ->
  aesKeyBase64 <> "" ->
  importKeyFromBase64 aesKeyBase64 = Upload.aesCryptoKey (Upload.prep_closure prep) ->
  chunkedDownloadFile encodeURIComponent net JSON_parse CryptoKey importKeyFromBase64
    subtle_decrypt metadataCid aesKeyBase64 clock
  = mkRun (inr (Upload.name f))
      (clock + 1 + Upload.cl_totalChunks (Upload.prep_closure prep))
      (FetchMetadata metadataCid
       :: chunk_events 0 (entry_json <$> Upload.chunks m)
       ++ [SaveFile (Upload.name f) (JStr (Upload.meta_mimeType m)) (Upload.content f)]).
Proof.
  intros H1 H2 H3 H4.
  exact (download_of_upload CryptoKey world encodeURIComponent net JSON_parse
           importKeyFromBase64 subtle_decrypt H1 H2 H3 H4 opts f idb0 prep sched
           metadataCid m sessionKey tx metadataBlob aesKeyBase64 clock).
Qed.

(** *** A content-addressed store

    For the run below the proxy names a blob by its bytes, written in
    hexadecimal after the letter [b], and the gateway serves what the name
    spells. *)

Definition hex_digit (n : N) : ascii :=
  if (n <? 10)%N then ascii_of_N (48 + n) else ascii_of_N (87 + n).

Definition hex_of_byte (b : byte) : string :=
  let n := Byte.to_N b in
  String (hex_digit (n / 16)) (String (hex_digit (n mod 16)) "").

Fixpoint hex (l : list byte) : string :=
  match l with
  | [] => ""
  | b :: l' => hex_of_byte b +:+ hex l'
  end.

Definition unhex_digit (c : ascii) : option N :=
  let n := N_of_ascii c in
  if ((48 <=? n) && (n <=? 57))%N then Some (n - 48)%N
  else if ((97 <=? n) && (n <=? 102))%N then Some (n - 87)%N
  else None.

(** Decode pairs of hexadecimal digits up to the first character that is
    not one. *)
Fixpoint unhex (s : string) : list byte :=
  match s with
  | String a (String b rest) =>
      match unhex_digit a, unhex_digit b with
      | Some x, Some y =>
          match Byte.of_N (16 * x + y) with
          | Some byte => byte :: unhex rest
          | None => []
          end
      | _, _ => []
      end
  | _ => []
  end.

Fixpoint drop_prefix (p s : string) : option string :=
  match p, s with
  | EmptyString, _ => Some s
  | String a p', String b s' => if Ascii.eqb a b then drop_prefix p' s' else None
  | String _ _, EmptyString => None
  end.

Definition hex_upload (call : nat) (packed : list byte) : string + string :=
  match packed with
  | [] => inl "Upload failed: empty file"
  | _ => inr ("b" +:+ hex packed)
  end.

Definition hex_net (clock : nat) (url : string) : Gateway.fetch_outcome :=
  match drop_prefix "https://b" url with
  | Some rest => Gateway.Responded (Gateway.mkResponse 200 "" "" (inr (unhex rest)))
  | None => Gateway.Responded (Gateway.mkResponse 404 "" "" (inr []))
  end.

Lemma unhex_byte (b : byte) (s : string) :
  unhex (hex_of_byte b +:+ s) = b :: unhex s.
Proof. destruct b; reflexivity. Qed.

Lemma unhex_hex (l : list byte) : unhex (hex l +:+ ".ipfs.nftstorage.link") = l.
Proof.
  induction l as [|b l IH]; [reflexivity|].
  cbn [hex].
  change (unhex (hex_of_byte b +:+ (hex l +:+ ".ipfs.nftstorage.link")) = b :: l).
  now rewrite unhex_byte, IH.
Qed.

Lemma hex_alnum (l : list byte) : string_forallb is_alnum (hex l) = true.
Proof.
  induction l as [|b l IH]; [reflexivity|].
  cbn [hex]. rewrite Gateway.string_forallb_app, IH, andb_true_r.
  destruct b; reflexivity.
Qed.

Lemma hex_store (call : nat) (packed : list byte) (cid : string) :
  hex_upload call packed = inr cid ->
  cid_pattern cid = true /\ served hex_net cid packed.
Proof.
  unfold hex_upload. destruct packed as [|b l] eqn:E; [discriminate|].
  rewrite <- E. intros [= <-]. split.
  - change (alnum_plus (hex packed) = true).
    pose proof (hex_alnum packed) as H. subst packed.
    cbn [hex] in *. destruct (hex_of_byte b) eqn:Eb; [destruct b; discriminate|].
    exact H.
  - intros clock. exists (Gateway.mkResponse 200 "" "" (inr packed)).
    split; [|split; reflexivity].
    unfold hex_net.
    change (drop_prefix "https://b"
              ("https://" +:+ ("b" +:+ hex packed) +:+ ".ipfs.nftstorage.link"))
        with (Some (hex packed +:+ ".ipfs.nftstorage.link")).
    cbv beta iota. now rewrite unhex_hex.
Qed.

(** The upload of the ten-byte file in chunks of two bytes by two workers,
    on that store. *)
Definition rt_world : @Upload.World (list byte) :=
  Upload.mkWorld 1000 "k3x9" 17 true
    (fun _ _ => None) (fun _ => None) [x2a]
    (fun _ => true)
    ChunkCipher.plain_encrypt
    (fun i => repeat x07 12)
    hex_upload
    (fun _ => inr "b7b7d")
    (fun _ _ => Some "0xtx").

Definition rt_upload : Upload.upload_run :=
  Upload.chunkedUploadFile rt_world (Upload.demo_opts 2) Upload.demo_file ∅
    (Upload.round_robin 2 20).

Definition rt_manifest : Upload.Metadata :=
  match Upload.result rt_upload with
  | Upload.Resolved _ m _ _ => m
  | _ => Upload.mkMetadata "" "" "" 0 0 0 [] "" 0
  end.

Lemma upload_then_download_restores_file_witness :
  chunkedDownloadFile id hex_net (fun _ => Some (manifest_json rt_manifest)) (list byte)
    (fun _ => Some [x2a]) ChunkCipher.plain_decrypt "b7b7d" "Kg==" 0
  = mkRun (inr "a.bin")
      (0 + 1 + Upload.cl_totalChunks
                 (Upload.prep_closure
                    (Upload.prepared rt_world (Upload.demo_opts 2) Upload.demo_file ∅)))
      (FetchMetadata "b7b7d"
       :: chunk_events 0 (entry_json <$> Upload.chunks rt_manifest)
       ++ [SaveFile "a.bin" (JStr (Upload.meta_mimeType rt_manifest))
             (Upload.content Upload.demo_file)]).
Proof.
  apply (upload_then_download_restores_file (list byte) rt_world id hex_net
           (fun _ => Some (manifest_json rt_manifest)) (fun _ => Some [x2a])
           ChunkCipher.plain_decrypt (Upload.demo_opts 2) Upload.demo_file ∅
           (Upload.prepared rt_world (Upload.demo_opts 2) Upload.demo_file ∅)
           (Upload.round_robin 2 20) "b7b7d" rt_manifest "upload_0xabc_1000_k3x9" None
           [x7b; x7d] "Kg==" 0).
  - intros key iv aad data. apply ChunkCipher.plain_correct.
  - intros key iv aad data E. apply (f_equal length) in E.
    unfold Upload.subtle_encrypt, rt_world, ChunkCipher.plain_encrypt in E.
    rewrite length_app in E. cbn in E. lia.
  - reflexivity.
  - exact hex_store.
  - vm_compute. reflexivity.
  - vm_compute. reflexivity.
  - vm_compute. reflexivity.
  - cbn. lia.
  - discriminate.
  - discriminate.
  - reflexivity.
  - apply (hex_store 0 [x7b; x7d] "b7b7d"). reflexivity.
  - reflexivity.
  - discriminate.
  - vm_compute. reflexivity.
Defined.

Example round_trip_run :
  chunkedDownloadFile id hex_net (fun _ => Some (manifest_json rt_manifest)) (list byte)
    (fun _ => Some [x2a]) ChunkCipher.plain_decrypt "b7b7d" "Kg==" 0
  = mkRun (inr "a.bin") 6
      [ FetchMetadata "b7b7d";
        FetchChunk 0 (JStr "b070707070707070707070707000100000000000000000000000000000000");
        DecryptChunk 0;
        FetchChunk 1 (JStr "b070707070707070707070707020300000000000000000000000000000000");
        DecryptChunk 1;
        FetchChunk 2 (JStr "b070707070707070707070707040500000000000000000000000000000000");
        DecryptChunk 2;
        FetchChunk 3 (JStr "b070707070707070707070707060700000000000000000000000000000000");
        DecryptChunk 3;
        FetchChunk 4 (JStr "b070707070707070707070707080900000000000000000000000000000000");
        DecryptChunk 4;
        SaveFile "a.bin" (JStr "application/octet-stream")
          [x00; x01; x02; x03; x04; x05; x06; x07; x08; x09] ].
Proof. vm_compute. reflexivity. Qed.

(** *** The empty file *)

Lemma ceil_div_zero (c : nat) : (0 < c)%nat -> Upload.ceil_div 0 c = 0%nat.
Proof. intros Hc. unfold Upload.ceil_div. apply Nat.div_small. lia. Qed.

(** The manifest of a resolved call lists [totalChunks] entries, the number
    of chunks that the call computed. *)
Lemma manifest_shape {CryptoKey : Type} (world : @Upload.World CryptoKey)
    (opts : Upload.UploadOptions) (f : Upload.File)
    (idb0 : gmap string (@Upload.UploadState CryptoKey)) (sched : list nat)
    (c : string) (m : Upload.Metadata) (k : string) (tx : option string) :
  Upload.result (Upload.chunkedUploadFile world opts f idb0 sched)
    = Upload.Resolved c m k tx ->
  Upload.meta_type m = "dcs-chunked-file"
  /\ length (Upload.chunks m)
     = Upload.ceil_div (length (Upload.content f)) (Upload.opt_chunkSize opts).
Proof.
  unfold Upload.chunkedUploadFile.
  destruct (Upload.prepare world opts f idb0) as [msg|prep] eqn:Hprep; [discriminate|].
  destruct (Upload.prepare_closure world opts f idb0 prep Hprep) as (_ & _ & _ & HT).
  destruct (Upload.failure _); [discriminate|].
  destruct (forallb _ _); [|discriminate].
  unfold Upload.finish.
  destruct (Upload.build_chunks _ _ _) as [cs|] eqn:Hcs; [|discriminate].
  apply Upload.build_chunks_lookup in Hcs as [Hlen _]. rewrite HT in Hlen.
  cbn zeta. destruct (Upload.uploadMetadata world _); [discriminate|].
  destruct (_ && _).
  - destruct (Upload.encryptedAesForOwner _).
    + destruct (Upload.registerOnChain _ _ _); [|discriminate].
      intros [= _ <- _ _]. auto.
    + intros [= _ <- _ _]. auto.
  - intros [= _ <- _ _]. auto.
Qed.

(** X19. An empty file is uploaded but cannot be downloaded.  A call of
    [chunkedUploadFile] on a file of size zero that resolves has published
    a manifest with an empty [chunks] array; [chunkedDownloadFile] on that
    manifest fetches it and then throws ("missing or empty chunks array"),
    saving nothing. *)
Theorem empty_file_cannot_be_downloaded
    (CryptoKey : Type) (world : @Upload.World CryptoKey)
    (encodeURIComponent : string -> string)
    (net : nat -> string -> Gateway.fetch_outcome)
    (JSON_parse : list byte -> option jsval)
    (importKeyFromBase64 : string -> option CryptoKey)
    (subtle_decrypt : CryptoKey -> list byte -> list byte -> list byte
                      -> option (list byte))
    (opts : Upload.UploadOptions) (f : Upload.File)
    (idb0 : gmap string (@Upload.UploadState CryptoKey))
    (sched : list nat) (metadataCid : string) (m : Upload.Metadata)
    (sessionKey : string) (tx : option string)
    (metadataBlob : list byte) (aesKeyBase64 : string) (clock : nat) :
  Upload.content f = [] -> (0 < Upload.opt_chunkSize opts)%nat ->
  Upload.result (Upload.chunkedUploadFile world opts f idb0 sched)
    = Upload.Resolved metadataCid m sessionKey tx ->
  cid_pattern metadataCid = true ->
  served net metadataCid metadataBlob ->
  JSON_parse metadataBlob = Some (manifest_json m) ->
  aesKeyBase64 <> "" ->
  Upload.chunks m = []
  /\ chunkedDownloadFile encodeURIComponent net JSON_parse CryptoKey importKeyFromBase64
       subtle_decrypt metadataCid aesKeyBase64 clock
     = mkRun (inl MissingChunks) (S clock) [FetchMetadata metadataCid].
Proof.
  intros Hempty Hsize Hres Hcid Hserved Hparse Hkey.
  apply manifest_shape in Hres as [Htype Hres].
  assert (Hchunks : Upload.chunks m = []).
  { rewrite Hempty in Hres. cbn [length] in Hres.
    rewrite (ceil_div_zero _ Hsize) in Hres. now destruct (Upload.chunks m). }
  split; [exact Hchunks|].
  assert (Hfetch : fetch_metadata encodeURIComponent net JSON_parse metadataCid
                     aesKeyBase64 clock
                   = mkRun (inr (manifest_json m)) (S clock) [FetchMetadata metadataCid]).
  { unfold fetch_metadata.
    assert (E : String.eqb metadataCid "" = false).
    { apply String.eqb_neq. intros ->. discriminate. }
    rewrite E. unfold validateCID. cbn [js_String]. rewrite Hcid. cbn [negb orb].
    apply String.eqb_neq in Hkey. rewrite Hkey.
    unfold bind. cbn [emit outcome clock_after events].
    rewrite (gateway_fetch_served encodeURIComponent net metadataCid metadataBlob
               clock Hcid Hserved).
    cbn [outcome clock_after events]. now rewrite Hparse. }
  unfold chunkedDownloadFile.
  rewrite (bind_returns _ _ _ (manifest_json m)); rewrite Hfetch; [|reflexivity].
  cbn [outcome clock_after events].
  unfold process_metadata, manifest_json. rewrite Hchunks, Htype. reflexivity.
Qed.

(** The upload of an empty file by two workers, and the download of what
    it published. *)
Definition empty_file : Upload.File := Upload.mkFile "empty.txt" "text/plain" [].

Definition empty_upload : Upload.upload_run :=
  Upload.chunkedUploadFile rt_world (Upload.demo_opts 2) empty_file ∅ [0; 1]%nat.

Lemma empty_file_cannot_be_downloaded_witness :
  Upload.chunks (Upload.manifest_of empty_upload) = []
  /\ chunkedDownloadFile id hex_net
       (fun _ => Some (manifest_json (Upload.manifest_of empty_upload))) (list byte)
       (fun _ => Some [x2a]) ChunkCipher.plain_decrypt "b7b7d" "Kg==" 0
     = mkRun (inl MissingChunks) 1 [FetchMetadata "b7b7d"].
Proof.
  apply (empty_file_cannot_be_downloaded (list byte) rt_world id hex_net
           (fun _ => Some (manifest_json (Upload.manifest_of empty_upload)))
           (fun _ => Some [x2a]) ChunkCipher.plain_decrypt (Upload.demo_opts 2)
           empty_file ∅ [0; 1]%nat "b7b7d" (Upload.manifest_of empty_upload)
           "upload_0xabc_1000_k3x9" None [x7b; x7d] "Kg==" 0).
  - reflexivity.
  - cbn. lia.
  - vm_compute. reflexivity.
  - reflexivity.
  - apply (hex_store 0 [x7b; x7d] "b7b7d"). reflexivity.
  - reflexivity.
  - discriminate.
Defined.

End RoundTrip.

(** ** The proxy client: [uploadChunkWithRetries] in [chunkedUpload.ts] *)

Module Proxy.

Import Download.

(** What the function reads of the response to [POST proxyUrl/upload]. *)
Record response := mkResponse {
  ok : bool;                          (* response.ok *)
  statusText : string;
  contentType : option string;        (* response.headers.get("content-type") *)
  json : string + jsval;              (* response.json(); [inl] is the message of its rejection *)
  text : option string                (* response.text(); [None] if it rejects *)
}.

Inductive fetch_outcome :=
| Rejected (message : string)         (* fetch rejected with an Error *)
| Responded (r : response).

(** The outcome of one pass through the [try] block. *)
Inductive attempt_result :=
| Returned (cid : jsval)
| Threw (message : string).

Inductive event :=
| Fetch (attempt : nat) (url : string)
| Sleep (ms : N).                     (* setTimeout(r, delay) *)

Record run := mkRun { outcome : attempt_result; events : list event }.

(** The message of the error thrown for a response that is not ok. *)
Definition failure_message (r : response) : string :=
  let fallback := "Upload failed: " +:+ statusText r in
  let from_text :=
    match text r with
    | Some errorText =>
        if String.eqb errorText "" then fallback else "Upload failed: " +:+ errorText
    | None => fallback
    end in
  match contentType r with
  | Some ct =>
      if negb (String.eqb ct "") && includes "application/json" ct then
        match json r with
        | inr errorBody =>
            if is_null errorBody then fallback     (* TypeError, caught *)
            else if truthy (prop errorBody "error") then
              js_String (prop errorBody "error")
              +:+ (if truthy (prop errorBody "detail")
                   then " - " +:+ js_String (prop errorBody "detail")
                   else "")
            else fallback
        | inl _ => fallback
        end
      else from_text
  | None => from_text
  end.

(** "Don't retry on certain errors" *)
Definition no_retry (message : string) : bool :=
  includes "Unauthorized" message || includes "401" message
  || includes "400" message || includes "File too large" message.

Section Client.

(** The network: the outcome of the request of attempt [attempt]. *)
Variable net : nat -> fetch_outcome.
(** The message of the TypeError for reading [cid] of [null]. *)
Variable null_property_message : string.

Definition try_once (attempt : nat) : attempt_result :=
  match net attempt with
  | Rejected message => Threw message
  | Responded r =>
      if negb (ok r) then Threw (failure_message r)
      else
        match json r with
        | inl message => Threw message
        | inr result =>
            if is_null result then Threw null_property_message
            else if truthy (prop result "cid") then Returned (prop result "cid")
            else Threw "Server response missing CID"
        end
  end.

(** [const delay = 1000 * Math.pow(2, attempt)] *)
Definition delay (attempt : nat) : N := (1000 * 2 ^ N.of_nat attempt)%N.

(** The loop [for (let attempt = 0; attempt < maxRetries; attempt++)] from
    [attempt] on; [fuel] is [maxRetries - attempt]. *)
Fixpoint loop (proxyUrl : string) (maxRetries fuel attempt : nat)
    (lastError : option string) : run :=
  match fuel with
  | O => mkRun (Threw (default "Upload failed after retries" lastError)) []
  | S fuel' =>
      let request := Fetch attempt (proxyUrl +:+ "/upload") in
      match try_once attempt with
      | Returned cid => mkRun (Returned cid) [request]
      | Threw message =>
          if no_retry message then mkRun (Threw message) [request]
          else
            let pause :=
              if (attempt <? maxRetries - 1)%nat then [Sleep (delay attempt)] else [] in
            let r := loop proxyUrl maxRetries fuel' (S attempt) (Some message) in
            mkRun (outcome r) (request :: pause ++ events r)
      end
  end.

(** [uploadChunkWithRetries(blob, { proxyUrl, maxRetries })] *)
Definition uploadChunkWithRetries (proxyUrl : string) (maxRetries : nat) : run :=
  if String.eqb proxyUrl "" then mkRun (Threw "Proxy URL required") []
  else loop proxyUrl maxRetries maxRetries 0 None.

(** *** Properties of the retries *)

(** Attempt [j] fails with an error that is retried. *)
Definition retried (j : nat) : Prop :=
  exists message, try_once j = Threw message /\ no_retry message = false.

(** Attempt [k] ends the loop: it returns, or fails with an error that is
    not retried. *)
Definition decisive (k : nat) : Prop :=
  match try_once k with
  | Returned _ => True
  | Threw message => no_retry message = true
  end.

(** The requests of the attempts [from .. from+n-1], each followed by its
    pause. *)
Definition retries (proxyUrl : string) (from n : nat) : list event :=
  flat_map (fun j => [Fetch j (proxyUrl +:+ "/upload"); Sleep (delay j)]) (seq from n).

Lemma loop_decisive (proxyUrl : string) (maxRetries : nat) :
  forall n fuel attempt lastError,
    (attempt + n < maxRetries)%nat -> (n < fuel)%nat ->
    (forall j, (attempt <= j < attempt + n)%nat -> retried j) ->
    decisive (attempt + n) ->
    loop proxyUrl maxRetries fuel attempt lastError
    = mkRun (try_once (attempt + n))
        (retries proxyUrl attempt n ++ [Fetch (attempt + n) (proxyUrl +:+ "/upload")]).
Proof.
  induction n as [|n IH]; intros fuel attempt lastError Hk Hfuel Hre Hdec.
  - rewrite Nat.add_0_r in *. destruct fuel as [|fuel]; [lia|].
    cbn [loop retries seq flat_map app]. unfold decisive in Hdec.
    destruct (try_once attempt) as [cid|message]; [reflexivity|]. now rewrite Hdec.
  - destruct fuel as [|fuel]; [lia|]. cbn [loop].
    destruct (Hre attempt ltac:(lia)) as (message & -> & ->).
    assert (Hlt : (attempt <? maxRetries - 1)%nat = true) by (apply Nat.ltb_lt; lia).
    rewrite Hlt.
    replace (attempt + S n)%nat with (S attempt + n)%nat in * by lia.
    rewrite (IH fuel (S attempt) (Some message)); try lia; auto.
    intros j Hj. apply Hre. lia.
Qed.

Lemma loop_exhausted (proxyUrl : string) (maxRetries : nat) :
  forall fuel attempt lastError,
    (attempt + fuel = maxRetries)%nat -> (0 < fuel)%nat ->
    (forall j, (attempt <= j < maxRetries)%nat -> retried j) ->
    loop proxyUrl maxRetries fuel attempt lastError
    = mkRun (try_once (maxRetries - 1))
        (retries proxyUrl attempt (fuel - 1)
         ++ [Fetch (maxRetries - 1) (proxyUrl +:+ "/upload")]).
Proof.
  induction fuel as [|fuel IH]; intros attempt lastError Hsum Hpos Hre; [lia|].
  cbn [loop]. destruct (Hre attempt ltac:(lia)) as (message & Hm & Hn).
  rewrite Hm, Hn. destruct fuel as [|fuel].
  - assert (Hlt : (attempt <? maxRetries - 1)%nat = false) by (apply Nat.ltb_ge; lia).
    rewrite Hlt. cbn [loop outcome events retries seq flat_map app Nat.sub].
    replace (maxRetries - 1)%nat with attempt by lia. now rewrite Hm.
  - assert (Hlt : (attempt <? maxRetries - 1)%nat = true) by (apply Nat.ltb_lt; lia).
    rewrite Hlt. rewrite (IH (S attempt) (Some message)); try lia.
    + cbn [outcome events]. replace (S (S fuel) - 1)%nat with (S (S fuel - 1)) by lia.
      reflexivity.
    + intros j Hj. apply Hre. lia.
Qed.

(** The time spent in the pauses of a run. *)
Definition total_sleep (evs : list event) : N :=
  fold_right (fun ev acc => match ev with Sleep ms => (ms + acc)%N | _ => acc end) 0%N evs.

Lemma total_sleep_app (a b : list event) :
  total_sleep (a ++ b) = (total_sleep a + total_sleep b)%N.
Proof.
  unfold total_sleep. induction a as [|ev a IH]; cbn [app fold_right]; [reflexivity|].
  rewrite IH. destruct ev; lia.
Qed.

Lemma total_sleep_retries (proxyUrl : string) (n : nat) :
  forall from,
    total_sleep (retries proxyUrl from n)
    = (1000 * (2 ^ N.of_nat (from + n) - 2 ^ N.of_nat from))%N.
Proof.
  induction n as [|n IH]; intros from.
  - rewrite Nat.add_0_r. cbn. lia.
  - change (retries proxyUrl from (S n))
      with ([Fetch from (proxyUrl +:+ "/upload"); Sleep (delay from)]
            ++ retries proxyUrl (S from) n).
    rewrite total_sleep_app, IH. cbn [total_sleep fold_right]. unfold delay.
    replace (S from + n)%nat with (from + S n)%nat by lia.
    replace (N.of_nat (S from)) with (N.succ (N.of_nat from)) by lia.
    rewrite N.pow_succ_r'.
    assert (2 ^ N.of_nat (S from) <= 2 ^ N.of_nat (from + S n))%N
      by (apply N.pow_le_mono_r; lia).
    replace (N.of_nat (S from)) with (N.succ (N.of_nat from)) in * by lia.
    rewrite N.pow_succ_r' in *. lia.
Qed.

(** X20. The retries stop at the first attempt that returns a cid or fails
    with an error that is not retried (its message mentions Unauthorized,
    401, 400 or File too large).  When that is attempt [k], the function
    has made the requests [0 .. k], has paused [1000 * 2^j] ms after each
    failed attempt [j < k], and ends as attempt [k] did. *)
Theorem retries_stop_at_decisive_attempt
    (proxyUrl : string) (maxRetries k : nat) :
  proxyUrl <> "" -> (k < maxRetries)%nat ->
  (forall j, (j < k)%nat -> retried j) -> decisive k ->
  uploadChunkWithRetries proxyUrl maxRetries
  = mkRun (try_once k)
      (retries proxyUrl 0 k ++ [Fetch k (proxyUrl +:+ "/upload")]).
Proof.
  intros Hurl Hk Hre Hdec. unfold uploadChunkWithRetries.
  apply String.eqb_neq in Hurl. rewrite Hurl.
  apply (loop_decisive proxyUrl maxRetries k maxRetries 0 None); auto; try lia.
  intros j Hj. apply Hre. lia.
Qed.

(** X21. Giving up.  When every attempt fails with an error that is
    retried, the function makes exactly [maxRetries] requests, pauses
    [1000 * 2^j] ms after each attempt but the last (in all
    [1000 * (2^(maxRetries-1) - 1)] ms: three seconds for the default of
    three attempts), and throws the error of the last attempt. *)
Theorem retries_give_up (proxyUrl : string) (maxRetries : nat) :
  proxyUrl <> "" -> (0 < maxRetries)%nat ->
  (forall j, (j < maxRetries)%nat -> retried j) ->
  let r := uploadChunkWithRetries proxyUrl maxRetries in
  r = mkRun (try_once (maxRetries - 1))
        (retries proxyUrl 0 (maxRetries - 1)
         ++ [Fetch (maxRetries - 1) (proxyUrl +:+ "/upload")])
  /\ total_sleep (events r) = (1000 * (2 ^ N.of_nat (maxRetries - 1) - 1))%N.
Proof.
  intros Hurl Hpos Hre r. subst r. unfold uploadChunkWithRetries.
  apply String.eqb_neq in Hurl. rewrite Hurl.
  rewrite (loop_exhausted proxyUrl maxRetries maxRetries 0 None); auto; try lia.
  - split; [reflexivity|]. cbn [events].
    rewrite total_sleep_app, total_sleep_retries. cbn [total_sleep fold_right plus].
    cbn [N.of_nat]. rewrite N.pow_0_r. lia.
  - intros j Hj. apply Hre. lia.
Qed.

End Client.

(** The responses of the repository's server ([server/chunkedService.js],
    route [/upload]) as the client sees them. *)
Definition json_error (error detail : string) : response :=
  mkResponse false "" (Some "application/json; charset=utf-8")
    (inr (JObj [("error", JStr error); ("detail", JStr detail)])) None.

Definition json_cid (cid : string) : response :=
  mkResponse true "" (Some "application/json; charset=utf-8")
    (inr (JObj [("cid", JStr cid); ("name", JStr "chunk.bin")])) None.

(** The storage service fails twice, then the chunk is stored. *)
Definition flaky_net (attempt : nat) : fetch_outcome :=
  match attempt with
  | 0%nat => Rejected "Failed to fetch"
  | 1%nat => Responded (json_error "Storage service error" "timeout of 60000ms exceeded")
  | _ => Responded (json_cid "bafychunk")
  end.

Lemma retries_stop_at_decisive_attempt_witness :
  uploadChunkWithRetries flaky_net "TypeError" "https://proxy" 3
  = mkRun (try_once flaky_net "TypeError" 2)
      (retries "https://proxy" 0 2 ++ [Fetch 2 ("https://proxy" +:+ "/upload")]).
Proof.
  apply (retries_stop_at_decisive_attempt flaky_net "TypeError" "https://proxy" 3 2).
  - discriminate.
  - lia.
  - intros [|[|j]] Hj; [| |lia]; eexists; split; reflexivity.
  - exact I.
Defined.

Example flaky_upload :
  uploadChunkWithRetries flaky_net "TypeError" "https://proxy" 3
  = mkRun (Returned (JStr "bafychunk"))
      [ Fetch 0 "https://proxy/upload"; Sleep 1000;
        Fetch 1 "https://proxy/upload"; Sleep 2000;
        Fetch 2 "https://proxy/upload" ].
Proof. vm_compute. reflexivity. Qed.

(** The storage service stays down. *)
Definition down_net (attempt : nat) : fetch_outcome :=
  Responded (json_error "Storage service error" "connect ECONNREFUSED").

Lemma retries_give_up_witness :
  let r := uploadChunkWithRetries down_net "TypeError" "https://proxy" 3 in
  r = mkRun (try_once down_net "TypeError" (3 - 1))
        (retries "https://proxy" 0 (3 - 1)
         ++ [Fetch (3 - 1) ("https://proxy" +:+ "/upload")])
  /\ total_sleep (events r) = (1000 * (2 ^ N.of_nat (3 - 1) - 1))%N.
Proof.
  apply (retries_give_up down_net "TypeError" "https://proxy" 3).
  - discriminate.
  - lia.
  - intros j Hj. eexists. split; reflexivity.
Defined.

(** A request that the server refuses for its signature ([401], body
    [{error: "Unauthorized", ...}]) or its size ([413], "File too large")
    is not repeated; one that it refuses as a bad request ([400], "No file
    provided under 'file' field") is, since its message names no status. *)
Example refusals :
  uploadChunkWithRetries
    (fun _ => Responded (json_error "Unauthorized" "HMAC authentication failed"))
    "TypeError" "https://proxy" 3
  = mkRun (Threw "Unauthorized - HMAC authentication failed")
      [Fetch 0 "https://proxy/upload"]
  /\ uploadChunkWithRetries
       (fun _ => Responded (json_error "File too large" "Maximum file size is 100MB"))
       "TypeError" "https://proxy" 3
     = mkRun (Threw "File too large - Maximum file size is 100MB")
         [Fetch 0 "https://proxy/upload"]
  /\ uploadChunkWithRetries
       (fun _ => Responded
                   (mkResponse false "" (Some "application/json; charset=utf-8")
                      (inr (JObj [("error", JStr "No file provided under 'file' field")]))
                      None))
       "TypeError" "https://proxy" 3
     = mkRun (Threw "No file provided under 'file' field")
         [ Fetch 0 "https://proxy/upload"; Sleep 1000;
           Fetch 1 "https://proxy/upload"; Sleep 2000;
           Fetch 2 "https://proxy/upload" ].
Proof. vm_compute. repeat split; reflexivity. Qed.

End Proxy.

(** ** Upload authentication: [generateHmacHeaders] and [verifyHmac]

    The client of [chunkedUpload.ts] signs every request to the proxy; the
    upload service checks the signature, the age of the request and that
    its nonce is new, and forgets nonces on a timer. *)

Module Auth.

(** A JavaScript number as the server meets it: [Number(ts)] of a header. *)
Inductive js_number :=
| NaN
| Infinite
| Finite (q : Q).

(** The headers of a request, by lower-case name. *)
Definition headers := gmap string string.

(** [nonceStore], a [Map] from nonce to the time it was accepted: its
    entries in insertion order, every key at most once. *)
Definition nonce_store := list (string * N).

(** [nonceStore.has(nonce)] *)
Definition store_has (store : nonce_store) (nonce : string) : bool :=
  existsb (fun e => String.eqb (fst e) nonce) store.

(** [nonceStore.set(nonce, t)]: a known key keeps its place. *)
Definition store_set (store : nonce_store) (nonce : string) (t : N) : nonce_store :=
  if store_has store nonce
  then List.map (fun e => if String.eqb (fst e) nonce then (nonce, t) else e) store
  else store ++ [(nonce, t)].

(** [nonceStore.delete(nonce)] *)
Definition store_delete (store : nonce_store) (nonce : string) : nonce_store :=
  List.filter (fun e => negb (String.eqb (fst e) nonce)) store.

(** [const NONCE_TTL = 10 * 60 * 1000], [const MAX_NONCES = 10000] *)
Definition NONCE_TTL : Z := 10 * 60 * 1000.
Definition MAX_NONCES : Z := 10000.

(** [entries.sort((a, b) => a[1] - b[1])]: by time, oldest first, entries of
    the same time in their order (the sort of an array is stable). *)
Fixpoint insert_by_time (e : string * N) (l : list (string * N)) : list (string * N) :=
  match l with
  | [] => [e]
  | x :: l' => if (snd e <=? snd x)%N then e :: l else x :: insert_by_time e l'
  end.

Definition sort_by_time (l : list (string * N)) : list (string * N) :=
  fold_right insert_by_time [] l.

(** The body of the [setInterval] callback, run at time [now]. *)
Definition sweep (now : N) (store : nonce_store) : nonce_store :=
  let store1 :=
    fold_left (fun s e => if (Z.of_N now - Z.of_N (snd e) >? NONCE_TTL)%Z
                          then store_delete s (fst e) else s) store store in
  if (Z.of_nat (length store1) >? MAX_NONCES)%Z then
    let entries :=
      take (Z.to_nat (Z.of_nat (length store1) - MAX_NONCES)) (sort_by_time store1) in
    fold_left (fun s e => store_delete s (fst e)) entries store1
  else store1.


(** *** The nonce store *)

Definition keys (store : nonce_store) : list string := List.map fst store.

Lemma store_has_elem (store : nonce_store) (nonce : string) :
  store_has store nonce = true <-> nonce ∈ keys store.
Proof.
  unfold store_has, keys. rewrite existsb_exists, list_elem_of_fmap. split.
  - intros (e & Hin & Heq). apply String.eqb_eq in Heq. exists e. split; [auto|].
    now apply list_elem_of_In.
  - intros (e & -> & Hin). exists e. split; [now apply list_elem_of_In|].
    apply String.eqb_refl.
Qed.

Lemma store_has_absent (store : nonce_store) (nonce : string) :
  store_has store nonce = false <-> nonce ∉ keys store.
Proof.
  rewrite <- store_has_elem. destruct (store_has store nonce); split; intros; congruence.
Qed.

(** Deleting the keys of [l] that [p] selects, one after the other. *)
Lemma fold_delete (p : string * N -> bool) (l : list (string * N)) :
  forall s : nonce_store,
    fold_left (fun s e => if p e then store_delete s (fst e) else s) l s
    = List.filter (fun e => negb (existsb (fun x => p x && String.eqb (fst x) (fst e)) l)) s.
Proof.
  induction l as [|a l IH]; intros s; cbn [fold_left existsb].
  - cbn. induction s as [|e s IHs]; [reflexivity|]. cbn. now rewrite <- IHs.
  - rewrite IH. destruct (p a) eqn:Hp; cbn [andb].
    + unfold store_delete. induction s as [|e s IHs]; [reflexivity|].
      cbn [List.filter]. rewrite (String.eqb_sym (fst a) (fst e)).
      destruct (String.eqb (fst e) (fst a)); cbn [negb orb].
      * exact IHs.
      * cbn [List.filter]. now rewrite IHs.
    + reflexivity.
Qed.

Lemma filter_keys_NoDup (f : string * N -> bool) (s : nonce_store) :
  NoDup (keys s) -> NoDup (keys (List.filter f s)).
Proof.
  unfold keys. induction s as [|e s IH]; intros Hnd; [constructor|].
  cbn in Hnd. apply NoDup_cons in Hnd as [Hnot Hnd].
  cbn [List.filter]. destruct (f e); [|auto].
  cbn. apply NoDup_cons. split; [|auto].
  intros Hin. apply Hnot.
  apply list_elem_of_fmap in Hin as (x & -> & Hx).
  apply list_elem_of_fmap. exists x. split; [reflexivity|].
  apply list_elem_of_In in Hx. apply filter_In in Hx as [Hx _].
  now apply list_elem_of_In.
Qed.

Lemma filter_length_le {A} (f : A -> bool) (l : list A) :
  (length (List.filter f l) <= length l)%nat.
Proof. induction l as [|a l IH]; cbn; [lia|]. destruct (f a); cbn; lia. Qed.

(** With every key at most once, the first loop of the callback keeps
    exactly the entries that are not older than [NONCE_TTL]. *)
Lemma expire_filter (now : N) (s : nonce_store) :
  NoDup (keys s) ->
  fold_left (fun s e => if (Z.of_N now - Z.of_N (snd e) >? NONCE_TTL)%Z
                        then store_delete s (fst e) else s) s s
  = List.filter (fun e => negb (Z.of_N now - Z.of_N (snd e) >? NONCE_TTL)%Z) s.
Proof.
  intros Hnd.
  rewrite (fold_delete (fun e => (Z.of_N now - Z.of_N (snd e) >? NONCE_TTL)%Z)).
  apply filter_ext_in. intros e He. f_equal.
  destruct (Z.of_N now - Z.of_N (snd e) >? NONCE_TTL)%Z eqn:Hold.
  - apply existsb_exists. exists e. rewrite Hold, String.eqb_refl. auto.
  - apply not_true_is_false. intros Hex. apply existsb_exists in Hex as (x & Hx & Hp).
    apply andb_prop in Hp as [Hp Hk]. apply String.eqb_eq in Hk.
    assert (x = e); [|congruence].
    apply list_elem_of_In in Hx, He.
    apply list_elem_of_lookup in Hx as [i Hi], He as [j Hj].
    assert (i = j); [|congruence].
    apply (NoDup_lookup (keys s) i j (fst e)); [assumption| |];
      unfold keys; rewrite list_lookup_fmap; [rewrite Hi|rewrite Hj]; cbn; congruence.
Qed.

Lemma insert_by_time_perm (e : string * N) (l : list (string * N)) :
  insert_by_time e l ≡ₚ e :: l.
Proof.
  induction l as [|x l IH]; cbn [insert_by_time]; [reflexivity|].
  destruct (snd e <=? snd x)%N; [reflexivity|].
  rewrite IH. apply perm_swap.
Qed.

Lemma sort_by_time_perm (l : list (string * N)) : sort_by_time l ≡ₚ l.
Proof.
  unfold sort_by_time. induction l as [|x l IH]; cbn [fold_right]; [reflexivity|].
  now rewrite insert_by_time_perm, IH.
Qed.

Lemma filter_perm {A} (f : A -> bool) (l l' : list A) :
  l ≡ₚ l' -> List.filter f l ≡ₚ List.filter f l'.
Proof.
  induction 1 as [|x l l' _ IH|x y l|l l' l'' _ IH1 _ IH2]; cbn [List.filter].
  - reflexivity.
  - destruct (f x); [now apply perm_skip|assumption].
  - destruct (f x), (f y); try reflexivity. apply perm_swap.
  - now rewrite IH1.
Qed.

Lemma filter_none {A} (f : A -> bool) (l : list A) :
  (forall e, In e l -> f e = false) -> List.filter f l = [].
Proof.
  induction l as [|e l IH]; intros Hall; [reflexivity|]. cbn [List.filter].
  rewrite (Hall e) by now left. apply IH. intros x Hx. apply Hall. now right.
Qed.

Lemma filter_all {A} (f : A -> bool) (l : list A) :
  (forall e, In e l -> f e = true) -> List.filter f l = l.
Proof.
  induction l as [|e l IH]; intros Hall; [reflexivity|]. cbn [List.filter].
  rewrite (Hall e) by now left. f_equal. apply IH. intros x Hx. apply Hall. now right.
Qed.

(** Deleting the keys of a prefix of a rearrangement leaves the rest. *)
Lemma delete_prefix_length (s sorted : nonce_store) (k : nat) :
  NoDup (keys s) -> sorted ≡ₚ s -> (k <= length s)%nat ->
  length (fold_left (fun s e => store_delete s (fst e)) (take k sorted) s)
  = (length s - k)%nat.
Proof.
  intros Hnd Hperm Hk.
  pose proof (fold_delete (fun _ => true) (take k sorted) s) as Hfold.
  cbn beta iota in Hfold. rewrite Hfold. clear Hfold.
  set (P := fun e : string * N =>
              negb (existsb (fun x => true && String.eqb (fst x) (fst e)) (take k sorted))).
  rewrite <- (Permutation_length (filter_perm P _ _ Hperm)).
  assert (Hnd' : NoDup (keys sorted)).
  { unfold keys. now rewrite Hperm. }
  assert (Hlen : length sorted = length s) by now apply Permutation_length.
  rewrite <- (take_drop k sorted) in Hnd'. unfold keys in Hnd'.
  rewrite fmap_app in Hnd'. apply NoDup_app in Hnd' as (_ & Hdisj & _).
  rewrite <- (take_drop k sorted) at 1. rewrite List.filter_app, length_app.
  assert (H1 : List.filter P (take k sorted) = []).
  { assert (Hall : forall e, In e (take k sorted) -> P e = false).
    { intros e He. unfold P. apply negb_false_iff, existsb_exists.
      exists e. now rewrite String.eqb_refl. }
    now apply filter_none. }
  assert (H2 : List.filter P (drop k sorted) = drop k sorted).
  { assert (Hall : forall e, In e (drop k sorted) -> P e = true).
    { intros e He. unfold P. apply negb_true_iff, not_true_is_false.
      intros Hex. apply existsb_exists in Hex as (x & Hx & Heq).
      cbn [andb] in Heq. apply String.eqb_eq in Heq.
      apply (Hdisj (fst x)).
      - apply list_elem_of_fmap. exists x. split; [reflexivity|now apply list_elem_of_In].
      - rewrite Heq. apply list_elem_of_fmap. exists e.
        split; [reflexivity|now apply list_elem_of_In]. }
    now apply filter_all. }
  rewrite H1, H2, length_drop. cbn [length]. lia.
Qed.

Lemma sweep_unfold (now : N) (s : nonce_store) :
  NoDup (keys s) ->
  let s1 := List.filter (fun e => negb (Z.of_N now - Z.of_N (snd e) >? NONCE_TTL)%Z) s in
  NoDup (keys s1)
  /\ sweep now s =
       if (Z.of_nat (length s1) >? MAX_NONCES)%Z then
         fold_left (fun s e => store_delete s (fst e))
           (take (Z.to_nat (Z.of_nat (length s1) - MAX_NONCES)) (sort_by_time s1)) s1
       else s1.
Proof.
  intros Hnd s1. split; [now apply filter_keys_NoDup|].
  unfold sweep. now rewrite expire_filter.
Qed.

Lemma sweep_NoDup (now : N) (s : nonce_store) :
  NoDup (keys s) -> NoDup (keys (sweep now s)).
Proof.
  intros Hnd. destruct (sweep_unfold now s Hnd) as [Hnd1 ->].
  destruct (_ >? _)%Z; [|assumption].
  rewrite (fold_delete (fun _ => true)). now apply filter_keys_NoDup.
Qed.

Lemma sweep_length (now : N) (s : nonce_store) :
  NoDup (keys s) -> (Z.of_nat (length (sweep now s)) <= MAX_NONCES)%Z.
Proof.
  intros Hnd. destruct (sweep_unfold now s Hnd) as [Hnd1 ->].
  set (s1 := List.filter _ s) in *.
  destruct (Z.of_nat (length s1) >? MAX_NONCES)%Z eqn:Hbig.
  - rewrite delete_prefix_length; [|assumption|apply sort_by_time_perm|];
      unfold MAX_NONCES in *; lia.
  - unfold MAX_NONCES in *. lia.
Qed.

Lemma sweep_subset (now : N) (s : nonce_store) (e : string * N) :
  NoDup (keys s) -> In e (sweep now s) ->
  In e s /\ (Z.of_N now - Z.of_N (snd e) <= NONCE_TTL)%Z.
Proof.
  intros Hnd. destruct (sweep_unfold now s Hnd) as [_ ->].
  assert (Hf : forall x, In x (List.filter
             (fun e => negb (Z.of_N now - Z.of_N (snd e) >? NONCE_TTL)%Z) s) ->
             In x s /\ (Z.of_N now - Z.of_N (snd x) <= NONCE_TTL)%Z).
  { intros x Hx. apply filter_In in Hx as [Hx Hfresh]. split; [assumption|].
    apply negb_true_iff in Hfresh. lia. }
  destruct (_ >? _)%Z; [|apply Hf].
  rewrite (fold_delete (fun _ => true)). intros He.
  apply filter_In in He as [He _]. now apply Hf.
Qed.

Lemma sweep_keeps (now : N) (s : nonce_store) (e : string * N) :
  NoDup (keys s) -> (Z.of_nat (length s) <= MAX_NONCES)%Z ->
  In e s -> (Z.of_N now - Z.of_N (snd e) <= NONCE_TTL)%Z ->
  In e (sweep now s).
Proof.
  intros Hnd Hlen He Hfresh. destruct (sweep_unfold now s Hnd) as [_ ->].
  set (s1 := List.filter _ s).
  assert (Hle : (length s1 <= length s)%nat) by apply filter_length_le.
  destruct (Z.of_nat (length s1) >? MAX_NONCES)%Z eqn:Hbig; [lia|].
  apply filter_In. split; [assumption|]. apply negb_true_iff. lia.
Qed.

Lemma sweep_length_le (now : N) (s : nonce_store) :
  NoDup (keys s) -> (length (sweep now s) <= length s)%nat.
Proof.
  intros Hnd. destruct (sweep_unfold now s Hnd) as [_ ->].
  set (s1 := List.filter _ s).
  assert (Hle : (length s1 <= length s)%nat) by apply filter_length_le.
  destruct (_ >? _)%Z; [|assumption].
  rewrite (fold_delete (fun _ => true)).
  etransitivity; [apply filter_length_le|assumption].
Qed.

Section Hmac.

(** HMAC-SHA-256 of a message under a key, both as bytes: the client's
    [crypto.subtle.sign('HMAC', ...)] and the server's
    [crypto.createHmac("sha256", ...)]. *)
Variable hmac_sha256 : list byte -> list byte -> list byte.

(** [Number(s)] *)
Variable Number : string -> js_number.

(** [bytes.map(b => b.toString(16).padStart(2, '0')).join('')], which is also
    [digest("hex")] *)
Definition toHex (bytes : list byte) : string := RoundTrip.hex bytes.

(** [generateHmacHeaders] of [chunkedUpload.ts].  [UPLOAD_SECRET] is the
    client's constant, [now] the value of [Date.now()] and [random16] that of
    [crypto.getRandomValues(new Uint8Array(16))]. *)
Definition generateHmacHeaders (UPLOAD_SECRET : string) (now : N)
    (random16 : list byte) : headers :=
  if String.eqb UPLOAD_SECRET "" then ∅
  else
    let timestamp := toString (N.to_nat now) in
    let nonce := toHex random16 in
    let payload := timestamp +:+ "." +:+ nonce in
    let keyData := TextEncoder_encode UPLOAD_SECRET in
    let payloadData := TextEncoder_encode payload in
    let signature := hmac_sha256 keyData payloadData in
    let signatureHex := toHex signature in
    <["x-upload-ts" := timestamp]>
      (<["x-upload-nonce" := nonce]>
        (<["x-upload-signature" := signatureHex]> ∅)).

(** [!h] for a header that may be absent *)
Definition missing (h : option string) : bool :=
  match h with
  | None => true
  | Some s => String.eqb s ""
  end.

(** [verifyHmac] of the upload service.  [UPLOAD_SECRET] and [NODE_ENV] are
    the server's constants; [now_check] and [now_set] are the two readings
    of [Date.now()], for the age of the request and for the entry of the
    nonce.  The result is the verdict and the nonce store after the call. *)
Definition verifyHmac (UPLOAD_SECRET : option string) (NODE_ENV : string)
    (now_check now_set : N) (req : headers) (store : nonce_store)
    : bool * nonce_store :=
  if missing UPLOAD_SECRET then
    if String.eqb NODE_ENV "production" then (false, store) else (true, store)
  else
    let secret := default "" UPLOAD_SECRET in
    let ts := req !! "x-upload-ts" in
    let nonce := req !! "x-upload-nonce" in
    let sig := req !! "x-upload-signature" in
    if missing ts || missing nonce || missing sig then (false, store)
    else
      let ts := default "" ts in
      let nonce := default "" nonce in
      let sig := default "" sig in
      match Number ts with
      | NaN => (false, store)
      | Infinite => (false, store)
      | Finite timestamp =>
          let age := Qabs (inject_Z (Z.of_N now_check) - timestamp) in
          if negb (Qle_bool age (inject_Z (5 * 60 * 1000))) then (false, store)
          else if store_has store nonce then (false, store)
          else
            let payload := ts +:+ "." +:+ nonce in
            let h := toHex (hmac_sha256 (TextEncoder_encode secret)
                                        (TextEncoder_encode payload)) in
            if negb (String.eqb h sig) then (false, store)
            else (true, store_set store nonce now_set)
      end.

(** *** The server over time *)

(** What happens at the server: a request passes [verifyHmac], or the
    interval timer fires. *)
Inductive event :=
| Request (now_check now_set : N) (req : headers)
| Sweep (now : N).

(** The readings of the clock an event makes, in order. *)
Definition readings (e : event) : list N :=
  match e with
  | Request now_check now_set _ => [now_check; now_set]
  | Sweep now => [now]
  end.

Variable UPLOAD_SECRET : option string.
Variable NODE_ENV : string.

Definition step (store : nonce_store) (e : event) : nonce_store :=
  match e with
  | Request now_check now_set req =>
      snd (verifyHmac UPLOAD_SECRET NODE_ENV now_check now_set req store)
  | Sweep now => sweep now store
  end.

(** The store after a run of events. *)
Definition run (store : nonce_store) (events : list event) : nonce_store :=
  fold_left step events store.


(** A call leaves the store as it is or enters one new nonce. *)
Lemma verifyHmac_store (now_check now_set : N) (req : headers) (store : nonce_store) :
  let r := verifyHmac UPLOAD_SECRET NODE_ENV now_check now_set req store in
  snd r = store
  \/ (fst r = true /\ exists nonce,
        req !! "x-upload-nonce" = Some nonce
        /\ store_has store nonce = false
        /\ snd r = store ++ [(nonce, now_set)]).
Proof.
  unfold verifyHmac.
  destruct (missing UPLOAD_SECRET); [destruct (String.eqb NODE_ENV "production"); now left|].
  destruct (missing (req !! "x-upload-ts") || missing (req !! "x-upload-nonce")
            || missing (req !! "x-upload-signature")) eqn:Hm; [now left|].
  destruct (Number _); [now left|now left|].
  destruct (negb (Qle_bool _ _)); [now left|].
  destruct (store_has store _) eqn:Hhas; [now left|].
  destruct (negb (String.eqb _ _)); [now left|].
  right. split; [reflexivity|].
  destruct (req !! "x-upload-nonce") as [nonce|] eqn:Hn.
  - exists nonce. cbn [from_option] in *. unfold id in *. unfold store_set. rewrite Hhas. auto.
  - cbn in Hm. rewrite orb_true_r in Hm. discriminate.
Qed.

Lemma step_NoDup (store : nonce_store) (e : event) :
  NoDup (keys store) -> NoDup (keys (step store e)).
Proof.
  intros Hnd. destruct e as [c s req|now]; cbn [step].
  - destruct (verifyHmac_store c s req store) as [->|(_ & nonce & _ & Hhas & ->)];
      [assumption|].
    unfold keys. rewrite fmap_app. apply NoDup_app. split; [assumption|]. split.
    + intros x Hx Hx'. apply list_elem_of_singleton in Hx'. cbn in Hx'. subst x.
      apply store_has_absent in Hhas. contradiction.
    + apply NoDup_singleton.
  - now apply sweep_NoDup.
Qed.

Lemma step_length (store : nonce_store) (e : event) :
  NoDup (keys store) -> (length (step store e) <= S (length store))%nat.
Proof.
  intros Hnd. destruct e as [c s req|now]; cbn [step].
  - destruct (verifyHmac_store c s req store) as [->|(_ & nonce & _ & Hhas & ->)];
      [lia|]. rewrite length_app. cbn. lia.
  - pose proof (sweep_length_le now store Hnd). lia.
Qed.

Lemma run_invariant (events : list event) :
  forall store, NoDup (keys store) ->
    NoDup (keys (run store events))
    /\ (length (run store events) <= length store + length events)%nat.
Proof.
  induction events as [|e events IH]; intros store Hnd; cbn [run fold_left length].
  - split; [assumption|lia].
  - destruct (IH (step store e) (step_NoDup store e Hnd)) as [H1 H2].
    split; [exact H1|]. pose proof (step_length store e Hnd).
    unfold run in H2. lia.
Qed.

(** X22. The nonce store is bounded and holds nothing stale after the timer
    has fired.  Whatever requests and sweeps the server has seen since it
    started, after a sweep at time [now] the store holds at most
    [MAX_NONCES] (10000) nonces, and every one of them was entered at most
    [NONCE_TTL] (ten minutes) before [now]. *)
Theorem swept_store_is_bounded (events : list event) (now : N) :
  let store := sweep now (run [] events) in
  (Z.of_nat (length store) <= 10000)%Z
  /\ Forall (fun e => (Z.of_N now - Z.of_N (snd e) <= 600000)%Z) store.
Proof.
  destruct (run_invariant events [] (NoDup_nil_2 : NoDup (keys []))) as [Hnd _].
  cbn zeta. split.
  - exact (sweep_length now _ Hnd).
  - apply List.Forall_forall. intros e He.
    now destruct (sweep_subset now _ e Hnd He).
Qed.

(** An entry survives the events that follow while the clock has not passed
    its time to live and the store is not full. *)
Lemma entry_persists (e : string * N) (limit : N) (events : list event) :
  forall store,
    NoDup (keys store) -> In e store ->
    (Z.of_N limit - Z.of_N (snd e) <= NONCE_TTL)%Z ->
    Forall (fun t => (t <= limit)%N) (flat_map readings events) ->
    (Z.of_nat (length store + length events) <= MAX_NONCES)%Z ->
    In e (run store events).
Proof.
  induction events as [|ev events IH]; intros store Hnd He Hlimit Hclock Hroom;
    cbn [run fold_left]; [assumption|].
  cbn [flat_map] in Hclock. apply Forall_app in Hclock as [Hev Hclock].
  pose proof (step_length store ev Hnd) as Hstep.
  apply IH; [now apply step_NoDup| |assumption|assumption|cbn [length] in Hroom; lia].
  destruct ev as [c s req|now]; cbn [step].
  - destruct (verifyHmac_store c s req store) as [->|(_ & nonce & _ & _ & ->)];
      [assumption|]. apply in_or_app. now left.
  - apply sweep_keeps; [assumption|cbn [length] in Hroom; lia|assumption|].
    cbn [readings] in Hev. apply Forall_cons_1 in Hev as [Hnow _]. lia.
Qed.


(** What an accepted request tells: the three headers are there, the
    timestamp is a number within five minutes of the clock, the nonce is
    new and is entered with the time of the second reading. *)
Lemma verifyHmac_accepted (now_check now_set : N) (req : headers) (store : nonce_store) :
  missing UPLOAD_SECRET = false ->
  fst (verifyHmac UPLOAD_SECRET NODE_ENV now_check now_set req store) = true ->
  exists ts nonce timestamp,
    req !! "x-upload-ts" = Some ts
    /\ req !! "x-upload-nonce" = Some nonce
    /\ Number ts = Finite timestamp
    /\ (Qabs (inject_Z (Z.of_N now_check) - timestamp) <= inject_Z 300000)%Q
    /\ store_has store nonce = false
    /\ snd (verifyHmac UPLOAD_SECRET NODE_ENV now_check now_set req store)
       = store ++ [(nonce, now_set)].
Proof.
  intros Hsecret. unfold verifyHmac. rewrite Hsecret.
  destruct (req !! "x-upload-ts") as [ts|]; [|discriminate].
  destruct (req !! "x-upload-nonce") as [nonce|];
    [|cbn; rewrite orb_true_r; discriminate].
  destruct (missing (Some ts) || missing (Some nonce)
            || missing (req !! "x-upload-signature")); [discriminate|].
  cbn [from_option]. unfold id.
  destruct (Number ts) as [| |timestamp] eqn:Enum; [cbn [fst]; discriminate..|].
  destruct (Qle_bool _ _) eqn:Hage; cbn [negb]; [|cbn [fst]; discriminate].
  destruct (store_has store nonce) eqn:Hhas; [cbn [fst]; discriminate|].
  destruct (negb (String.eqb _ _)); [cbn [fst]; discriminate|].
  intros _. exists ts, nonce, timestamp.
  apply Qle_bool_iff in Hage.
  unfold store_set. rewrite Hhas. repeat split; auto.
Qed.

(** X23. A replayed request is refused.  With a secret configured, a clock
    that never goes back and fewer than [MAX_NONCES] events since the server
    started: once a request has been accepted, every later request that
    carries the same timestamp and nonce headers is refused and leaves the
    store as it is, however many requests and sweeps lie in between. *)
Theorem replayed_request_is_refused (pre mid : list event)
    (c1 s1 c2 s2 : N) (req req' : headers) :
  missing UPLOAD_SECRET = false ->
  req' !! "x-upload-ts" = req !! "x-upload-ts" ->
  req' !! "x-upload-nonce" = req !! "x-upload-nonce" ->
  StronglySorted N.le
    (flat_map readings (Request c1 s1 req :: mid ++ [Request c2 s2 req'])) ->
  (Z.of_nat (length pre + length mid) < MAX_NONCES)%Z ->
  fst (verifyHmac UPLOAD_SECRET NODE_ENV c1 s1 req (run [] pre)) = true ->
  let later := run [] (pre ++ Request c1 s1 req :: mid) in
  verifyHmac UPLOAD_SECRET NODE_ENV c2 s2 req' later = (false, later).
Proof.
  intros Hsecret Hts Hnonce Hclock Hroom Hfirst later.
  destruct (verifyHmac_accepted c1 s1 req _ Hsecret Hfirst)
    as (ts & nonce & timestamp & Ets & Enonce & Enum & Hage1 & Hnew & Hstore).
  destruct (run_invariant pre [] (NoDup_nil_2 : NoDup (keys []))) as [Hnd Hlen].
  cbn [length] in Hlen.
  pose proof (step_NoDup (run [] pre) (Request c1 s1 req) Hnd) as Hnd1.
  cbn [step] in Hnd1.
  (* the clock *)
  cbn [flat_map readings app] in Hclock.
  apply StronglySorted_inv in Hclock as [Hclock Hc1].
  apply StronglySorted_inv in Hclock as [Hclock Hs1].
  apply Forall_cons_1 in Hc1 as [Hc1 _].
  rewrite flat_map_app in Hclock, Hs1. cbn [flat_map readings app] in Hclock, Hs1.
  apply Forall_app in Hs1 as [_ Hs1c2]. apply Forall_cons_1 in Hs1c2 as [Hs1c2 _].
  apply StronglySorted_app in Hclock as (Hmid & _ & _).
  assert (Hmid' : Forall (fun t => (t <= c2)%N) (flat_map readings mid)).
  { apply List.Forall_forall. intros t Ht.
    apply (Hmid t c2); [now apply list_elem_of_In|apply list_elem_of_here]. }
  (* the second request *)
  unfold verifyHmac. rewrite Hsecret, Hts, Hnonce, Ets, Enonce.
  destruct (missing (Some ts) || missing (Some nonce)
            || missing (req' !! "x-upload-signature")); [reflexivity|].
  cbn [from_option]. unfold id. rewrite Enum.
  destruct (Qle_bool _ _) eqn:Hage2; [|reflexivity]. cbn [negb].
  apply Qle_bool_iff in Hage2.
  assert (Hclose : (Z.of_N c2 - Z.of_N s1 <= NONCE_TTL)%Z).
  { apply Qabs_Qle_condition in Hage1, Hage2.
    assert (Hq : (inject_Z (Z.of_N c2) - inject_Z (Z.of_N c1) <= inject_Z 600000)%Q).
    { change (inject_Z (5 * 60 * 1000)) with 300000%Q in Hage2.
      change (inject_Z 300000) with 300000%Q in Hage1.
      change (inject_Z 600000) with 600000%Q. lra. }
    unfold Qminus in Hq. rewrite <- inject_Z_opp, <- inject_Z_plus in Hq.
    rewrite <- Zle_Qle in Hq. unfold NONCE_TTL. lia. }
  assert (Hin : In (nonce, s1) later).
  { unfold later, run. rewrite fold_left_app. cbn [fold_left step].
    fold (run [] pre). rewrite Hstore.
    apply (entry_persists (nonce, s1) c2 mid).
    - now rewrite <- Hstore.
    - apply in_or_app. right. now left.
    - exact Hclose.
    - exact Hmid'.
    - rewrite length_app. cbn [length]. lia. }
  assert (Hhas : store_has later nonce = true).
  { apply existsb_exists. exists (nonce, s1). split; [assumption|apply String.eqb_refl]. }
  now rewrite Hhas.
Qed.

Lemma toString_nonempty (n : nat) : toString n <> "".
Proof.
  unfold toString. intros E.
  apply (f_equal NilEmpty.uint_of_string) in E. rewrite NilEmpty.usu in E.
  cbn in E. injection E as E. destruct n; [discriminate|].
  apply (f_equal Nat.of_uint) in E. rewrite Unsigned.of_to in E. discriminate.
Qed.

Lemma toHex_nonempty (bytes : list byte) : bytes <> [] -> toHex bytes <> "".
Proof. destruct bytes; [congruence|discriminate]. Qed.

(** X24. The server accepts what the client signs.  With the same secret on
    both sides, the headers of [generateHmacHeaders] pass [verifyHmac] when
    the server's clock is within five minutes of the client's and the nonce
    has not been seen; the nonce is entered in the store. *)
Theorem signed_request_is_accepted (secret : string) (client_now : N)
    (random16 : list byte) (now_check now_set : N) (store : nonce_store) :
  secret <> "" ->
  (forall n, Number (toString n) = Finite (inject_Z (Z.of_nat n))) ->
  (forall key message, length (hmac_sha256 key message) = 32%nat) ->
  length random16 = 16%nat ->
  (Z.abs (Z.of_N now_check - Z.of_N client_now) <= 300000)%Z ->
  store_has store (toHex random16) = false ->
  verifyHmac (Some secret) NODE_ENV now_check now_set
    (generateHmacHeaders secret client_now random16) store
  = (true, store ++ [(toHex random16, now_set)]).
Proof.
  intros Hsecret HNumber Hhmac Hrandom Hclock Hnew.
  unfold generateHmacHeaders, verifyHmac.
  apply String.eqb_neq in Hsecret. cbn [missing]. rewrite Hsecret.
  unfold headers. rewrite lookup_insert_eq.
  rewrite lookup_insert_ne, lookup_insert_eq by discriminate.
  rewrite !lookup_insert_ne, lookup_insert_eq by discriminate.
  cbn [missing from_option]. unfold id.
  assert (H1 : String.eqb (toString (N.to_nat client_now)) "" = false).
  { apply String.eqb_neq, toString_nonempty. }
  assert (H2 : String.eqb (toHex random16) "" = false).
  { apply String.eqb_neq, toHex_nonempty. intros E. now rewrite E in Hrandom. }
  assert (H3 : forall k m, String.eqb (toHex (hmac_sha256 k m)) "" = false).
  { intros k m. apply String.eqb_neq, toHex_nonempty. intros E.
    specialize (Hhmac k m). now rewrite E in Hhmac. }
  rewrite H1, H2, H3. cbn [orb]. rewrite HNumber.
  assert (Hage : Qle_bool (Qabs (inject_Z (Z.of_N now_check)
                                 - inject_Z (Z.of_nat (N.to_nat client_now))))
                          (inject_Z (5 * 60 * 1000)) = true).
  { apply Qle_bool_iff, Qabs_Qle_condition. rewrite N_nat_Z.
    change (inject_Z (5 * 60 * 1000)) with (inject_Z 300000). unfold Qminus.
    rewrite <- !inject_Z_opp, <- inject_Z_plus, <- !Zle_Qle. lia. }
  rewrite Hage. cbn [negb]. rewrite Hnew, String.eqb_refl. cbn [negb].
  unfold store_set. now rewrite Hnew.
Qed.

End Hmac.

(** *** A concrete server and client *)

(** A stand-in for HMAC-SHA-256 with its output length; it keeps nothing
    secret. *)
Definition demo_hmac (key message : list byte) : list byte :=
  take 32 (key ++ message ++ repeat x00 32).

(** [Number] on decimal numerals. *)
Definition decimal_Number (s : string) : js_number :=
  match NilEmpty.uint_of_string s with
  | Some u => Finite (inject_Z (Z.of_nat (Nat.of_uint u)))
  | None => NaN
  end.

Lemma demo_hmac_length (key message : list byte) :
  length (demo_hmac key message) = 32%nat.
Proof.
  unfold demo_hmac. rewrite length_take, !length_app, repeat_length. lia.
Qed.

Lemma decimal_Number_toString (n : nat) :
  decimal_Number (toString n) = Finite (inject_Z (Z.of_nat n)).
Proof.
  unfold decimal_Number, toString. now rewrite NilEmpty.usu, Unsigned.of_to.
Qed.

Definition demo_request (now : N) (b : byte) : headers :=
  generateHmacHeaders demo_hmac "s3cret" now (repeat b 16).

Example sweep_expires_old_nonce :
  sweep 700000 (run demo_hmac decimal_Number (Some "s3cret") "production" []
                  [Request 10 11 (demo_request 10 x2a);
                   Request 200000 200000 (demo_request 200000 x2b)])
  = [("2b2b2b2b2b2b2b2b2b2b2b2b2b2b2b2b", 200000%N)].
Proof. vm_compute. reflexivity. Qed.

Lemma replayed_request_is_refused_witness :
  let later :=
    run demo_hmac decimal_Number (Some "s3cret") "production" []
      ([Sweep 0] ++ Request 10 11 (demo_request 10 x2a)
                 :: [Sweep 50; Request 60 60 (demo_request 60 x2b)]) in
  length later = 2%nat
  /\ verifyHmac demo_hmac decimal_Number (Some "s3cret") "production" 70 70
       (demo_request 10 x2a) later = (false, later).
Proof.
  split; [vm_compute; reflexivity|].
  apply (replayed_request_is_refused demo_hmac decimal_Number (Some "s3cret")
           "production" [Sweep 0] [Sweep 50; Request 60 60 (demo_request 60 x2b)]
           10 11 70 70 (demo_request 10 x2a) (demo_request 10 x2a)).
  - reflexivity.
  - reflexivity.
  - reflexivity.
  - cbn [flat_map readings app]. repeat (constructor; try lia).
  - unfold MAX_NONCES. cbn [length]. lia.
  - vm_compute. reflexivity.
Defined.

Lemma signed_request_is_accepted_witness :
  verifyHmac demo_hmac decimal_Number (Some "s3cret") "production" 1200 1201
    (generateHmacHeaders demo_hmac "s3cret" 1000 (repeat x2a 16)) []
  = (true, [] ++ [(toHex (repeat x2a 16), 1201%N)]).
Proof.
  apply (signed_request_is_accepted demo_hmac decimal_Number "production" "s3cret"
           1000 (repeat x2a 16) 1200 1201 []).
  - discriminate.
  - exact decimal_Number_toString.
  - exact demo_hmac_length.
  - reflexivity.
  - lia.
  - reflexivity.
Defined.

End Auth.
